(** * Nonogram solver: a shallow embedding of the constraint-propagation
      engine and the verification of its specification.

    The development follows the source file by file: [utils] (count, keys,
    values, choose), the data types of [types.ts], then the solver itself
    (generateLineSolns, findValidMoves, the pruners, the generateMoves
    loop and solve), and [draw.ts] (tile, draw), where a string is the
    list of its UTF-16 code units.  Numbers that can go negative in the source are [Z];
    array lengths and indices are [nat]; a cell is a [Z] ([-1] blank,
    [0] unknown, otherwise a colour).  An exception is a value of [Exn];
    the generator is a function of the board that returns the board it
    leaves, the moves it yields and how it ends.

    After the program come the notions the statements are written with,
    then, section by section: the pruners, the frame of the board, the
    termination of the loop, the candidates of a line (combinations,
    decoding, parsing), the soundness of the moves, what a run that ends
    as solved leaves on the board, and the exceptions a round throws.
    Then come the drawing of a board, the exact contents of [choose] and
    of the candidate lists, the forced cells and the two pruners, the
    runs that end with a TypeError, the board solve returns, the moves of
    a run and the report of a failed run (which lines it names, and that
    each of them has an unknown tile), and the colours of the moves. *)

From Stdlib Require Import List ZArith Lia Bool Arith Sorted FinFun.
Import ListNotations.

(* ================================================================== *)
(** ** utils.ts *)
(* ================================================================== *)

Module utils.

(** [count(n, map)]: the array [map(0), ..., map(n-1)]. *)
Definition count {T : Type} (n : nat) (map : nat -> T) : list T :=
  List.map map (seq 0 n).

(** [keys(a)]: the integer keys of an object, in ascending order.  An
    object with integer keys is an association list kept in key order. *)
Definition keys {V : Type} (a : list (nat * V)) : list nat :=
  List.map fst a.

(** [values = Object.values]: the entries, in key order.  Every entry of
    a SolutionMap stores its own key ([x] or [y]), so an entry is the
    pair of the key and the candidate list. *)
Definition values {V : Type} (a : list (nat * V)) : list (nat * V) := a.

(** The indices visited by [for (let i = start; i < stop; i++)]. *)
Definition forRange (start : nat) (stop : Z) : list nat :=
  seq start (Z.to_nat (stop - Z.of_nat start)).

(** [choose(max, pick, start)]. *)
Fixpoint choose (max : Z) (pick : nat) (start : nat) : list (list nat) :=
  match pick with
  | O => []
  | S O =>
      count (Z.to_nat (Z.max (max - Z.of_nat start) 0))
            (fun i => [start + i])
  | S (S _ as pick') =>
      flat_map
        (fun i => List.map (fun subCombo => i :: subCombo)
                           (choose max pick' (i + 1)))
        (forRange start (max - 1))
  end.

End utils.

(* ================================================================== *)
(** ** types.ts *)
(* ================================================================== *)

(** [count] is a number of tiles, a natural number; [val] is any number
    (the documentation asks for a nonnegative one). *)
Record RuleEntry : Type := { count : nat; val : Z }.
Abbreviation Rule := (list RuleEntry) (only parsing).
Record Rules : Type := { column : list Rule; row : list Rule }.

Record Tile : Type := { x : nat; y : nat }.
Record Move : Type := { tile : Tile; next : Z }.

Abbreviation Board := (list (list Z)) (only parsing).

(** [unsolved: { rows, columns }] is flattened into two fields. *)
Record Solution : Type :=
  { board : Board;
    solved : bool;
    unsolved_rows : list nat;
    unsolved_columns : list nat }.

(* ================================================================== *)
(** ** The solver: line candidates *)
(* ================================================================== *)

Abbreviation Line := (list Z) (only parsing).
Abbreviation PruneResult := (list Line * Z)%type (only parsing).
Abbreviation SolutionMap := (list (nat * list Line)) (only parsing).

(** A tagged rule entry: [{count, val, same}]. *)
Record TaggedEntry : Type := { t_count : nat; t_val : Z; same : bool }.

(** [rule[i - 1]?.val === rule[i].val]; [rule[-1]] is [undefined]. *)
Definition isSameColorAsPrevious (rule : Rule) (i : nat) : bool :=
  match i with
  | O => false
  | S j =>
      match nth_error rule j, nth_error rule i with
      | Some p, Some r => Z.eqb (val p) (val r)
      | _, _ => false
      end
  end.

(** [arr.map((r, i) => f(r, i))]. *)
Definition mapi {A B : Type} (f : A -> nat -> B) (arr : list A) : list B :=
  List.map (fun ir => f (snd ir) (fst ir)) (combine (seq 0 (length arr)) arr).

Definition taggedRule (rule : Rule) : list TaggedEntry :=
  mapi (fun r i => {| t_count := count r; t_val := val r;
                      same := isSameColorAsPrevious rule i |}) rule.

Definition mandatorySpaces (rule : Rule) : nat :=
  length (filter same (taggedRule rule)).

Definition sumOfColoredSpaces (rule : Rule) : nat :=
  fold_left (fun a r => a + count r) rule 0.

Definition freeSpaces (lineLength : nat) (rule : Rule) : Z :=
  (Z.of_nat lineLength - Z.of_nat (mandatorySpaces rule)
   - Z.of_nat (sumOfColoredSpaces rule))%Z.

Definition totalSlots (lineLength : nat) (rule : Rule) : Z :=
  (freeSpaces lineLength rule + Z.of_nat (length rule))%Z.

Definition arrangements (lineLength : nat) (rule : Rule) : list (list nat) :=
  utils.choose (totalSlots lineLength rule) (length rule) 0.

(** [arr[i] = v] on a JS array.  An index past the end extends the array;
    the positions skipped are written here as [undefined].  This case does
    not arise in [generateLineSolns]: the slots of an arrangement are below
    the length of [slots] (lemma [fill_decode]). *)
Fixpoint array_set {T : Type} (arr : list (option T)) (i : nat)
    (v : option T) : list (option T) :=
  match arr, i with
  | [], O => [v]
  | [], S j => None :: array_set [] j v
  | _ :: t, O => v :: t
  | h :: t, S j => h :: array_set t j v
  end.

(** [a.forEach((slot, i) => { slots[slot] = taggedRule[i]; })]. *)
Definition fillSlots (tagged : list TaggedEntry) (a : list nat)
    (slots : list (option TaggedEntry)) : list (option TaggedEntry) :=
  fold_left (fun acc si => array_set acc (snd si) (nth_error tagged (fst si)))
            (combine (seq 0 (length a)) a) slots.

(** The callback of [slots.flatMap]. *)
Definition slotCells (slot : option TaggedEntry) : Line :=
  match slot with
  | None => [(-1)%Z]
  | Some s =>
      let v := utils.count (t_count s) (fun _ => t_val s) in
      if same s then (-1)%Z :: v else v
  end.

(** The body of [arrangements.map((a) => ...)]. *)
Definition lineOfArrangement (total : Z) (tagged : list TaggedEntry)
    (a : list nat) : Line :=
  let slots := utils.count (Z.to_nat total) (fun _ => @None TaggedEntry) in
  flat_map slotCells (fillSlots tagged a slots).

Definition generateLineSolns (lineLength : nat) (rule : Rule) : list Line :=
  if Nat.eqb (length rule) 0 then
    [utils.count lineLength (fun _ => (-1)%Z)]
  else
    List.map (lineOfArrangement (totalSlots lineLength rule) (taggedRule rule))
             (arrangements lineLength rule).

(* ================================================================== *)
(** ** Errors and the generator monad *)
(* ================================================================== *)

(** The three messages a SolveError is built with. *)
Inductive Message : Type :=
| RowHasNoSolutions (x : nat)      (* `Row ${row.x} has no solutions` *)
| ColumnHasNoSolutions (y : nat)   (* `Column ${col.y} has no solutions` *)
| RanOutOfMoves.                   (* "Ran out of moves" *)

Record SolveError : Type :=
  { message : Message;
    unsolvedRows : list nat;
    unsolvedColumns : list nat }.

(** The constructor of the class SolveError. *)
Definition newSolveError (msg : Message) (unsolvedRows unsolvedColumns : SolutionMap)
  : SolveError :=
  {| message := msg;
     unsolvedRows := utils.keys unsolvedRows;
     unsolvedColumns := utils.keys unsolvedColumns |}.

(** What a JS evaluation can throw here: a SolveError, or the runtime's
    TypeError when a property of [undefined] is read. *)
Inductive Exn : Type :=
| TypeError
| Thrown (e : SolveError).

Inductive Res (A : Type) : Type :=
| Ok (a : A)
| Throw (e : Exn).
Arguments Ok {A} a.
Arguments Throw {A} e.

Definition bindR {A B : Type} (r : Res A) (k : A -> Res B) : Res B :=
  match r with
  | Ok a => k a
  | Throw e => Throw e
  end.

Notation "'let*' x ':=' r 'in' k" := (bindR r (fun x => k))
  (at level 10, x pattern, r at level 100, k at level 200).

(** [arr.flatMap(f)] for a callback that can throw. *)
Fixpoint flatMapR {A B : Type} (f : A -> Res (list B)) (arr : list A)
  : Res (list B) :=
  match arr with
  | [] => Ok []
  | a :: rest =>
      let* bs := f a in
      let* bs' := flatMapR f rest in
      Ok (bs ++ bs')
  end.

(** A generator body: it reads and mutates the board, yields moves, and
    ends with a value or a thrown exception. *)
Definition Gen (A : Type) : Type := Board -> Board * list Move * Res A.

Definition retG {A : Type} (a : A) : Gen A := fun b => (b, [], Ok a).

Definition bindG {A B : Type} (g : Gen A) (k : A -> Gen B) : Gen B :=
  fun b =>
    match g b with
    | (b1, ms, Ok a) =>
        match k a b1 with
        | (b2, ms', r) => (b2, ms ++ ms', r)
        end
    | (b1, ms, Throw e) => (b1, ms, Throw e)
    end.

Definition liftG {A : Type} (r : Res A) : Gen A := fun b => (b, [], r).

Notation "'do*' x '<-' g ';' k" := (bindG g (fun x => k))
  (at level 10, x pattern, g at level 100, k at level 200).

(* ================================================================== *)
(** ** The solver: moves *)
(* ================================================================== *)

(** [===] on values that are a number or [undefined]. *)
Definition strictEq (a b : option Z) : bool :=
  match a, b with
  | Some u, Some v => Z.eqb u v
  | None, None => true
  | _, _ => false
  end.

Definition includes (indices : list nat) (i : nat) : bool :=
  existsb (Nat.eqb i) indices.

Definition findValidMoves (lines : list Line) (indices : list nat)
    (solnMapper : nat -> Z -> Move) : Res (list Move) :=
  match lines with
  | [] => Throw TypeError                   (* lines[0].length *)
  | line0 :: _ =>
      let allEqualAt i :=
        forallb (fun n => strictEq (nth_error n i) (nth_error line0 i)) lines in
      Ok (flat_map
            (fun i =>
               if negb (includes indices i) then []
               else if allEqualAt i then
                 match nth_error line0 i with
                 | Some v => [solnMapper i v]
                 | None => []
                 end
               else [])
            (seq 0 (length line0)))
  end.

Definition findMovesFromCol (y : nat) (unsolvedX : list nat) (lines : list Line) :=
  findValidMoves lines unsolvedX
    (fun x next => {| tile := {| x := x; y := y |}; next := next |}).

Definition findMovesFromRow (x : nat) (unsolvedY : list nat) (lines : list Line) :=
  findValidMoves lines unsolvedY
    (fun y next => {| tile := {| x := x; y := y |}; next := next |}).

Definition isLineConflict (solns : list Line) : bool := Nat.eqb (length solns) 0.
Definition isLineSolved (solns : list Line) : bool := Nat.eqb (length solns) 1.

Inductive Dim : Type := DimX | DimY.

Definition tileDim (dim : Dim) (t : Tile) : nat :=
  match dim with DimX => x t | DimY => y t end.

Definition filterMoves (dim : Dim) (i : nat) (moves : list Move) : list Move :=
  filter (fun move => Nat.eqb (tileDim dim (tile move)) i) moves.

Definition movesForCol (y : nat) (moves : list Move) := filterMoves DimY y moves.
Definition movesForRow (x : nat) (moves : list Move) := filterMoves DimX x moves.

Definition pruneByMoves (dim : Dim) (solns : list Line) (moves : list Move)
  : PruneResult :=
  let initialCount := length solns in
  let newSolns :=
    filter (fun soln =>
              forallb (fun m => strictEq (nth_error soln (tileDim dim (tile m)))
                                         (Some (next m))) moves)
           solns in
  (newSolns, (Z.of_nat initialCount - Z.of_nat (length newSolns))%Z).

Definition pruneColByMoves (solns : list Line) (moves : list Move) :=
  pruneByMoves DimX solns moves.
Definition pruneRowByMoves (solns : list Line) (moves : list Move) :=
  pruneByMoves DimY solns moves.

(** A [Set<number>]: its elements in insertion order, without repeats.
    An element is [soln[i]], a number or [undefined]. *)
Abbreviation ColorSet := (list (option Z)) (only parsing).

Definition has (s : ColorSet) (c : option Z) : bool := existsb (strictEq c) s.
Definition add (s : ColorSet) (c : option Z) : ColorSet :=
  if has s c then s else s ++ [c].
Definition intersection (s other : ColorSet) : ColorSet := filter (has other) s.

Definition getPossibleColors (solns : list Line) (i : nat) : ColorSet :=
  fold_left (fun colorSet soln => add colorSet (nth_error soln i)) solns [].

Definition pruneByColors (solns : list Line) (allowedColors : ColorSet) (i : nat)
  : PruneResult :=
  let initialLength := length solns in
  let filteredSolns := filter (fun soln => has allowedColors (nth_error soln i)) solns in
  (filteredSolns, (Z.of_nat initialLength - Z.of_nat (length filteredSolns))%Z).

(* ================================================================== *)
(** ** The solver: the board and the candidate maps *)
(* ================================================================== *)

Definition generateEmptyBoardFor (rules : Rules) : Board :=
  utils.count (length (column rules))
    (fun _ => utils.count (length (row rules)) (fun _ => 0%Z)).

(** [board[x][y] = v], used only after [board[x][y]] was read as [0], that
    is at a position inside the array. *)
Fixpoint setAt {T : Type} (arr : list T) (i : nat) (f : T -> T) : list T :=
  match arr, i with
  | [], _ => []
  | h :: t, O => f h :: t
  | h :: t, S j => h :: setAt t j f
  end.

Definition setCell (board : Board) (x y : nat) (v : Z) : Board :=
  setAt board x (fun r => setAt r y (fun _ => v)).

(** The body of the two "yield moves to caller" loops:
    [if (board[x][y] !== 0) continue; board[x][y] = next; yield move]. *)
Fixpoint yieldMoves (moves : list Move) : Gen unit :=
  fun board =>
    match moves with
    | [] => (board, [], Ok tt)
    | move :: rest =>
        match nth_error board (x (tile move)) with
        | None => (board, [], Throw TypeError)     (* board[x] is undefined *)
        | Some r =>
            match nth_error r (y (tile move)) with
            | Some 0%Z =>
                match yieldMoves rest
                        (setCell board (x (tile move)) (y (tile move)) (next move))
                with
                | (board', ms, res) => (board', move :: ms, res)
                end
            | _ => yieldMoves rest board           (* continue *)
            end
        end
    end.

(** [delete map[k]]. *)
Definition deleteKey (k : nat) (m : SolutionMap) : SolutionMap :=
  filter (fun e => negb (Nat.eqb (fst e) k)) m.

(** [map[k].solns = solns] (also [row.solns = solns] on the entry object
    that the map shares with the snapshot array). *)
Definition setSolns (k : nat) (solns : list Line) (m : SolutionMap) : SolutionMap :=
  List.map (fun e => if Nat.eqb (fst e) k then (k, solns) else e) m.

(** [map[k]]: the entry's [solns], or nothing when [map[k]] is [undefined]. *)
Definition lookup (k : nat) (m : SolutionMap) : option (list Line) :=
  option_map snd (find (fun e => Nat.eqb (fst e) k) m).

(** The variables of generateMoves that live across rounds. *)
Record Store : Type :=
  { rowMap : SolutionMap;
    colMap : SolutionMap;
    unsolvedRowCount : Z;
    unsolvedColCount : Z }.

Definition initialStore (rules : Rules) : Store :=
  let width := length (column rules) in
  let height := length (row rules) in
  {| rowMap := mapi (fun row x => (x, generateLineSolns width row)) (row rules);
     colMap := mapi (fun col y => (y, generateLineSolns height col)) (column rules);
     unsolvedRowCount := Z.of_nat (length (row rules));
     unsolvedColCount := Z.of_nat (length (column rules)) |}.

(** "Remove invalidated possibilities", the loop over the rows.  The entry
    objects of [unsolvedRows] are the ones stored in [rowMap]; an entry is
    written only in its own iteration, so [row.solns] is the value the
    snapshot holds. *)
Fixpoint pruneRows (colMoves : list Move) (colMap : SolutionMap)
    (unsolvedRows : list (nat * list Line))
    (rowMap : SolutionMap) (unsolvedRowCount prunedCount : Z)
  : Res (SolutionMap * Z * Z) :=
  match unsolvedRows with
  | [] => Ok (rowMap, unsolvedRowCount, prunedCount)
  | (x, solns) :: rest =>
      if isLineSolved solns then
        pruneRows colMoves colMap rest
          (deleteKey x rowMap) (unsolvedRowCount - 1)%Z (prunedCount + 1)%Z
      else if isLineConflict solns then
        Throw (Thrown (newSolveError (RowHasNoSolutions x) rowMap colMap))
      else
        let '(solns', pruned) := pruneRowByMoves solns (movesForRow x colMoves) in
        pruneRows colMoves colMap rest
          (setSolns x solns' rowMap) unsolvedRowCount (prunedCount + pruned)%Z
  end.

(** The loop over the columns. *)
Fixpoint pruneCols (rowMoves : list Move) (rowMap : SolutionMap)
    (unsolvedCols : list (nat * list Line))
    (colMap : SolutionMap) (unsolvedColCount prunedCount : Z)
  : Res (SolutionMap * Z * Z) :=
  match unsolvedCols with
  | [] => Ok (colMap, unsolvedColCount, prunedCount)
  | (y, solns) :: rest =>
      if isLineSolved solns then
        pruneCols rowMoves rowMap rest
          (deleteKey y colMap) (unsolvedColCount - 1)%Z (prunedCount + 1)%Z
      else if isLineConflict solns then
        Throw (Thrown (newSolveError (ColumnHasNoSolutions y) rowMap colMap))
      else
        let '(solns', pruned) := pruneColByMoves solns (movesForCol y rowMoves) in
        pruneCols rowMoves rowMap rest
          (setSolns y solns' colMap) unsolvedColCount (prunedCount + pruned)%Z
  end.

(** The body of the two nested loops of the optional step, at one
    intersection. *)
Definition arcCell (x y : nat) (st : SolutionMap * SolutionMap * Z)
  : Res (SolutionMap * SolutionMap * Z) :=
  let '(rowMap, colMap, prunedCount) := st in
  match lookup y colMap with
  | None => Throw TypeError                  (* colMap[y].solns *)
  | Some colLines =>
      match lookup x rowMap with
      | None => Throw TypeError              (* rowMap[x].solns *)
      | Some rowLines =>
          let colColors := getPossibleColors colLines x in
          let rowColors := getPossibleColors rowLines y in
          let combinedPossibleColors := intersection colColors rowColors in
          let '(colSolns, colPruned) :=
            pruneByColors colLines combinedPossibleColors x in
          let '(rowSolns, rowPruned) :=
            pruneByColors rowLines combinedPossibleColors y in
          Ok (setSolns x rowSolns rowMap, setSolns y colSolns colMap,
              (prunedCount + (colPruned + rowPruned))%Z)
      end
  end.

(** [for (const a of arr) { st = body(a, st) }] for a body that can throw. *)
Fixpoint forEachR {A S : Type} (body : A -> S -> Res S) (arr : list A) (st : S)
  : Res S :=
  match arr with
  | [] => Ok st
  | a :: rest => let* st' := body a st in forEachR body rest st'
  end.

Definition arcPass (unsolvedRowIdxs unsolvedColIdxs : list nat)
    (st : SolutionMap * SolutionMap * Z) : Res (SolutionMap * SolutionMap * Z) :=
  forEachR (fun x => forEachR (fun y => arcCell x y) unsolvedColIdxs)
           unsolvedRowIdxs st.

(** The second half of an iteration, from "Remove invalidated
    possibilities" on: the store the next iteration starts from, or the
    exception thrown.  [rowMap s] and [colMap s] are also the snapshots
    [unsolvedRows] and [unsolvedCols] taken at the top of the iteration. *)
Definition pruneStore (s : Store) (rowMoves colMoves : list Move) : Res Store :=
  let* (rowMap1, rowCount1, pruned1) :=
    pruneRows colMoves (colMap s) (utils.values (rowMap s))
              (rowMap s) (unsolvedRowCount s) 0%Z in
  let* (colMap1, colCount1, pruned2) :=
    pruneCols rowMoves rowMap1 (utils.values (colMap s))
              (colMap s) (unsolvedColCount s) pruned1 in
  if (pruned2 >? 0)%Z then
    Ok {| rowMap := rowMap1; colMap := colMap1;
          unsolvedRowCount := rowCount1; unsolvedColCount := colCount1 |}
  else
    let* (rowMap2, colMap2, pruned3) :=
      arcPass (utils.keys (rowMap s)) (utils.keys (colMap s))
              (rowMap1, colMap1, pruned2) in
    if (pruned3 =? 0)%Z then
      Throw (Thrown (newSolveError RanOutOfMoves rowMap2 colMap2))
    else
      Ok {| rowMap := rowMap2; colMap := colMap2;
            unsolvedRowCount := rowCount1; unsolvedColCount := colCount1 |}.

(** One iteration of [while (unsolvedRowCount && unsolvedColCount)]. *)
Definition round (s : Store) : Gen Store :=
  let unsolvedRows := utils.values (rowMap s) in
  let unsolvedCols := utils.values (colMap s) in
  let unsolvedRowIdxs := utils.keys (rowMap s) in
  let unsolvedColIdxs := utils.keys (colMap s) in
  do* rowMoves <-
    liftG (flatMapR (fun row => findMovesFromRow (fst row) unsolvedColIdxs (snd row))
                    unsolvedRows);
  do* colMoves <-
    liftG (flatMapR (fun col => findMovesFromCol (fst col) unsolvedRowIdxs (snd col))
                    unsolvedCols);
  do* _ <- yieldMoves rowMoves;
  do* _ <- yieldMoves colMoves;
  liftG (pruneStore s rowMoves colMoves).

(** How a run of the generator ends. *)
Inductive Outcome : Type :=
| Returned                 (* the while loop exits *)
| Raised (e : Exn)         (* an exception leaves the generator *)
| OutOfFuel.               (* the model's round budget is used up *)

(** The while loop, with a budget of rounds. *)
Fixpoint loop (fuel : nat) (s : Store) (board : Board)
  : Board * list Move * Outcome :=
  if (unsolvedRowCount s =? 0)%Z || (unsolvedColCount s =? 0)%Z then
    (board, [], Returned)
  else
    match fuel with
    | O => (board, [], OutOfFuel)
    | S fuel' =>
        match round s board with
        | (board1, ms, Throw e) => (board1, ms, Raised e)
        | (board1, ms, Ok s') =>
            match loop fuel' s' board1 with
            | (board2, ms', out) => (board2, ms ++ ms', out)
            end
        end
    end.

(** The total candidate mass: the candidates of every line still in the
    maps, plus the number of those lines. *)
Definition mapMass (m : SolutionMap) : nat :=
  fold_right (fun e acc => S (length (snd e)) + acc) 0 m.

Definition mass (s : Store) : nat := mapMass (rowMap s) + mapMass (colMap s).

(** [generateMoves(rules, board)], run to its end by a consumer that
    pulls every move: the final board, the moves yielded, and how the run
    ended.  A caller that passes no board passes
    [generateEmptyBoardFor rules].  The round budget of [generateMoves] is
    the initial candidate mass plus one; it is never used up (lemma
    [loop_terminates]). *)
Definition generateMovesFuel (fuel : nat) (rules : Rules) (board : Board)
  : Board * list Move * Outcome :=
  loop fuel (initialStore rules) board.

Definition generateMoves (rules : Rules) (board : Board)
  : Board * list Move * Outcome :=
  generateMovesFuel (S (mass (initialStore rules))) rules board.

(** What a call of [solve] does: it returns a Solution, or lets an
    exception that is not a SolveError through.  [Diverges] stands for a
    run that uses up the round budget (lemma [solve_never_diverges]). *)
Inductive SolveResult : Type :=
| Returns (s : Solution)
| Throws (e : Exn)
| Diverges.

Definition solve (rules : Rules) : SolveResult :=
  let board := generateEmptyBoardFor rules in
  match generateMoves rules board with
  | (board', _, Raised (Thrown err)) =>
      Returns {| board := board'; solved := false;
                 unsolved_rows := unsolvedRows err;
                 unsolved_columns := unsolvedColumns err |}
  | (_, _, Raised e) => Throws e
  | (board', _, Returned) =>
      Returns {| board := board'; solved := true;
                 unsolved_rows := []; unsolved_columns := [] |}
  | (_, _, OutOfFuel) => Diverges
  end.


(* ================================================================== *)
(** ** draw.ts *)
(* ================================================================== *)

(** A JS string, as the list of its UTF-16 code units. *)
Abbreviation JsString := (list Z) (only parsing).

(** [String.fromCharCode(n)]: the string of the one code unit
    [n mod 2^16]. *)
Definition fromCharCode (n : Z) : JsString := [(n mod 65536)%Z].

(** [arr.join(sep)]. *)
Fixpoint join (sep : JsString) (parts : list JsString) : JsString :=
  match parts with
  | [] => []
  | part :: rest =>
      match rest with
      | [] => part
      | _ :: _ => part ++ sep ++ join sep rest
      end
  end.

Module Draw.

(** [x == 0 ? "?" : x == -1 ? " " : String.fromCharCode(x + 64)];
    "?" is the code unit 63 and " " the code unit 32. *)
Definition tile (x : Z) : JsString :=
  if Z.eqb x 0 then [63%Z]
  else if Z.eqb x (-1) then [32%Z]
  else fromCharCode (x + 64).

(** [board.map((row) => row.map(tile).join("")).join("\n")]; "\n" is the
    code unit 10. *)
Definition draw (board : Board) : JsString :=
  join [10%Z] (List.map (fun row => join [] (List.map tile row)) board).

End Draw.

(* ================================================================== *)
(** ** Specification vocabulary *)
(* ================================================================== *)

(** [board[x][y]], when both indices are inside the board. *)
Definition cellAt (b : Board) (x y : nat) : option Z :=
  match nth_error b x with
  | Some r => nth_error r y
  | None => None
  end.

(** [writesZeroOnly b ms b']: [b'] is [b] after the moves [ms] were
    written one after the other, each at a cell that held [0] at the time
    of its write. *)
Inductive writesZeroOnly : Board -> list Move -> Board -> Prop :=
| wz_done (b : Board) : writesZeroOnly b [] b
| wz_write (b : Board) (m : Move) (ms : list Move) (b' : Board) :
    cellAt b (x (tile m)) (y (tile m)) = Some 0%Z ->
    writesZeroOnly (setCell b (x (tile m)) (y (tile m)) (next m)) ms b' ->
    writesZeroOnly b (m :: ms) b'.

(** The keys of both candidate maps are pairwise distinct (they are the
    keys of a JS object). *)
Definition storeKeysDistinct (s : Store) : Prop :=
  NoDup (utils.keys (rowMap s)) /\ NoDup (utils.keys (colMap s)).

(** The common shape of the two "remove invalidated possibilities" loops:
    [pruneOne] is the pruning of one line by the moves of the other
    dimension, [err] builds the exception of a line without candidates. *)
Fixpoint pruneLines (pruneOne : nat -> list Line -> PruneResult)
    (err : nat -> SolutionMap -> Exn)
    (todo : list (nat * list Line))
    (m : SolutionMap) (unsolvedCount prunedCount : Z)
  : Res (SolutionMap * Z * Z) :=
  match todo with
  | [] => Ok (m, unsolvedCount, prunedCount)
  | (k, solns) :: rest =>
      if isLineSolved solns then
        pruneLines pruneOne err rest
          (deleteKey k m) (unsolvedCount - 1)%Z (prunedCount + 1)%Z
      else if isLineConflict solns then Throw (err k m)
      else
        let '(solns', pruned) := pruneOne k solns in
        pruneLines pruneOne err rest
          (setSolns k solns' m) unsolvedCount (prunedCount + pruned)%Z
  end.

(** The binomial coefficient C(n, k), by Pascal's rule. *)
Fixpoint binom (n k : nat) : nat :=
  match n, k with
  | _, O => 1
  | O, S _ => 0
  | S n', S k' => binom n' k' + binom n' (S k')
  end.

(** Does the line start with the cell [v]? *)
Definition startsWith (v : Z) (l : Line) : bool :=
  match l with
  | c :: _ => Z.eqb c v
  | [] => false
  end.

(** Parsing a line back into its runs: the maximal blocks of equal
    non-blank cells, left to right, as (length, colour) entries. *)
Fixpoint runs (l : Line) : Rule :=
  match l with
  | [] => []
  | c :: t =>
      if Z.eqb c (-1) then runs t
      else
        match runs t with
        | r :: rs =>
            if startsWith c t
            then {| count := S (count r); val := c |} :: rs
            else {| count := 1; val := c |} :: r :: rs
        | [] => [{| count := 1; val := c |}]
        end
  end.

(** The strict lexicographic order on combinations. *)
Fixpoint lexLt (a b : list nat) : Prop :=
  match a, b with
  | _, [] => False
  | [], _ :: _ => True
  | i :: a', j :: b' => i < j \/ (i = j /\ lexLt a' b')
  end.

(** [increasingFrom lo max a]: the slots of [a] are strictly increasing,
    at least [lo] and below [max]. *)
Fixpoint increasingFrom (lo max : nat) (a : list nat) : Prop :=
  match a with
  | [] => lo <= max
  | s :: a' => lo <= s /\ increasingFrom (S s) max a'
  end.

(** All ways to pick [pick] increasing slots in [start, max), smallest
    first: what [utils.choose] enumerates for [pick >= 1]. *)
Fixpoint combs (max pick start : nat) : list (list nat) :=
  match pick with
  | O => [[]]
  | S pick' =>
      flat_map (fun i => List.map (cons i) (combs max pick' (S i)))
               (seq start (max - start))
  end.

(** The rule tagged from left to right; [prev] is the colour of the run
    before the first one. *)
Fixpoint tagFrom (prev : option Z) (rule : Rule) : list TaggedEntry :=
  match rule with
  | [] => []
  | r :: rest =>
      {| t_count := count r; t_val := val r;
         same := strictEq prev (Some (val r)) |}
        :: tagFrom (Some (val r)) rest
  end.

(** The cells an arrangement decodes to, read from slot [pos] on. *)
Fixpoint decodeFrom (pos : nat) (a : list nat) (ts : list TaggedEntry)
    (total : nat) : Line :=
  match a, ts with
  | s :: a', t :: ts' =>
      repeat (-1)%Z (s - pos) ++ slotCells (Some t) ++ decodeFrom (S s) a' ts' total
  | _, _ => repeat (-1)%Z (total - pos)
  end.

(** The cells the runs of a tagged rule take, separators included. *)
Definition blockCells (ts : list TaggedEntry) : nat :=
  fold_right (fun t acc => t_count t + (if same t then 1 else 0) + acc) 0 ts.

(** A clue is proper when every run has at least one cell and a colour
    that is not the blank [-1]. *)
Definition properRule (rule : Rule) : Prop :=
  Forall (fun r => 1 <= count r /\ val r <> (-1)%Z) rule.

Definition R (c : nat) (v : Z) : RuleEntry := {| count := c; val := v |}.

(** The number of blank cells a line starts with. *)
Fixpoint leadingBlanks (l : Line) : nat :=
  match l with
  | c :: t => if Z.eqb c (-1) then S (leadingBlanks t) else 0
  | [] => 0
  end.

(** Column [y] of a grid given by its rows. *)
Definition columnOf (g : Board) (y : nat) : Line :=
  map (fun r => nth y r (-1)%Z) g.

(** A full-board solution of the rules: a grid with one row per row clue,
    every row as long as there are column clues, in which every row parses
    to its row clue and every column to its column clue. *)
Definition isSolution (rules : Rules) (g : Board) : Prop :=
  Forall2 (fun r clue => length r = length (column rules) /\ runs r = clue)
          g (row rules)
  /\ forall y clue, nth_error (column rules) y = Some clue ->
                    runs (columnOf g y) = clue.

(** The move sets its tile to the value the grid has there. *)
Definition agrees (g : Board) (m : Move) : Prop :=
  cellAt g (x (tile m)) (y (tile m)) = Some (next m).

(** A generator body respects the frame when its effect on the board is
    the writing of the moves it yields, each at a zero cell. *)
Definition respectsFrame {A : Type} (g : Gen A) : Prop :=
  forall b, writesZeroOnly b (snd (fst (g b))) (fst (fst (g b))).

(** What the optional step keeps true of (rowMap, colMap, prunedCount):
    distinct keys, and mass plus pruned count bounded by [M]. *)
Definition arcInv (M : Z) (st : SolutionMap * SolutionMap * Z) : Prop :=
  let '(rm, cm, p) := st in
  NoDup (utils.keys rm) /\ NoDup (utils.keys cm)
  /\ (0 <= p)%Z
  /\ (Z.of_nat (mapMass rm + mapMass cm) + p <= M)%Z.

(** The candidate set of row [k] still holds row [k] of the grid [g]. *)
Definition rowKept (g : Board) (e : nat * list Line) : Prop :=
  exists r, nth_error g (fst e) = Some r /\ In r (snd e).

(** The candidate set of column [k] still holds column [k] of [g]. *)
Definition colKept (rules : Rules) (g : Board) (e : nat * list Line) : Prop :=
  fst e < length (column rules) /\ In (columnOf g (fst e)) (snd e).

Definition storeKeeps (rules : Rules) (g : Board) (s : Store) : Prop :=
  Forall (rowKept g) (rowMap s) /\ Forall (colKept rules g) (colMap s).

Definition arcKeeps (rules : Rules) (g : Board)
    (st : SolutionMap * SolutionMap * Z) : Prop :=
  Forall (rowKept g) (fst (fst st)) /\ Forall (colKept rules g) (snd (fst st)).

(** A candidate line of the right length and without unknown cell. *)
Definition lineOk (len : nat) (l : Line) : Prop :=
  length l = len /\ Forall (fun c => c <> 0%Z) l.

Definition linesOk (len : nat) (e : nat * list Line) : Prop :=
  Forall (lineOk len) (snd e).

(** No clue uses the colour id 0, the value of an unknown cell. *)
Definition noZeroColour (rules : Rules) : Prop :=
  Forall (Forall (fun r => val r <> 0%Z)) (row rules)
  /\ Forall (Forall (fun r => val r <> 0%Z)) (column rules).

(** The lines that are not retired by the line loop. *)
Definition unsolvedOf (m : SolutionMap) : SolutionMap :=
  filter (fun e => negb (isLineSolved (snd e))) m.

(** What holds of the store and the board at the start of every round,
    when every tile is a cell of the board: the counters are the sizes of
    the maps, the candidates are full lines without unknown cell, and a
    tile whose row or column was retired is no longer unknown. *)
Definition solvedInv (rules : Rules) (s : Store) (b : Board) : Prop :=
  storeKeysDistinct s
  /\ unsolvedRowCount s = Z.of_nat (length (rowMap s))
  /\ unsolvedColCount s = Z.of_nat (length (colMap s))
  /\ Forall (linesOk (length (column rules))) (rowMap s)
  /\ Forall (linesOk (length (row rules))) (colMap s)
  /\ forall x0 y0, x0 < length (row rules) -> y0 < length (column rules) ->
       exists v, cellAt b x0 y0 = Some v
                 /\ ((~ In x0 (utils.keys (rowMap s))
                      \/ ~ In y0 (utils.keys (colMap s))) -> v <> 0%Z).

(** Every cell of [b] is still a cell in [b'], with the same value or
    with the value the grid [g] has there. *)
Definition towards (g b b' : Board) : Prop :=
  forall x0 y0 v, cellAt b x0 y0 = Some v ->
    exists v', cellAt b' x0 y0 = Some v' /\ (v' = v \/ cellAt g x0 y0 = Some v').

(** What holds of the store and the board at the start of every round when
    [g] solves the rules and every tile is a cell of the board: a tile is
    0 or holds the value of [g], and it holds the value of [g] once its
    row or its column was retired. *)
Definition solutionInv (rules : Rules) (g : Board) (s : Store) (b : Board) : Prop :=
  storeKeysDistinct s
  /\ unsolvedRowCount s = Z.of_nat (length (rowMap s))
  /\ unsolvedColCount s = Z.of_nat (length (colMap s))
  /\ storeKeeps rules g s
  /\ forall x0 y0, x0 < length (row rules) -> y0 < length (column rules) ->
       exists v, cellAt b x0 y0 = Some v
                 /\ (v = 0%Z \/ cellAt g x0 y0 = Some v)
                 /\ ((~ In x0 (utils.keys (rowMap s))
                      \/ ~ In y0 (utils.keys (colMap s))) -> cellAt g x0 y0 = Some v).

(** The cell values [draw] is made for: blank, unknown, or a colour whose
    letter [x + 64] is a code unit. *)
Definition drawable (x : Z) : Prop :=
  x = (-1)%Z \/ x = 0%Z \/ (1 <= x <= 65471)%Z.

(** The code unit [Draw.tile] draws a cell with. *)
Definition glyph (x : Z) : Z :=
  if Z.eqb x 0 then 63%Z
  else if Z.eqb x (-1) then 32%Z
  else ((x + 64) mod 65536)%Z.

(** The tile of the move is a cell of the puzzle. *)
Definition inPuzzle (rules : Rules) (m : Move) : Prop :=
  x (tile m) < length (row rules) /\ y (tile m) < length (column rules).

(** The tiles of the puzzle. *)
Definition allTiles (rules : Rules) : list Tile :=
  map (fun p => {| x := fst p; y := snd p |})
      (list_prod (seq 0 (length (row rules))) (seq 0 (length (column rules)))).

(** What holds of the two maps at the start of every round: their keys
    are increasing indices of rows and of columns of the puzzle, and the
    counters are the sizes of the maps. *)
Definition wellKeyed (rules : Rules) (s : Store) : Prop :=
  StronglySorted lt (utils.keys (rowMap s))
  /\ StronglySorted lt (utils.keys (colMap s))
  /\ Forall (fun k => k < length (row rules)) (utils.keys (rowMap s))
  /\ Forall (fun k => k < length (column rules)) (utils.keys (colMap s))
  /\ unsolvedRowCount s = Z.of_nat (length (rowMap s))
  /\ unsolvedColCount s = Z.of_nat (length (colMap s)).

(** The lists of unsolved lines are not empty and list increasing
    indices of rows and of columns of the puzzle. *)
Definition reportOk (rules : Rules) (rows columns : list nat) : Prop :=
  rows <> [] /\ columns <> []
  /\ StronglySorted lt rows /\ StronglySorted lt columns
  /\ Forall (fun k => k < length (row rules)) rows
  /\ Forall (fun k => k < length (column rules)) columns.

(** The other dimension. *)
Definition other (d : Dim) : Dim :=
  match d with DimX => DimY | DimY => DimX end.

(** The map of the lines keyed by a dimension: the rows are keyed by
    [x], the columns by [y]. *)
Definition mapOf (d : Dim) (s : Store) : SolutionMap :=
  match d with DimX => rowMap s | DimY => colMap s end.

(** The number of lines keyed by a dimension. *)
Definition linesOf (rules : Rules) (d : Dim) : nat :=
  match d with DimX => length (row rules) | DimY => length (column rules) end.

(** The tile at position [i] of the line [k] of a dimension. *)
Definition tileOf (d : Dim) (k i : nat) : Tile :=
  match d with
  | DimX => {| x := k; y := i |}
  | DimY => {| x := i; y := k |}
  end.

(** All the candidates have the same value at position [i]. *)
Definition allAgree (solns : list Line) (i : nat) : Prop :=
  exists v, forall l, In l solns -> nth_error l i = Some v.

(** Every clue of the puzzle is proper. *)
Definition properRules (rules : Rules) : Prop :=
  Forall properRule (row rules) /\ Forall properRule (column rules).

(** [prunedFrom keyDim idxDim m moves e]: the candidates of the entry [e]
    are candidates of its line in the map [m], where that line is not a
    line to retire, and they agree with every move of [moves] on that
    line. *)
Definition prunedFrom (keyDim idxDim : Dim) (m : SolutionMap) (moves : list Move)
    (e : nat * list Line) : Prop :=
  exists solns,
    In (fst e, solns) m
    /\ isLineSolved solns = false
    /\ incl (snd e) solns
    /\ forall mv, In mv moves -> tileDim keyDim (tile mv) = fst e ->
         forall l, In l (snd e) ->
           nth_error l (tileDim idxDim (tile mv)) = Some (next mv).

(** At a tile that is known, or whose crossing line is retired, the
    candidates of a line still in its map all have the same value. *)
Definition knownAgree (rules : Rules) (d : Dim) (s : Store) (b : Board) : Prop :=
  forall k solns i,
    In (k, solns) (mapOf d s) -> i < linesOf rules (other d) ->
    (cellAt b (x (tileOf d k i)) (y (tileOf d k i)) <> Some 0%Z
     \/ ~ In i (utils.keys (mapOf (other d) s))) ->
    allAgree solns i.

(** What holds at the start of every round of a run on a board of
    unknown cells, for proper clues without the colour id 0. *)
Definition stuckInv (rules : Rules) (s : Store) (b : Board) : Prop :=
  wellKeyed rules s
  /\ (forall d, Forall (linesOk (linesOf rules (other d))) (mapOf d s))
  /\ (forall d, Forall (fun e => NoDup (snd e)) (mapOf d s))
  /\ (forall x0 y0, x0 < length (row rules) -> y0 < length (column rules) ->
        exists v, cellAt b x0 y0 = Some v)
  /\ (forall d, knownAgree rules d s b).

(** The moves found from the lines of a dimension, among the row moves
    and the column moves of a round. *)
Definition movesBy (d : Dim) (rowMoves colMoves : list Move) : list Move :=
  match d with DimX => rowMoves | DimY => colMoves end.

(** "Find possible moves" for the lines of a dimension. *)
Definition findMovesOf (d : Dim) (s : Store) : Res (list Move) :=
  flatMapR (fun e => findValidMoves (snd e) (utils.keys (mapOf (other d) s))
                       (fun i v => {| tile := tileOf d (fst e) i; next := v |}))
           (mapOf d s).

(** A cell value a clue allows: a blank, or the colour of one of its
    runs. *)
Definition colourOf (clue : Rule) (c : Z) : Prop :=
  c = (-1)%Z \/ exists r, In r clue /\ val r = c.

(** The candidates of an entry are made of the cell values its clue
    allows. *)
Definition candsFrom (clues : list Rule) (e : nat * list Line) : Prop :=
  exists clue, nth_error clues (fst e) = Some clue
               /\ forall l c, In l (snd e) -> In c l -> colourOf clue c.

(** The value of the move is allowed by the clue of its row or by the
    clue of its column. *)
Definition moveFromClues (rules : Rules) (m : Move) : Prop :=
  (exists clue, nth_error (row rules) (x (tile m)) = Some clue
                /\ colourOf clue (next m))
  \/ (exists clue, nth_error (column rules) (y (tile m)) = Some clue
                   /\ colourOf clue (next m)).

(* ================================================================== *)
(** ** Pruning: filters only *)
(* ================================================================== *)

Section Pruning.

Lemma strictEq_true (a b : option Z) : strictEq a b = true <-> a = b.
Proof.
  destruct a as [u|], b as [v|]; simpl; split; intro H;
    try discriminate; try reflexivity.
  - apply Z.eqb_eq in H. now subst.
  - injection H as ->. apply Z.eqb_refl.
Qed.

Lemma strictEq_refl (a : option Z) : strictEq a a = true.
Proof. now apply strictEq_true. Qed.

Lemma filter_length_le {A : Type} (f : A -> bool) (l : list A) :
  length (filter f l) <= length l.
Proof.
  induction l as [|a l IH]; simpl; [lia|].
  destruct (f a); simpl; lia.
Qed.

Lemma filter_all {A : Type} (f : A -> bool) (l : list A) :
  (forall a, In a l -> f a = true) -> filter f l = l.
Proof.
  induction l as [|a l IH]; simpl; intro H; [reflexivity|].
  rewrite (H a (or_introl eq_refl)). f_equal. apply IH. intros; apply H; now right.
Qed.

Lemma has_true (s : ColorSet) (c : option Z) : has s c = true <-> In c s.
Proof.
  unfold has. rewrite existsb_exists. split.
  - intros [d [Hin Heq]]. apply strictEq_true in Heq. now subst.
  - intro Hin. exists c. split; [assumption | apply strictEq_refl].
Qed.

Lemma In_add (s : ColorSet) (c d : option Z) :
  In d (add s c) <-> In d s \/ d = c.
Proof.
  unfold add. destruct (has s c) eqn:E.
  - apply has_true in E. split; [now left | intros [H | ->]; assumption].
  - rewrite in_app_iff. simpl. intuition.
Qed.

Lemma In_fold_add (solns : list Line) (i : nat) (acc : ColorSet) (c : option Z) :
  In c (fold_left (fun colorSet soln => add colorSet (nth_error soln i)) solns acc)
  <-> In c acc \/ exists soln, In soln solns /\ nth_error soln i = c.
Proof.
  revert acc. induction solns as [|l solns IH]; simpl; intro acc.
  - split; [now left | intros [H | [? [[] _]]]; assumption].
  - rewrite IH, In_add. split.
    + intros [[H | ->] | [r [Hr E]]]; [now left | right | right].
      * exists l. auto.
      * exists r. auto.
    + intros [H | [r [[<- | Hr] E]]]; [now left; left | left; right | right].
      * now symmetry.
      * exists r. auto.
Qed.

(** The colours a candidate set allows at a cell are exactly the values
    its candidates take there. *)
Lemma In_getPossibleColors (solns : list Line) (i : nat) (c : option Z) :
  In c (getPossibleColors solns i)
  <-> exists soln, In soln solns /\ nth_error soln i = c.
Proof.
  unfold getPossibleColors. rewrite In_fold_add. simpl. tauto.
Qed.

Lemma In_intersection (s o : ColorSet) (c : option Z) :
  In c (intersection s o) <-> In c s /\ In c o.
Proof.
  unfold intersection. rewrite filter_In, has_true. tauto.
Qed.

Lemma pruneByColors_fst (solns : list Line) (allowed : ColorSet) (i : nat) :
  fst (pruneByColors solns allowed i)
  = filter (fun soln => has allowed (nth_error soln i)) solns.
Proof. reflexivity. Qed.

Lemma pruneByColors_fixed (solns : list Line) (allowed : ColorSet) (i : nat) :
  (forall soln, In soln solns -> In (nth_error soln i) allowed) ->
  pruneByColors solns allowed i = (solns, 0%Z).
Proof.
  intro H. unfold pruneByColors. cbv zeta. rewrite filter_all.
  - now rewrite Z.sub_diag.
  - intros a Ha. apply has_true. now apply H.
Qed.

(** One mutual pruning at an intersection leaves both candidate sets
    allowing the same colours there: the combined set. *)
Lemma arc_colors_after (colLines rowLines : list Line) (x y : nat) :
  let combined := intersection (getPossibleColors colLines x)
                               (getPossibleColors rowLines y) in
  let colSolns := fst (pruneByColors colLines combined x) in
  let rowSolns := fst (pruneByColors rowLines combined y) in
  forall c, In c combined ->
    In c (intersection (getPossibleColors colSolns x)
                       (getPossibleColors rowSolns y)).
Proof.
  intros combined colSolns rowSolns c Hc.
  pose proof Hc as Hc'. apply In_intersection in Hc' as [Hcol Hrow].
  apply In_getPossibleColors in Hcol as [cl [Hcl Ecl]].
  apply In_getPossibleColors in Hrow as [rl [Hrl Erl]].
  apply In_intersection. split; apply In_getPossibleColors.
  - exists cl. split; [|assumption].
    unfold colSolns. rewrite pruneByColors_fst. apply filter_In.
    split; [assumption|]. apply has_true. now rewrite Ecl.
  - exists rl. split; [|assumption].
    unfold rowSolns. rewrite pruneByColors_fst. apply filter_In.
    split; [assumption|]. apply has_true. now rewrite Erl.
Qed.

Lemma lookup_setSolns_same (k : nat) (solns old : list Line) (m : SolutionMap) :
  lookup k m = Some old -> lookup k (setSolns k solns m) = Some solns.
Proof.
  unfold lookup, setSolns. induction m as [|[k' v] m IH]; simpl; [discriminate|].
  destruct (Nat.eqb k' k) eqn:E; simpl.
  - intros _. now rewrite Nat.eqb_refl.
  - rewrite E. exact IH.
Qed.

Lemma setSolns_twice (k : nat) (solns : list Line) (m : SolutionMap) :
  setSolns k solns (setSolns k solns m) = setSolns k solns m.
Proof.
  unfold setSolns. rewrite map_map. apply map_ext. intros [k' v]. simpl.
  destruct (Nat.eqb k' k) eqn:E; simpl.
  - now rewrite Nat.eqb_refl.
  - now rewrite E.
Qed.

End Pruning.

(** C9. Each pruning operation ([pruneByMoves], [pruneByColors]) returns a
    sub-list of its input candidate set (the input filtered by a test on
    single candidates): no candidate is added, the size does not increase,
    and the returned removal count is the input size minus the output
    size. *)
Theorem prune_returns_subset :
  forall (dim : Dim) (solns : list Line) (moves : list Move)
         (allowedColors : ColorSet) (i : nat),
    let byMoves := pruneByMoves dim solns moves in
    let byColors := pruneByColors solns allowedColors i in
    ((exists keep, fst byMoves = filter keep solns)
     /\ incl (fst byMoves) solns
     /\ length (fst byMoves) <= length solns
     /\ snd byMoves = (Z.of_nat (length solns) - Z.of_nat (length (fst byMoves)))%Z
     /\ (0 <= snd byMoves)%Z)
    /\
    ((exists keep, fst byColors = filter keep solns)
     /\ incl (fst byColors) solns
     /\ length (fst byColors) <= length solns
     /\ snd byColors = (Z.of_nat (length solns) - Z.of_nat (length (fst byColors)))%Z
     /\ (0 <= snd byColors)%Z).
Proof.
  intros dim solns moves allowedColors i. cbv zeta.
  unfold pruneByMoves, pruneByColors. cbv zeta. cbn [fst snd].
  split.
  - split; [eexists; reflexivity|].
    split; [apply incl_filter|].
    match goal with |- length (filter ?f _) <= _ /\ _ =>
      pose proof (filter_length_le f solns) as Hle end.
    split; [exact Hle|]. split; [reflexivity | lia].
  - split; [eexists; reflexivity|].
    split; [apply incl_filter|].
    match goal with |- length (filter ?f _) <= _ /\ _ =>
      pose proof (filter_length_le f solns) as Hle end.
    split; [exact Hle|]. split; [reflexivity | lia].
Qed.

(** C8. Mutual arc-consistency pruning is idempotent at an intersection:
    after one pass that filters a column candidate set and a row candidate
    set to the colours both allow at cell (x, y), the same pruning run
    again at that cell returns both sets unchanged with removal count 0;
    on the solver's maps, a second [arcCell] at the same cell changes
    neither the maps nor the pruned count. *)
Theorem arc_pruning_idempotent :
  forall (colLines rowLines : list Line) (x y : nat),
    let combined := intersection (getPossibleColors colLines x)
                                 (getPossibleColors rowLines y) in
    let colSolns := fst (pruneByColors colLines combined x) in
    let rowSolns := fst (pruneByColors rowLines combined y) in
    let combined' := intersection (getPossibleColors colSolns x)
                                  (getPossibleColors rowSolns y) in
    pruneByColors colSolns combined' x = (colSolns, 0%Z)
    /\ pruneByColors rowSolns combined' y = (rowSolns, 0%Z)
    /\ forall st st1, arcCell x y st = Ok st1 -> arcCell x y st1 = Ok st1.
Proof.
  intros colLines rowLines x y combined colSolns rowSolns combined'.
  assert (Hgen : forall cl rl,
    let cb := intersection (getPossibleColors cl x) (getPossibleColors rl y) in
    let cs := fst (pruneByColors cl cb x) in
    let rs := fst (pruneByColors rl cb y) in
    let cb' := intersection (getPossibleColors cs x) (getPossibleColors rs y) in
    pruneByColors cs cb' x = (cs, 0%Z) /\ pruneByColors rs cb' y = (rs, 0%Z)).
  { intros cl rl cb cs rs cb'. split; apply pruneByColors_fixed; intros soln Hs.
    - unfold cs in Hs. rewrite pruneByColors_fst in Hs.
      apply filter_In in Hs as [_ Hs]. apply has_true in Hs.
      now apply arc_colors_after.
    - unfold rs in Hs. rewrite pruneByColors_fst in Hs.
      apply filter_In in Hs as [_ Hs]. apply has_true in Hs.
      now apply arc_colors_after. }
  destruct (Hgen colLines rowLines) as [H1 H2].
  split; [exact H1|]. split; [exact H2|].
  intros [[rm cm] p] st1. unfold arcCell.
  destruct (lookup y cm) as [cl|] eqn:Ec; [|discriminate].
  destruct (lookup x rm) as [rl|] eqn:Er; [|discriminate].
  destruct (Hgen cl rl) as [G1 G2]. cbv zeta in G1, G2.
  unfold pruneByColors at 1 2. intro H. injection H as <-.
  rewrite (@lookup_setSolns_same _ _ _ _ Ec), (@lookup_setSolns_same _ _ _ _ Er).
  change (filter (fun soln => has ?a (nth_error soln ?i)) ?l)
    with (fst (pruneByColors l a i)).
  rewrite G1, G2. rewrite !setSolns_twice. do 2 f_equal. lia.
Qed.

Lemma arc_pruning_idempotent_witness :
  arcCell 0 0 ([(0, [[1; -1]; [-1; 1]]%Z)], [(0, [[1; 1]]%Z)], 0%Z)
  = Ok ([(0, [[1; -1]]%Z)], [(0, [[1; 1]]%Z)], 1%Z)
  /\ arcCell 0 0 ([(0, [[1; -1]]%Z)], [(0, [[1; 1]]%Z)], 1%Z)
     = Ok ([(0, [[1; -1]]%Z)], [(0, [[1; 1]]%Z)], 1%Z).
Proof.
  split; [reflexivity|].
  apply (proj2 (proj2 (arc_pruning_idempotent [] [] 0 0))
           ([(0, [[1; -1]; [-1; 1]]%Z)], [(0, [[1; 1]]%Z)], 0%Z)).
  reflexivity.
Defined.

(* ================================================================== *)
(** ** The board is written at unknown cells only *)
(* ================================================================== *)

Section Frame.

Lemma nth_error_setAt {T : Type} (f : T -> T) (l : list T) (i j : nat) :
  nth_error (setAt l i f) j
  = if Nat.eqb i j then option_map f (nth_error l j) else nth_error l j.
Proof.
  revert i j. induction l as [|h t IH]; intros [|i] [|j]; simpl; try reflexivity.
  - now destruct (Nat.eqb i j).
  - apply IH.
Qed.

Lemma cellAt_setCell (b : Board) (x0 y0 x1 y1 : nat) (v : Z) :
  cellAt (setCell b x0 y0 v) x1 y1
  = if Nat.eqb x0 x1 && Nat.eqb y0 y1
    then option_map (fun _ => v) (cellAt b x1 y1)
    else cellAt b x1 y1.
Proof.
  unfold cellAt, setCell. rewrite nth_error_setAt.
  destruct (Nat.eqb x0 x1); simpl; [|reflexivity].
  destruct (nth_error b x1) as [r|]; simpl.
  - rewrite nth_error_setAt. now destruct (Nat.eqb y0 y1).
  - now destruct (Nat.eqb y0 y1).
Qed.

Lemma writesZeroOnly_app (b b1 b2 : Board) (ms ms' : list Move) :
  writesZeroOnly b ms b1 -> writesZeroOnly b1 ms' b2 ->
  writesZeroOnly b (ms ++ ms') b2.
Proof.
  induction 1 as [b | b m ms b1 Hz _ IH]; simpl; intro H2; [assumption|].
  apply wz_write; auto.
Qed.

(** A non-zero cell survives every write at a zero cell. *)
Lemma writesZeroOnly_frame (b b' : Board) (ms : list Move) :
  writesZeroOnly b ms b' ->
  forall x0 y0 v, cellAt b x0 y0 = Some v -> v <> 0%Z -> cellAt b' x0 y0 = Some v.
Proof.
  induction 1 as [b | b m ms b' Hz _ IH]; intros x0 y0 v Hv Hnz; [assumption|].
  apply IH; [|assumption]. rewrite cellAt_setCell.
  destruct (Nat.eqb (x (tile m)) x0 && Nat.eqb (y (tile m)) y0) eqn:E; [|assumption].
  apply andb_true_iff in E as [Ex Ey].
  apply Nat.eqb_eq in Ex, Ey. subst. congruence.
Qed.

Lemma respectsFrame_lift {A : Type} (r : Res A) : respectsFrame (liftG r).
Proof. intro b. apply wz_done. Qed.

Lemma respectsFrame_bind {A B : Type} (g : Gen A) (k : A -> Gen B) :
  respectsFrame g -> (forall a, respectsFrame (k a)) -> respectsFrame (bindG g k).
Proof.
  intros Hg Hk b. unfold bindG. specialize (Hg b).
  destruct (g b) as [[b1 ms] [a | e]]; simpl in *; [|assumption].
  specialize (Hk a b1). destruct (k a b1) as [[b2 ms'] r]; simpl in *.
  eapply writesZeroOnly_app; eassumption.
Qed.

Lemma respectsFrame_yieldMoves (moves : list Move) : respectsFrame (yieldMoves moves).
Proof.
  induction moves as [|m rest IH]; intro b; simpl; [apply wz_done|].
  destruct (nth_error b (x (tile m))) as [r|] eqn:Er; [|apply wz_done].
  destruct (nth_error r (y (tile m))) as [[| |]|] eqn:Ec; try apply IH.
  specialize (IH (setCell b (x (tile m)) (y (tile m)) (next m))).
  destruct (yieldMoves rest _) as [[b' ms] res]; simpl in *.
  apply wz_write; [|assumption]. unfold cellAt. now rewrite Er.
Qed.

Lemma respectsFrame_round (s : Store) : respectsFrame (round s).
Proof.
  unfold round.
  repeat (apply respectsFrame_bind; [|intro]);
    auto using respectsFrame_lift, respectsFrame_yieldMoves.
Qed.

Lemma loop_frame (fuel : nat) (s : Store) (b : Board) :
  writesZeroOnly b (snd (fst (loop fuel s b))) (fst (fst (loop fuel s b))).
Proof.
  revert s b. induction fuel as [|fuel IH]; intros s b; simpl.
  - destruct (_ || _); apply wz_done.
  - destruct (_ || _); [apply wz_done|].
    pose proof (respectsFrame_round s b) as Hr.
    destruct (round s b) as [[b1 ms] [s' | e]]; simpl in *; [|assumption].
    specialize (IH s' b1). destruct (loop fuel s' b1) as [[b2 ms'] out]; simpl in *.
    eapply writesZeroOnly_app; eassumption.
Qed.

End Frame.

(** C10. generateMoves writes to the board only at cells whose current
    value is 0, each write being the one of the move it then yields: the
    final board is the given board after the yielded moves were written
    in order, each at a cell holding 0 at that time; hence every cell of a
    caller-supplied board that holds a non-zero value keeps it for the
    whole run.  The statement is for every round budget, the one of
    [generateMoves] included. *)
Theorem generateMoves_writes_zero_cells_only :
  forall (fuel : nat) (rules : Rules) (board0 : Board),
    let run := generateMovesFuel fuel rules board0 in
    writesZeroOnly board0 (snd (fst run)) (fst (fst run))
    /\ forall x0 y0 v, cellAt board0 x0 y0 = Some v -> v <> 0%Z ->
                       cellAt (fst (fst run)) x0 y0 = Some v.
Proof.
  intros fuel rules board0 run.
  assert (H : writesZeroOnly board0 (snd (fst run)) (fst (fst run)))
    by apply loop_frame.
  split; [exact H|].
  intros x0 y0 v Hv Hnz. eapply writesZeroOnly_frame; eassumption.
Qed.


Lemma generateMoves_writes_zero_cells_only_witness :
  cellAt [[5; 0]; [0; 0]]%Z 0 0 = Some 5%Z
  /\ cellAt (fst (fst (generateMoves
                         {| column := [[R 1 1]; []]; row := [[R 1 1]; []] |}
                         [[5; 0]; [0; 0]]%Z))) 0 0 = Some 5%Z.
Proof.
  split; [reflexivity|].
  apply (generateMoves_writes_zero_cells_only
           (S (mass (initialStore {| column := [[R 1 1]; []]; row := [[R 1 1]; []] |})))
           {| column := [[R 1 1]; []]; row := [[R 1 1]; []] |}
           [[5; 0]; [0; 0]]%Z).
  - reflexivity.
  - discriminate.
Defined.

(* ================================================================== *)
(** ** Termination: the candidate mass *)
(* ================================================================== *)

Section Termination.

Lemma pruneRows_pruneLines colMoves colMap todo m cnt p :
  pruneRows colMoves colMap todo m cnt p
  = pruneLines (fun k solns => pruneRowByMoves solns (movesForRow k colMoves))
               (fun k rowMap => Thrown (newSolveError (RowHasNoSolutions k) rowMap colMap))
               todo m cnt p.
Proof.
  revert m cnt p. induction todo as [|[k solns] rest IH]; intros; simpl; [reflexivity|].
  destruct (isLineSolved solns); [apply IH|].
  destruct (isLineConflict solns); [reflexivity|].
  destruct (pruneRowByMoves solns (movesForRow k colMoves)). apply IH.
Qed.

Lemma pruneCols_pruneLines rowMoves rowMap todo m cnt p :
  pruneCols rowMoves rowMap todo m cnt p
  = pruneLines (fun k solns => pruneColByMoves solns (movesForCol k rowMoves))
               (fun k colMap => Thrown (newSolveError (ColumnHasNoSolutions k) rowMap colMap))
               todo m cnt p.
Proof.
  revert m cnt p. induction todo as [|[k solns] rest IH]; intros; simpl; [reflexivity|].
  destruct (isLineSolved solns); [apply IH|].
  destruct (isLineConflict solns); [reflexivity|].
  destruct (pruneColByMoves solns (movesForCol k rowMoves)). apply IH.
Qed.

Lemma mapMass_app (m1 m2 : SolutionMap) :
  mapMass (m1 ++ m2) = mapMass m1 + mapMass m2.
Proof. induction m1 as [|e m1 IH]; simpl; [reflexivity | lia]. Qed.

Lemma keys_app (m1 m2 : SolutionMap) :
  utils.keys (m1 ++ m2) = utils.keys m1 ++ utils.keys m2.
Proof. apply map_app. Qed.

Lemma deleteKey_absent (k : nat) (m : SolutionMap) :
  ~ In k (utils.keys m) -> deleteKey k m = m.
Proof.
  intro H. unfold deleteKey. apply filter_all. intros [k' v] Hin.
  simpl. destruct (Nat.eqb_spec k' k) as [-> | _]; [|reflexivity].
  exfalso. apply H. unfold utils.keys. now apply (in_map fst) in Hin.
Qed.

Lemma setSolns_absent (k : nat) (solns : list Line) (m : SolutionMap) :
  ~ In k (utils.keys m) -> setSolns k solns m = m.
Proof.
  intro H. unfold setSolns. rewrite <- (map_id m) at 2. apply map_ext_in.
  intros [k' v] Hin. simpl. destruct (Nat.eqb_spec k' k) as [-> | _]; [|reflexivity].
  exfalso. apply H. unfold utils.keys. now apply (in_map fst) in Hin.
Qed.

(** In a map with distinct keys, deleting or updating the key of an
    entry touches that entry only. *)
Lemma deleteKey_middle (k : nat) (v : list Line) (m1 m2 : SolutionMap) :
  NoDup (utils.keys (m1 ++ (k, v) :: m2)) ->
  deleteKey k (m1 ++ (k, v) :: m2) = m1 ++ m2.
Proof.
  intro H. rewrite keys_app in H. simpl in H.
  pose proof (NoDup_remove_2 _ _ _ H) as Hn. rewrite in_app_iff in Hn.
  unfold deleteKey. rewrite filter_app. simpl. rewrite Nat.eqb_refl. simpl.
  fold (deleteKey k m1). fold (deleteKey k m2).
  rewrite !deleteKey_absent; tauto.
Qed.

Lemma setSolns_middle (k : nat) (v v' : list Line) (m1 m2 : SolutionMap) :
  NoDup (utils.keys (m1 ++ (k, v) :: m2)) ->
  setSolns k v' (m1 ++ (k, v) :: m2) = m1 ++ (k, v') :: m2.
Proof.
  intro H. rewrite keys_app in H. simpl in H.
  pose proof (NoDup_remove_2 _ _ _ H) as Hn. rewrite in_app_iff in Hn.
  unfold setSolns. rewrite map_app. simpl. rewrite Nat.eqb_refl.
  fold (setSolns k v' m1). fold (setSolns k v' m2).
  rewrite !setSolns_absent; tauto.
Qed.

Lemma lookup_split (k : nat) (v : list Line) (m : SolutionMap) :
  lookup k m = Some v -> exists m1 m2, m = m1 ++ (k, v) :: m2.
Proof.
  unfold lookup. induction m as [|[k' v'] m IH]; simpl; [discriminate|].
  destruct (Nat.eqb_spec k' k) as [-> | Hne]; simpl.
  - intro H. injection H as ->. now exists [], m.
  - intro H. destruct (IH H) as [m1 [m2 ->]]. now exists ((k', v') :: m1), m2.
Qed.

Variable pruneOne : nat -> list Line -> PruneResult.
Variable err : nat -> SolutionMap -> Exn.
Hypothesis pruneOne_filter :
  forall k solns, exists keep,
    pruneOne k solns
    = (filter keep solns,
       (Z.of_nat (length solns) - Z.of_nat (length (filter keep solns)))%Z).

(** The line loop keeps the keys distinct, never adds one, and removes
    at least as much mass as it counts in [prunedCount]. *)
Lemma pruneLines_mass (todo done : SolutionMap) (cnt p : Z)
    (m' : SolutionMap) (cnt' p' : Z) :
  NoDup (utils.keys (done ++ todo)) ->
  pruneLines pruneOne err todo (done ++ todo) cnt p = Ok (m', cnt', p') ->
  NoDup (utils.keys m')
  /\ (p <= p')%Z
  /\ (Z.of_nat (mapMass m') + (p' - p) <= Z.of_nat (mapMass (done ++ todo)))%Z.
Proof.
  revert done cnt p. induction todo as [|[k solns] rest IH]; intros done cnt p Hnd; simpl.
  - intro H. injection H as <- <- <-. repeat split; [assumption | lia | lia].
  - destruct (isLineSolved solns) eqn:Es.
    + rewrite deleteKey_middle by assumption. intro H.
      assert (Hnd' : NoDup (utils.keys (done ++ rest))).
      { rewrite keys_app in *. simpl in Hnd. eapply NoDup_remove_1; eassumption. }
      destruct (IH _ _ _ Hnd' H) as [H1 [H2 H3]].
      split; [assumption|]. split; [lia|].
      rewrite mapMass_app in *. simpl. lia.
    + destruct (isLineConflict solns); [discriminate|].
      destruct (pruneOne_filter k solns) as [keep ->].
      rewrite setSolns_middle by assumption.
      change (done ++ (k, filter keep solns) :: rest)
        with (done ++ [(k, filter keep solns)] ++ rest).
      rewrite app_assoc. intro H.
      assert (Hnd' : NoDup (utils.keys ((done ++ [(k, filter keep solns)]) ++ rest))).
      { rewrite <- app_assoc. rewrite keys_app in *. exact Hnd. }
      destruct (IH _ _ _ Hnd' H) as [H1 [H2 H3]].
      pose proof (filter_length_le keep solns) as Hle.
      split; [assumption|]. split; [lia|].
      rewrite !mapMass_app in *. simpl in *. lia.
Qed.

End Termination.

Section TerminationLoop.

Lemma keys_setSolns (k : nat) (solns : list Line) (m : SolutionMap) :
  utils.keys (setSolns k solns m) = utils.keys m.
Proof.
  unfold utils.keys, setSolns. rewrite map_map. apply map_ext.
  intros [k' v]. simpl. now destruct (Nat.eqb_spec k' k) as [-> | _].
Qed.

Lemma mapMass_setSolns (k : nat) (old new : list Line) (m : SolutionMap) :
  NoDup (utils.keys m) -> lookup k m = Some old ->
  mapMass (setSolns k new m) + length old = mapMass m + length new.
Proof.
  intros Hnd Hl. destruct (lookup_split _ _ _ Hl) as [m1 [m2 ->]].
  rewrite setSolns_middle by assumption. rewrite !mapMass_app. simpl. lia.
Qed.

Lemma forEachR_inv {A S : Type} (I : S -> Prop) (body : A -> S -> Res S)
    (arr : list A) :
  (forall a st st', I st -> body a st = Ok st' -> I st') ->
  forall st st', I st -> forEachR body arr st = Ok st' -> I st'.
Proof.
  intro Hb. induction arr as [|a arr IH]; simpl; intros st st' Hi H.
  - injection H as <-. assumption.
  - destruct (body a st) as [st1 | e] eqn:E; simpl in H; [|discriminate].
    eapply IH; [|eassumption]. eapply Hb; eassumption.
Qed.

Lemma arcCell_inv (M : Z) (x0 y0 : nat) st st' :
  arcInv M st -> arcCell x0 y0 st = Ok st' -> arcInv M st'.
Proof.
  destruct st as [[rm cm] p]. unfold arcCell, arcInv.
  intros (Hr & Hc & Hp & HM).
  destruct (lookup y0 cm) as [cl|] eqn:Ec; [|discriminate].
  destruct (lookup x0 rm) as [rl|] eqn:Er; [|discriminate].
  unfold pruneByColors. cbv zeta. intro H. injection H as <-.
  rewrite !keys_setSolns.
  match goal with |- context [setSolns x0 (filter ?f rl) rm] =>
    pose proof (filter_length_le f rl) as Hlr;
    pose proof (mapMass_setSolns x0 rl (filter f rl) rm Hr Er) as Hmr end.
  match goal with |- context [setSolns y0 (filter ?f cl) cm] =>
    pose proof (filter_length_le f cl) as Hlc;
    pose proof (mapMass_setSolns y0 cl (filter f cl) cm Hc Ec) as Hmc end.
  repeat split; try assumption; lia.
Qed.

Lemma arcPass_inv (M : Z) (xs ys : list nat) st st' :
  arcInv M st -> arcPass xs ys st = Ok st' -> arcInv M st'.
Proof.
  unfold arcPass. apply forEachR_inv. intros x0 st1 st2.
  apply forEachR_inv. intros y0. apply arcCell_inv.
Qed.

Lemma pruneByMoves_filter (dim : Dim) (solns : list Line) (moves : list Move) :
  exists keep,
    pruneByMoves dim solns moves
    = (filter keep solns,
       (Z.of_nat (length solns) - Z.of_nat (length (filter keep solns)))%Z).
Proof. eexists. reflexivity. Qed.

Lemma bindG_Ok {A B : Type} (g : Gen A) (k : A -> Gen B) b b' ms (r : B) :
  bindG g k b = (b', ms, Ok r) ->
  exists b1 ms1 a ms2,
    g b = (b1, ms1, Ok a) /\ k a b1 = (b', ms2, Ok r) /\ ms = ms1 ++ ms2.
Proof.
  unfold bindG. destruct (g b) as [[b1 ms1] [a | e]]; [|discriminate].
  destruct (k a b1) as [[b2 ms2] r2] eqn:E. intro H. injection H as <- <- ->.
  exists b1, ms1, a, ms2. auto.
Qed.

Lemma liftG_Ok {A : Type} (r : Res A) b b' ms (a : A) :
  liftG r b = (b', ms, Ok a) -> r = Ok a /\ b' = b /\ ms = [].
Proof. unfold liftG. intro H. injection H as <- <- ->. auto. Qed.

(** A round that does not throw found its moves, yielded them and ended
    with the pruning phases. *)
Lemma round_Ok (s s' : Store) b b' ms :
  round s b = (b', ms, Ok s') ->
  exists rowMoves colMoves b1 ys1 ys2,
    flatMapR (fun row => findMovesFromRow (fst row) (utils.keys (colMap s)) (snd row))
             (utils.values (rowMap s)) = Ok rowMoves
    /\ flatMapR (fun col => findMovesFromCol (fst col) (utils.keys (rowMap s)) (snd col))
                (utils.values (colMap s)) = Ok colMoves
    /\ yieldMoves rowMoves b = (b1, ys1, Ok tt)
    /\ yieldMoves colMoves b1 = (b', ys2, Ok tt)
    /\ ms = ys1 ++ ys2
    /\ pruneStore s rowMoves colMoves = Ok s'.
Proof.
  unfold round. intro H.
  apply bindG_Ok in H as (b1 & ms1 & rowMoves & ms2 & H1 & H & ->).
  apply liftG_Ok in H1 as (H1 & -> & ->).
  apply bindG_Ok in H as (b2 & ms3 & colMoves & ms4 & H2 & H & ->).
  apply liftG_Ok in H2 as (H2 & -> & ->).
  apply bindG_Ok in H as (b3 & ms5 & [] & ms6 & H3 & H & ->).
  apply bindG_Ok in H as (b4 & ms7 & [] & ms8 & H4 & H & ->).
  apply liftG_Ok in H as (H & -> & ->).
  exists rowMoves, colMoves, b3, ms5, ms7. simpl. rewrite app_nil_r.
  repeat split; assumption.
Qed.

(** Every round that continues strictly decreases the candidate mass
    (and keeps the keys distinct). *)
Lemma pruneStore_mass (s s' : Store) rowMoves colMoves :
  storeKeysDistinct s -> pruneStore s rowMoves colMoves = Ok s' ->
  storeKeysDistinct s' /\ mass s' < mass s.
Proof.
  intros [Hr Hc]. unfold pruneStore, utils.values.
  rewrite pruneRows_pruneLines.
  destruct (pruneLines _ _ (rowMap s) (rowMap s) _ _) as [[[rm1 rc1] p1] | e] eqn:E1;
    simpl; [|discriminate].
  rewrite pruneCols_pruneLines.
  destruct (pruneLines _ _ (colMap s) (colMap s) _ _) as [[[cm1 cc1] p2] | e] eqn:E2;
    simpl; [|discriminate].
  apply (pruneLines_mass _ _ (fun k solns => pruneByMoves_filter DimY solns _)
           (rowMap s) [] _ _ _ _ _ Hr) in E1 as (Hr1 & Hp1 & Hm1).
  apply (pruneLines_mass _ _ (fun k solns => pruneByMoves_filter DimX solns _)
           (colMap s) [] _ _ _ _ _ Hc) in E2 as (Hc1 & Hp2 & Hm2).
  simpl in Hm1, Hm2. unfold mass, storeKeysDistinct.
  destruct (Z.gtb_spec p2 0) as [Hgt | Hle].
  - intro H. injection H as <-. simpl. split; [auto | lia].
  - destruct (arcPass _ _ _) as [[[rm2 cm2] p3] | e] eqn:E3; simpl; [|discriminate].
    assert (Hi : arcInv (Z.of_nat (mapMass (rowMap s) + mapMass (colMap s)))
                        (rm1, cm1, p2)).
    { unfold arcInv. repeat split; try assumption; lia. }
    apply (arcPass_inv _ _ _ _ _ Hi) in E3. destruct E3 as (Hr2 & Hc2 & Hp3 & Hm3).
    destruct (Z.eqb_spec p3 0) as [-> | Hne]; [discriminate|].
    intro H. injection H as <-. simpl. split; [auto | lia].
Qed.

Lemma round_pruneStore (s : Store) b b' ms (r : Res Store) :
  round s b = (b', ms, r) ->
  forall s', r = Ok s' -> storeKeysDistinct s ->
             storeKeysDistinct s' /\ mass s' < mass s.
Proof.
  intros H s' -> Hk.
  apply round_Ok in H as (rm & cm & b1 & ys1 & ys2 & _ & _ & _ & _ & _ & H).
  eapply pruneStore_mass; eassumption.
Qed.

(** With a budget above the mass, the loop ends by itself. *)
Lemma loop_terminates (fuel : nat) (s : Store) (b : Board) :
  storeKeysDistinct s -> mass s < fuel ->
  snd (loop fuel s b) <> OutOfFuel.
Proof.
  revert s b. induction fuel as [|fuel IH]; intros s b Hk Hm; [lia|].
  simpl. destruct (_ || _); [discriminate|].
  destruct (round s b) as [[b1 ms] [s' | e]] eqn:E; [|discriminate].
  destruct (round_pruneStore _ _ _ _ _ E _ eq_refl Hk) as [Hk' Hm'].
  specialize (IH s' b1 Hk'). destruct (loop fuel s' b1) as [[b2 ms'] out].
  simpl in *. apply IH. lia.
Qed.

(** A larger budget does not change a run that ended by itself. *)
Lemma loop_more_fuel (fuel fuel' : nat) (s : Store) (b : Board) :
  snd (loop fuel s b) <> OutOfFuel -> fuel <= fuel' ->
  loop fuel' s b = loop fuel s b.
Proof.
  revert fuel' s b. induction fuel as [|fuel IH]; intros fuel' s b Hne Hle.
  - simpl in *. destruct fuel'; simpl; destruct (_ || _); try reflexivity;
      now exfalso.
  - destruct fuel' as [|fuel']; [lia|]. simpl in *.
    destruct (_ || _); [reflexivity|].
    destruct (round s b) as [[b1 ms] [s' | e]]; [|reflexivity].
    rewrite (IH fuel' s' b1); [reflexivity | | lia].
    destruct (loop fuel s' b1) as [[b2 ms'] out]. exact Hne.
Qed.

Lemma map_fst_combine {A B : Type} (l : list A) (l' : list B) :
  length l = length l' -> map fst (combine l l') = l.
Proof.
  revert l'. induction l as [|a l IH]; intros [|b l']; simpl; intro H;
    try discriminate; [reflexivity|].
  f_equal. apply IH. now injection H.
Qed.

Lemma NoDup_keys_mapi {A : Type} (f : A -> nat -> list Line) (l : list A) :
  utils.keys (mapi (fun a i => (i, f a i)) l) = seq 0 (length l).
Proof.
  unfold utils.keys, mapi. rewrite map_map. simpl.
  rewrite <- (map_map fst (fun i => i)), map_id.
  apply map_fst_combine. now rewrite length_seq.
Qed.

Lemma initialStore_keysDistinct (rules : Rules) :
  storeKeysDistinct (initialStore rules).
Proof.
  unfold storeKeysDistinct, initialStore. simpl.
  rewrite !NoDup_keys_mapi. split; apply seq_NoDup.
Qed.

End TerminationLoop.


(* ================================================================== *)
(** ** Combinations: what [utils.choose] enumerates *)
(* ================================================================== *)

Section Combinations.

Lemma map_add_seq (start k : nat) :
  map (fun i => start + i) (seq 0 k) = seq start k.
Proof.
  revert start. induction k as [|k IH]; intro start; simpl; [reflexivity|].
  rewrite Nat.add_0_r. f_equal. rewrite <- (IH (S start)).
  rewrite <- (seq_shift k 0), map_map. apply map_ext. intro i. lia.
Qed.

Lemma combs_at_max (max pick : nat) : combs max (S pick) max = [].
Proof. simpl. now rewrite Nat.sub_diag. Qed.

(** For [pick >= 1], [choose] is the enumeration [combs]. *)
Lemma choose_combs (max : Z) (pick start : nat) :
  utils.choose max (S pick) start = combs (Z.to_nat max) (S pick) start.
Proof.
  revert start. induction pick as [|pick IH]; intro start.
  - simpl. unfold utils.count.
    replace (Z.to_nat (Z.max (max - Z.of_nat start) 0))
      with (Z.to_nat max - start) by lia.
    rewrite <- (map_add_seq start). rewrite flat_map_concat_map, map_map.
    rewrite <- flat_map_concat_map.
    induction (seq 0 (Z.to_nat max - start)) as [|i l IHl]; simpl; congruence.
  - change (utils.choose max (S (S pick)) start)
      with (flat_map (fun i => map (fun subCombo => i :: subCombo)
                                   (utils.choose max (S pick) (i + 1)))
                     (utils.forRange start (max - 1))).
    change (combs (Z.to_nat max) (S (S pick)) start)
      with (flat_map (fun i => map (cons i) (combs (Z.to_nat max) (S pick) (S i)))
                     (seq start (Z.to_nat max - start))).
    unfold utils.forRange.
    replace (Z.to_nat (max - 1 - Z.of_nat start))
      with (Z.to_nat max - start - 1) by lia.
    destruct (Z.to_nat max - start) as [|d] eqn:Ed; [reflexivity|].
    replace (S d - 1) with d by lia.
    rewrite seq_S, flat_map_app. cbn [flat_map].
    replace (S (start + d)) with (Z.to_nat max) by lia.
    rewrite combs_at_max. cbn [map app]. rewrite app_nil_r.
    apply flat_map_ext. intro i. rewrite IH. now rewrite Nat.add_1_r.
Qed.

(** The number of combinations is the binomial coefficient. *)
Lemma length_combs (max pick start : nat) :
  length (combs max pick start) = binom (max - start) pick.
Proof.
  revert start. induction pick as [|pick IH]; intro start.
  - simpl. now destruct (max - start).
  - simpl combs.
    remember (max - start) as d eqn:Ed. revert start Ed.
    induction d as [|d IHd]; intros start Ed; [reflexivity|].
    simpl. rewrite length_app, length_map, IH, (IHd (S start)) by lia.
    replace (max - S start) with d by lia. reflexivity.
Qed.

Lemma increasingFrom_bound (lo max : nat) (a : list nat) :
  increasingFrom lo max a -> lo + length a <= max.
Proof.
  revert lo. induction a as [|s a IH]; simpl; intro lo; [lia|].
  intros [H1 H2]. apply IH in H2. lia.
Qed.

(** [combs] enumerates exactly the increasing choices of slots. *)
Lemma In_combs (max pick start : nat) (a : list nat) :
  start <= max ->
  (In a (combs max pick start)
   <-> length a = pick /\ increasingFrom start max a).
Proof.
  revert start a. induction pick as [|pick IH]; intros start a Hle.
  - simpl. split.
    + intros [<- | []]. simpl. auto.
    + intros [H _]. left. symmetry. now apply length_zero_iff_nil.
  - simpl combs. rewrite in_flat_map. split.
    + intros [i [Hi Ha]]. apply in_seq in Hi. apply in_map_iff in Ha as [a' [<- Ha']].
      apply IH in Ha' as [Hl Hinc]; [|lia]. simpl.
      repeat split; [lia | lia | assumption].
    + destruct a as [|s a']; simpl; [intros [H _]; discriminate|].
      intros [Hl [Hlo Hinc]]. pose proof (increasingFrom_bound _ _ _ Hinc) as Hb.
      exists s. split; [apply in_seq; lia|].
      apply in_map. apply IH; [lia|]. split; [lia | assumption].
Qed.

Lemma lexLt_irrefl (a : list nat) : ~ lexLt a a.
Proof. induction a as [|i a IH]; simpl; [tauto | intuition lia]. Qed.

Lemma StronglySorted_app {A : Type} (Rel : A -> A -> Prop) (l1 l2 : list A) :
  StronglySorted Rel l1 -> StronglySorted Rel l2 ->
  (forall u v, In u l1 -> In v l2 -> Rel u v) ->
  StronglySorted Rel (l1 ++ l2).
Proof.
  induction 1 as [|u l1 Hs IH Hf]; simpl; intros H2 Hc; [assumption|].
  constructor.
  - apply IH; [assumption|]. intros; apply Hc; auto.
  - apply Forall_app. split; [assumption|].
    apply Forall_forall. intros v Hv. apply Hc; auto.
Qed.

Lemma StronglySorted_map_cons (i : nat) (l : list (list nat)) :
  StronglySorted lexLt l -> StronglySorted lexLt (map (cons i) l).
Proof.
  induction 1 as [|a l Hs IH Hf]; simpl; constructor; [assumption|].
  apply Forall_forall. intros b Hb. apply in_map_iff in Hb as [b' [<- Hb']].
  simpl. right. split; [reflexivity|].
  rewrite Forall_forall in Hf. now apply Hf.
Qed.

(** [combs] lists the combinations in strict lexicographic order. *)
Lemma combs_sorted (max pick start : nat) :
  StronglySorted lexLt (combs max pick start).
Proof.
  revert start. induction pick as [|pick IH]; intro start.
  - simpl. repeat constructor.
  - simpl combs. generalize (max - start) as d. intro d. revert start.
    induction d as [|d IHd]; intro start; simpl; [constructor|].
    apply StronglySorted_app.
    + apply StronglySorted_map_cons, IH.
    + apply IHd.
    + intros u v Hu Hv. apply in_map_iff in Hu as [u' [<- _]].
      apply in_flat_map in Hv as [j [Hj Hv]]. apply in_seq in Hj.
      apply in_map_iff in Hv as [v' [<- _]]. simpl. left. lia.
Qed.

Lemma StronglySorted_NoDup {A : Type} (Rel : A -> A -> Prop) (l : list A) :
  (forall u, ~ Rel u u) -> StronglySorted Rel l -> NoDup l.
Proof.
  intro Hirr. induction 1 as [|u l Hs IH Hf]; constructor; [|assumption].
  intro Hin. rewrite Forall_forall in Hf. exact (Hirr u (Hf u Hin)).
Qed.

End Combinations.

(* ================================================================== *)
(** ** Decoding an arrangement into a line *)
(* ================================================================== *)

Section Decoding.

Lemma count_const {T : Type} (n : nat) (c : T) :
  utils.count n (fun _ => c) = repeat c n.
Proof.
  unfold utils.count. generalize 0 as k.
  induction n as [|n IH]; intro k; simpl; [reflexivity | now rewrite IH].
Qed.

Lemma slotCells_Some (t : TaggedEntry) :
  slotCells (Some t)
  = (if same t then [(-1)%Z] else []) ++ repeat (t_val t) (t_count t).
Proof. simpl. rewrite count_const. now destruct (same t). Qed.

Lemma flat_map_slotCells_None (k : nat) :
  flat_map slotCells (repeat None k) = repeat (-1)%Z k.
Proof. induction k as [|k IH]; simpl; [reflexivity | now rewrite IH]. Qed.

(** The tags computed by index are the tags computed left to right. *)
Lemma taggedRule_from (pre rest : Rule) :
  map (fun ir => {| t_count := count (snd ir); t_val := val (snd ir);
                    same := isSameColorAsPrevious (pre ++ rest) (fst ir) |})
      (combine (seq (length pre) (length rest)) rest)
  = tagFrom (option_map val (nth_error pre (length pre - 1))) rest.
Proof.
  revert pre. induction rest as [|r rest IH]; intro pre; simpl; [reflexivity|].
  f_equal.
  - f_equal. unfold isSameColorAsPrevious.
    destruct (length pre) as [|j] eqn:Ej.
    + apply length_zero_iff_nil in Ej. now subst.
    + replace (S j - 1) with j by lia.
      rewrite (nth_error_app1 pre (r :: rest)) by lia.
      rewrite nth_error_app2 by lia. replace (S j - length pre) with 0 by lia.
      simpl. destruct (nth_error pre j) as [p|] eqn:Ep; [reflexivity|].
      apply nth_error_None in Ep. lia.
  - specialize (IH (pre ++ [r])). rewrite <- app_assoc in IH. simpl in IH.
    rewrite length_app in IH. simpl in IH.
    replace (length pre + 1) with (S (length pre)) in IH by lia.
    rewrite IH. f_equal. replace (S (length pre) - 1) with (length pre) by lia.
    rewrite nth_error_app2 by lia. now rewrite Nat.sub_diag.
Qed.

Lemma taggedRule_tagFrom (rule : Rule) : taggedRule rule = tagFrom None rule.
Proof. exact (taggedRule_from [] rule). Qed.

Lemma length_tagFrom (prev : option Z) (rule : Rule) :
  length (tagFrom prev rule) = length rule.
Proof. revert prev. induction rule; intro; simpl; auto. Qed.

Lemma array_set_app_r {T : Type} (pre l : list (option T)) (j : nat) v :
  array_set (pre ++ l) (length pre + j) v = pre ++ array_set l j v.
Proof. induction pre as [|h pre IH]; simpl; [reflexivity | now rewrite IH]. Qed.

Lemma array_set_repeat {T : Type} (n j : nat) (v : option T) :
  j < n ->
  array_set (repeat None n) j v = repeat None j ++ v :: repeat None (n - S j).
Proof.
  revert n. induction j as [|j IH]; intros [|n] H; try lia; simpl.
  - now rewrite Nat.sub_0_r.
  - rewrite IH by lia. reflexivity.
Qed.

Lemma skipn_cons_nth {T : Type} (i : nat) (l : list T) (t : T) (ts : list T) :
  skipn i l = t :: ts -> nth_error l i = Some t /\ skipn (S i) l = ts.
Proof.
  revert l. induction i as [|i IH]; intros [|h l]; simpl; try discriminate.
  - intro H. injection H as -> ->. auto.
  - intro H. apply IH in H. exact H.
Qed.

Variable tagged : list TaggedEntry.
Variable total : nat.

(** Filling the slots of an increasing arrangement and flattening them
    gives the recursive decoding. *)
Lemma fill_decode (a : list nat) (i pos : nat) (pre : list (option TaggedEntry)) :
  increasingFrom pos total a ->
  length a = length (skipn i tagged) ->
  length pre = pos ->
  flat_map slotCells
    (fold_left (fun acc si => array_set acc (snd si) (nth_error tagged (fst si)))
               (combine (seq i (length a)) a)
               (pre ++ repeat None (total - pos)))
  = flat_map slotCells pre ++ decodeFrom pos a (skipn i tagged) total.
Proof.
  revert i pos pre. induction a as [|s a IH]; intros i pos pre Hinc Hlen Hpre.
  - simpl. now rewrite flat_map_app, flat_map_slotCells_None.
  - destruct (skipn i tagged) as [|t ts] eqn:Ets; [discriminate|].
    apply skipn_cons_nth in Ets as [Et Ets].
    destruct Hinc as [Hlo Hinc].
    pose proof (increasingFrom_bound _ _ _ Hinc) as Hb.
    cbn [length seq combine fold_left fst snd decodeFrom]. rewrite Et.
    replace s with (length pre + (s - pos)) at 1 by lia.
    rewrite array_set_app_r, array_set_repeat by lia.
    replace (total - pos - S (s - pos)) with (total - S s) by lia.
    change (pre ++ repeat None (s - pos) ++ Some t :: repeat None (total - S s))
      with (pre ++ repeat None (s - pos) ++ [Some t] ++ repeat None (total - S s)).
    rewrite 2!app_assoc.
    rewrite (IH (S i) (S s)); try assumption.
    + rewrite Ets. rewrite !flat_map_app, flat_map_slotCells_None.
      cbn [flat_map]. rewrite app_nil_r. now rewrite <- !app_assoc.
    + rewrite Ets. simpl in Hlen. lia.
    + rewrite !length_app, repeat_length. simpl. lia.
Qed.

Lemma lineOfArrangement_decode (a : list nat) :
  increasingFrom 0 total a -> length a = length tagged ->
  lineOfArrangement (Z.of_nat total) tagged a = decodeFrom 0 a tagged total.
Proof.
  intros Hinc Hlen. unfold lineOfArrangement, fillSlots.
  rewrite Nat2Z.id, count_const.
  pose proof (fill_decode a 0 0 [] Hinc Hlen eq_refl) as H.
  simpl in H. rewrite Nat.sub_0_r in H. exact H.
Qed.

End Decoding.

Section Candidates.

Lemma fold_left_add_count (rule : Rule) (acc : nat) :
  fold_left (fun a r => a + count r) rule acc
  = acc + fold_right (fun r s => count r + s) 0 rule.
Proof.
  revert acc. induction rule as [|r rule IH]; intro acc; simpl; [lia|].
  rewrite IH. lia.
Qed.

Lemma blockCells_tagFrom (prev : option Z) (rule : Rule) :
  blockCells (tagFrom prev rule)
  = fold_right (fun r s => count r + s) 0 rule
    + length (filter same (tagFrom prev rule)).
Proof.
  revert prev. induction rule as [|r rule IH]; intro prev; simpl; [reflexivity|].
  rewrite IH. destruct (strictEq prev (Some (val r))); simpl; lia.
Qed.

(** The cells taken by the runs and their separators. *)
Lemma blockCells_taggedRule (rule : Rule) :
  blockCells (tagFrom None rule) = sumOfColoredSpaces rule + mandatorySpaces rule.
Proof.
  unfold sumOfColoredSpaces, mandatorySpaces.
  rewrite taggedRule_tagFrom, blockCells_tagFrom, fold_left_add_count. lia.
Qed.

Lemma totalSlots_nat (lineLength : nat) (rule : Rule) :
  Z.to_nat (totalSlots lineLength rule)
  = lineLength + length rule - blockCells (tagFrom None rule).
Proof. unfold totalSlots, freeSpaces. rewrite blockCells_taggedRule. lia. Qed.

(** [generateLineSolns] decodes, in order, every increasing choice of
    [length rule] slots among [totalSlots]. *)
Lemma generateLineSolns_combs (lineLength : nat) (rule : Rule) :
  let total := Z.to_nat (totalSlots lineLength rule) in
  generateLineSolns lineLength rule
  = map (fun a => decodeFrom 0 a (tagFrom None rule) total)
        (combs total (length rule) 0).
Proof.
  intro total. unfold generateLineSolns.
  destruct rule as [|r rule].
  - simpl. rewrite count_const. f_equal. f_equal.
    unfold total, totalSlots, freeSpaces. simpl. lia.
  - cbn [length Nat.eqb]. unfold arrangements. cbn [length].
    rewrite choose_combs. fold total. apply map_ext_in. intros a Ha.
    apply In_combs in Ha as [Hl Hinc]; [|lia].
    pose proof (increasingFrom_bound _ _ _ Hinc) as Hb.
    rewrite taggedRule_tagFrom.
    replace (totalSlots lineLength (r :: rule)) with (Z.of_nat total).
    + apply lineOfArrangement_decode; [assumption|].
      now rewrite length_tagFrom.
    + unfold total in *. simpl in Hl. lia.
Qed.

End Candidates.

(* ================================================================== *)
(** ** Parsing a line back into runs *)
(* ================================================================== *)

Section Parsing.

Lemma runs_blanks (k : nat) (l : Line) : runs (repeat (-1)%Z k ++ l) = runs l.
Proof. induction k as [|k IH]; simpl; auto. Qed.

Lemma runs_nil_inv (l : Line) : runs l = [] -> l = repeat (-1)%Z (length l).
Proof.
  induction l as [|c t IH]; simpl; [reflexivity|].
  destruct (Z.eqb_spec c (-1)) as [-> | _].
  - intro H. now rewrite <- IH.
  - destruct (runs t) as [|r rs]; [discriminate|].
    destruct (startsWith c t); discriminate.
Qed.

Lemma startsWith_blanks (v : Z) (k : nat) :
  v <> (-1)%Z -> startsWith v (repeat (-1)%Z k) = false.
Proof.
  intro H. destruct k; cbn [repeat startsWith]; [reflexivity|].
  apply Z.eqb_neq. congruence.
Qed.

(** A block of [c >= 1] cells of colour [v] not followed by [v] parses
    to one run. *)
Lemma runs_block (c : nat) (v : Z) (rest : Line) :
  1 <= c -> v <> (-1)%Z -> startsWith v rest = false ->
  runs (repeat v c ++ rest) = {| count := c; val := v |} :: runs rest.
Proof.
  intros Hc Hv Hs. destruct c as [|c]; [lia|]. clear Hc.
  apply Z.eqb_neq in Hv.
  induction c as [|c IH].
  - simpl. rewrite Hv. rewrite Hs. now destruct (runs rest).
  - change (repeat v (S (S c)) ++ rest) with (v :: (repeat v (S c) ++ rest)).
    cbn [runs]. rewrite Hv, IH. simpl. now rewrite Z.eqb_refl.
Qed.

(** A line whose first run is [r] is blanks, then the cells of [r],
    then a line that does not go on with the colour of [r]. *)
Lemma runs_cons_inv (l : Line) (r : RuleEntry) (rule : Rule) :
  runs l = r :: rule ->
  exists k l',
    l = repeat (-1)%Z k ++ repeat (val r) (count r) ++ l'
    /\ 1 <= count r /\ val r <> (-1)%Z
    /\ startsWith (val r) l' = false /\ runs l' = rule.
Proof.
  revert r rule. induction l as [|c t IH]; intros r rule; simpl; [discriminate|].
  destruct (Z.eqb_spec c (-1)) as [-> | Hc].
  - intro H. destruct (IH _ _ H) as (k & l' & -> & H1 & H2 & H3 & H4).
    exists (S k), l'. auto.
  - destruct (runs t) as [|r0 rs] eqn:Et.
    + intro H. injection H as <- <-. simpl.
      exists 0, t. simpl. repeat split; auto.
      apply runs_nil_inv in Et. rewrite Et. now apply startsWith_blanks.
    + destruct (startsWith c t) eqn:Es.
      * intro H. injection H as <- <-. simpl.
        destruct (IH _ _ eq_refl) as (k & l' & E & H1 & H2 & H3 & H4).
        destruct t as [|c' t']; [discriminate|]. simpl in Es.
        apply Z.eqb_eq in Es. subst c'.
        destruct k as [|k]; [|simpl in E; congruence].
        destruct (count r0) as [|c0]; [lia|]. simpl in E.
        injection E as Ev E. exists 0, l'. simpl.
        rewrite E, <- Ev in *. repeat split; auto; lia.
      * intro H. injection H as <- <-. simpl.
        exists 0, t. simpl. repeat split; auto.
Qed.

Lemma startsWith_slotCells (v : Z) (r : RuleEntry) (rest : Line) :
  1 <= count r -> v <> (-1)%Z ->
  startsWith v
    (slotCells (Some {| t_count := count r; t_val := val r;
                        same := strictEq (Some v) (Some (val r)) |}) ++ rest)
  = false.
Proof.
  intros Hc Hv. rewrite slotCells_Some. cbn [same t_val t_count strictEq].
  destruct (Z.eqb_spec v (val r)) as [E | E]; cbn [app startsWith].
  - apply Z.eqb_neq. congruence.
  - destruct (count r); [lia|]. cbn [repeat app startsWith].
    apply Z.eqb_neq. congruence.
Qed.

(** After a run of colour [v], the decoded rest never goes on with [v]. *)
Lemma startsWith_decode (v : Z) (pos total : nat) (a : list nat) (rule : Rule) :
  properRule rule -> v <> (-1)%Z ->
  startsWith v (decodeFrom pos a (tagFrom (Some v) rule) total) = false.
Proof.
  intros Hp Hv. destruct a as [|s a]; [now apply startsWith_blanks|].
  destruct rule as [|r rule]; [now apply startsWith_blanks|].
  cbn [tagFrom decodeFrom]. inversion Hp as [|? ? [Hc _] _]; subst.
  destruct (s - pos) as [|k]; cbn [repeat app].
  - now apply startsWith_slotCells.
  - cbn [startsWith]. apply Z.eqb_neq. congruence.
Qed.

(** Every decoded line parses back to the rule. *)
Lemma runs_decode (rule : Rule) (prev : option Z) (pos total : nat) (a : list nat) :
  properRule rule -> length a = length rule ->
  runs (decodeFrom pos a (tagFrom prev rule) total) = rule.
Proof.
  revert prev pos a. induction rule as [|r rule IH]; intros prev pos a Hp Hl.
  - destruct a; [|discriminate]. simpl.
    rewrite <- (app_nil_r (repeat _ _)). now rewrite runs_blanks.
  - destruct a as [|s a]; [discriminate|].
    inversion Hp as [|? ? [Hc Hv] Hp']; subst.
    cbn [tagFrom decodeFrom]. rewrite runs_blanks, slotCells_Some.
    cbn [same t_val t_count].
    assert (E : forall l, runs ((if strictEq prev (Some (val r)) then [(-1)%Z] else []) ++ l)
                          = runs l).
    { intro l. destruct (strictEq prev (Some (val r))); reflexivity. }
    rewrite <- app_assoc, E.
    rewrite runs_block; try assumption.
    + rewrite IH; [now destruct r | assumption | now injection Hl].
    + now apply startsWith_decode.
Qed.

Lemma length_decode (ts : list TaggedEntry) (pos total : nat) (a : list nat) :
  increasingFrom pos total a -> length a = length ts ->
  length (decodeFrom pos a ts total) + pos + length a = total + blockCells ts.
Proof.
  revert pos ts. induction a as [|s a IH]; intros pos ts Hinc Hl.
  - destruct ts; [|discriminate]. simpl in *. rewrite repeat_length. lia.
  - destruct ts as [|t ts]; [discriminate|]. destruct Hinc as [Hlo Hinc].
    pose proof (increasingFrom_bound _ _ _ Hinc) as Hb.
    cbn [decodeFrom]. rewrite !length_app, repeat_length, slotCells_Some.
    rewrite length_app, repeat_length.
    specialize (IH (S s) ts Hinc ltac:(now injection Hl)).
    simpl length in *. simpl blockCells.
    destruct (same t); simpl length; lia.
Qed.

Lemma blockCells_cons (t : TaggedEntry) (ts : list TaggedEntry) :
  blockCells (t :: ts) = t_count t + (if same t then 1 else 0) + blockCells ts.
Proof. reflexivity. Qed.

Lemma leadingBlanks_blanks (k : nat) (l : Line) :
  leadingBlanks (repeat (-1)%Z k ++ l) = k + leadingBlanks l.
Proof. induction k as [|k IH]; simpl; auto. Qed.

Lemma leadingBlanks_slotCells (t : TaggedEntry) (rest : Line) :
  1 <= t_count t -> t_val t <> (-1)%Z ->
  leadingBlanks (slotCells (Some t) ++ rest) = if same t then 1 else 0.
Proof.
  intros Hc Hv. rewrite slotCells_Some. apply Z.eqb_neq in Hv.
  destruct (t_count t) as [|c]; [lia|].
  destruct (same t); simpl; now rewrite Hv.
Qed.

(** Two increasing arrangements that decode to the same line are equal. *)
Lemma decode_inj (rule : Rule) (prev : option Z) (pos total : nat) (a a' : list nat) :
  properRule rule ->
  increasingFrom pos total a -> increasingFrom pos total a' ->
  length a = length rule -> length a' = length rule ->
  decodeFrom pos a (tagFrom prev rule) total
  = decodeFrom pos a' (tagFrom prev rule) total ->
  a = a'.
Proof.
  revert prev pos a a'.
  induction rule as [|r rule IH]; intros prev pos a a' Hp Hi Hi' Hl Hl' E.
  - destruct a, a'; try discriminate. reflexivity.
  - destruct a as [|s a]; [discriminate|]. destruct a' as [|s' a']; [discriminate|].
    inversion Hp as [|? ? [Hc Hv] Hp']; subst.
    destruct Hi as [Hlo Hi]. destruct Hi' as [Hlo' Hi'].
    cbn [tagFrom decodeFrom] in E.
    pose proof (f_equal leadingBlanks E) as Eb.
    rewrite !leadingBlanks_blanks, !leadingBlanks_slotCells in Eb by assumption.
    assert (s = s') by lia. subst s'.
    apply app_inv_head in E. apply app_inv_head in E.
    f_equal. eapply IH; try eassumption; [now injection Hl | now injection Hl'].
Qed.

(** Every line is the decoding of an arrangement of its own runs. *)
Lemma decode_complete (rule : Rule) (prev : option Z) (l : Line) :
  runs l = rule ->
  (forall v, prev = Some v -> startsWith v l = false) ->
  blockCells (tagFrom prev rule) <= length l
  /\ forall pos total,
      length l + pos + length rule = total + blockCells (tagFrom prev rule) ->
      exists a, length a = length rule /\ increasingFrom pos total a
                /\ decodeFrom pos a (tagFrom prev rule) total = l.
Proof.
  revert prev l. induction rule as [|r rule IH]; intros prev l Hr Hprev.
  - simpl. split; [lia|]. intros pos total Ht. exists []. simpl.
    repeat split; [lia|]. apply runs_nil_inv in Hr.
    transitivity (repeat (-1)%Z (length l)); [f_equal; lia | now symmetry].
  - destruct (runs_cons_inv _ _ _ Hr) as (k & l' & -> & Hc & Hv & Hs & Hr').
    destruct (IH (Some (val r)) l' Hr') as [Hb Hex].
    { intros v Ev. injection Ev as <-. exact Hs. }
    cbn [tagFrom]. rewrite blockCells_cons. cbn [same t_count].
    set (d := if strictEq prev (Some (val r)) then 1 else 0).
    assert (Hd : d <= k).
    { unfold d. destruct (strictEq prev (Some (val r))) eqn:Ep; [|lia].
      apply strictEq_true in Ep. specialize (Hprev _ Ep).
      destruct k as [|k]; [|lia]. exfalso.
      destruct (count r); [lia|]. simpl in Hprev. rewrite Z.eqb_refl in Hprev.
      discriminate. }
    rewrite !length_app, !repeat_length. split; [lia|].
    intros pos total Ht.
    destruct (Hex (S (pos + k - d)) total) as (a & Hla & Hia & Hda).
    { simpl length in Ht. lia. }
    exists ((pos + k - d) :: a). split; [simpl; now rewrite Hla|].
    split; [simpl; split; [lia | assumption]|].
    cbn [decodeFrom]. rewrite Hda, slotCells_Some. cbn [same t_val t_count].
    fold d. rewrite app_assoc. rewrite (app_assoc (repeat _ k)). f_equal.
    rewrite app_assoc. f_equal.
    replace (pos + k - d - pos) with (k - d) by lia.
    unfold d in *. destruct (strictEq prev (Some (val r))).
    + destruct k as [|k]; [lia|]. simpl Nat.sub. rewrite Nat.sub_0_r.
      change [(-1)%Z] with (repeat (-1)%Z 1). rewrite <- repeat_app.
      f_equal. lia.
    + now rewrite Nat.sub_0_r, app_nil_r.
Qed.

End Parsing.


Section CandidateSets.

(** No omission: every line is among the candidates generated for its
    own length and its own runs. *)
Lemma generateLineSolns_no_omission (l : Line) :
  In l (generateLineSolns (length l) (runs l)).
Proof.
  rewrite generateLineSolns_combs. cbv zeta.
  destruct (decode_complete (runs l) None l eq_refl) as [Hb Hex]; [discriminate|].
  destruct (Hex 0 (Z.to_nat (totalSlots (length l) (runs l)))) as (a & Hla & Hinc & Hd).
  { rewrite totalSlots_nat. lia. }
  apply in_map_iff. exists a. split; [assumption|].
  apply In_combs; [lia | auto].
Qed.

(** Every candidate has the length of the line. *)
Lemma generateLineSolns_length (lineLength : nat) (rule : Rule) (l : Line) :
  In l (generateLineSolns lineLength rule) -> length l = lineLength.
Proof.
  rewrite generateLineSolns_combs. cbv zeta. intro Hl.
  apply in_map_iff in Hl as [a [<- Ha]].
  apply In_combs in Ha as [Hla Hinc]; [|lia].
  pose proof (length_decode (tagFrom None rule) 0 _ a Hinc) as Hd.
  rewrite length_tagFrom in Hd. specialize (Hd Hla).
  apply increasingFrom_bound in Hinc. rewrite totalSlots_nat in *.
  destruct rule as [|r rule]; simpl in *; lia.
Qed.

End CandidateSets.

(** C5 (amended).  For every line length L and every clue,
    [generateLineSolns L clue] returns exactly C(totalSlots, nGroups) lines
    (C(n, k) read as 0 when totalSlots is negative and k >= 1), decoded in
    order from the arrangements, which [choose] lists in strict
    lexicographic order; every produced line has exactly L cells, and every
    line of L cells whose runs are the clue is produced (no omission).
    When moreover every run of the clue has length at least 1 and a colour
    other than the blank -1 (so every nonnegative colour id), no line is
    produced twice and every produced line parses back to exactly the
    clue's runs. *)
Theorem generateLineSolns_complete_and_distinct :
  forall (lineLength : nat) (rule : Rule),
    let solns := generateLineSolns lineLength rule in
    length solns = binom (Z.to_nat (totalSlots lineLength rule)) (length rule)
    /\ StronglySorted lexLt (arrangements lineLength rule)
    /\ (rule <> [] ->
        solns = map (lineOfArrangement (totalSlots lineLength rule) (taggedRule rule))
                    (arrangements lineLength rule))
    /\ (forall l, In l solns -> length l = lineLength)
    /\ (forall l, length l = lineLength -> runs l = rule -> In l solns)
    /\ (properRule rule ->
        NoDup solns /\ forall l, In l solns -> runs l = rule).
Proof.
  intros lineLength rule solns.
  pose proof (generateLineSolns_combs lineLength rule) as Hc. cbv zeta in Hc.
  fold solns in Hc.
  set (total := Z.to_nat (totalSlots lineLength rule)) in *.
  split; [|split; [|split; [|split; [|split]]]].
  - rewrite Hc, length_map, length_combs. now rewrite Nat.sub_0_r.
  - unfold arrangements. destruct (length rule) as [|n].
    + constructor.
    + rewrite choose_combs. apply combs_sorted.
  - intro Hne. unfold solns, generateLineSolns.
    destruct rule; [contradiction | reflexivity].
  - intros l Hl. now apply generateLineSolns_length in Hl.
  - intros l <- <-. apply generateLineSolns_no_omission.
  - intro Hp. split.
    + rewrite Hc. apply NoDup_map_NoDup_ForallPairs.
      * intros a a' Ha Ha' E.
        apply In_combs in Ha as [Hla Hinc]; [|lia].
        apply In_combs in Ha' as [Hla' Hinc']; [|lia].
        eapply decode_inj; eassumption.
      * eapply StronglySorted_NoDup; [exact lexLt_irrefl | apply combs_sorted].
    + intros l Hl. rewrite Hc in Hl. apply in_map_iff in Hl as [a [<- Ha]].
      apply In_combs in Ha as [Hla _]; [|lia].
      now apply runs_decode.
Qed.

Lemma generateLineSolns_complete_and_distinct_witness :
  properRule [R 2 1; R 1 1]
  /\ NoDup (generateLineSolns 5 [R 2 1; R 1 1])
  /\ In [1; 1; -1; -1; 1]%Z (generateLineSolns 5 [R 2 1; R 1 1]).
Proof.
  assert (Hp : properRule [R 2 1; R 1 1]).
  { repeat constructor; simpl; lia. }
  destruct (generateLineSolns_complete_and_distinct 5 [R 2 1; R 1 1])
    as (_ & _ & _ & _ & Hin & Hnd).
  split; [exact Hp|]. split.
  - exact (proj1 (Hnd Hp)).
  - apply Hin; reflexivity.
Defined.

(** C5, as stated, fails on a run of length 0: for line length 1 and the
    clue [{count: 0, val: 1}] the same all-blank line is produced twice,
    and it does not parse back to the clue. *)
Lemma generateLineSolns_zero_run_duplicates :
  generateLineSolns 1 [R 0 1] = [[-1]; [-1]]%Z
  /\ ~ NoDup (generateLineSolns 1 [R 0 1])
  /\ runs [-1]%Z <> [R 0 1].
Proof.
  split; [reflexivity|]. split; [|discriminate].
  intro H. change (generateLineSolns 1 [R 0 1]) with [[-1]; [-1]]%Z in H.
  inversion H as [|? ? Hn _]; subst. apply Hn. now left.
Qed.

(* ================================================================== *)
(** ** Soundness of the moves *)
(* ================================================================== *)

Section Soundness.

Lemma In_combine_seq {A : Type} (l : list A) (n i : nat) (a : A) :
  In (i, a) (combine (seq n (length l)) l) -> nth_error l (i - n) = Some a /\ n <= i.
Proof.
  revert n. induction l as [|h l IH]; intro n; simpl; [intros []|].
  intros [H | H].
  - injection H as <- <-. now rewrite Nat.sub_diag.
  - apply IH in H as [H1 H2]. replace (i - n) with (S (i - S n)) by lia.
    split; [assumption | lia].
Qed.

Lemma In_mapi {A B : Type} (f : A -> nat -> B) (l : list A) (b : B) :
  In b (mapi f l) -> exists i a, nth_error l i = Some a /\ b = f a i.
Proof.
  unfold mapi. intro H. apply in_map_iff in H as [[i a] [<- H]].
  apply In_combine_seq in H as [H _]. rewrite Nat.sub_0_r in H.
  exists i, a. auto.
Qed.

Lemma Forall2_nth_error {A B : Type} (P : A -> B -> Prop) (l : list A) (l' : list B) :
  Forall2 P l l' ->
  forall i b, nth_error l' i = Some b -> exists a, nth_error l i = Some a /\ P a b.
Proof.
  induction 1 as [|a b l l' Hab _ IH]; intros [|i] b'; simpl; try discriminate.
  - intro H. injection H as <-. eauto.
  - apply IH.
Qed.

Lemma lookup_In (k : nat) (solns : list Line) (m : SolutionMap) :
  lookup k m = Some solns -> In (k, solns) m.
Proof.
  intro H. destruct (lookup_split _ _ _ H) as [m1 [m2 ->]].
  apply in_elt.
Qed.

Lemma flatMapR_In {A B : Type} (f : A -> Res (list B)) (arr : list A) (bs : list B) :
  flatMapR f arr = Ok bs ->
  forall b, In b bs -> exists a bs', In a arr /\ f a = Ok bs' /\ In b bs'.
Proof.
  revert bs. induction arr as [|a arr IH]; simpl; intros bs H b Hb.
  - injection H as <-. destruct Hb.
  - destruct (f a) as [bs1 | e] eqn:E1; simpl in H; [|discriminate].
    destruct (flatMapR f arr) as [bs2 | e] eqn:E2; simpl in H; [|discriminate].
    injection H as <-. apply in_app_or in Hb as [Hb | Hb].
    + exists a, bs1. auto.
    + destruct (IH _ eq_refl b Hb) as (a' & bs' & H1 & H2 & H3).
      exists a', bs'. auto.
Qed.

(** A move found on a candidate set is the value every candidate has at
    the position of the move. *)
Lemma findValidMoves_sound (lines : list Line) (indices : list nat)
    (solnMapper : nat -> Z -> Move) (moves : list Move) :
  findValidMoves lines indices solnMapper = Ok moves ->
  forall m, In m moves ->
    exists i v, m = solnMapper i v
                /\ forall line, In line lines -> nth_error line i = Some v.
Proof.
  unfold findValidMoves. destruct lines as [|line0 rest]; [discriminate|].
  intro H. injection H as <-. intros m Hm.
  apply in_flat_map in Hm as [i [_ Hm]].
  destruct (negb (includes indices i)); [destruct Hm|].
  match type of Hm with
  | In _ (if ?c then _ else _) => destruct c eqn:Ea; [|destruct Hm]
  end.
  destruct (nth_error line0 i) as [v|] eqn:Ev; [|destruct Hm].
  destruct Hm as [<- | []]. exists i, v. split; [reflexivity|].
  intros line Hl.
  assert (Ea' : forallb (fun n => strictEq (nth_error n i) (Some v))
                        (line0 :: rest) = true).
  { cbn [forallb]. now rewrite Ev. }
  rewrite forallb_forall in Ea'. specialize (Ea' line Hl).
  now apply strictEq_true in Ea'.
Qed.

Variable rules : Rules.
Variable g : Board.
Hypothesis g_solution : isSolution rules g.

Lemma solution_row (k : nat) (r : Line) :
  nth_error g k = Some r -> length r = length (column rules).
Proof.
  intro H. destruct g_solution as [Hrows _].
  assert (Hl : forall l l', Forall2 (fun r clue => length r = length (column rules)
                                                  /\ runs r = clue) l l' ->
               forall i r, nth_error l i = Some r -> length r = length (column rules)).
  { induction 1 as [|a b l l' [Ha _] _ IH]; intros [|i] r0; simpl; try discriminate.
    - intro E. now injection E as <-.
    - apply IH. }
  eapply Hl; eassumption.
Qed.

Lemma columnOf_nth (k i : nat) (v : Z) :
  cellAt g i k = Some v -> nth_error (columnOf g k) i = Some v.
Proof.
  unfold cellAt, columnOf. rewrite nth_error_map.
  destruct (nth_error g i) as [r|]; [|discriminate]. simpl.
  intro H. f_equal. now apply nth_error_nth.
Qed.

Lemma nth_columnOf (k i : nat) (v : Z) :
  k < length (column rules) ->
  nth_error (columnOf g k) i = Some v -> cellAt g i k = Some v.
Proof.
  unfold cellAt, columnOf. rewrite nth_error_map. intro Hk.
  destruct (nth_error g i) as [r|] eqn:Er; [|discriminate]. simpl.
  intro H. injection H as <-. apply solution_row in Er.
  apply nth_error_nth'. lia.
Qed.

Lemma initialStore_keeps : (storeKeeps rules g) (initialStore rules).
Proof.
  destruct g_solution as [Hrows Hcols]. split; apply Forall_forall; intros e He.
  - simpl in He. apply In_mapi in He as (k & clue & Hk & ->).
    destruct (Forall2_nth_error _ _ _ Hrows _ _ Hk) as (r & Hr & Hlen & Hruns).
    exists r. split; [assumption|]. simpl. rewrite <- Hlen, <- Hruns.
    apply generateLineSolns_no_omission.
  - simpl in He. apply In_mapi in He as (k & clue & Hk & ->).
    split; simpl.
    + apply nth_error_Some. congruence.
    + rewrite <- (Hcols _ _ Hk).
      replace (length (row rules)) with (length (columnOf g k)).
      * apply generateLineSolns_no_omission.
      * unfold columnOf. rewrite length_map. eapply Forall2_length; eassumption.
Qed.

Lemma rowMoves_agree (s : Store) (rowMoves : list Move) :
  (storeKeeps rules g) s ->
  flatMapR (fun row => findMovesFromRow (fst row) (utils.keys (colMap s)) (snd row))
           (utils.values (rowMap s)) = Ok rowMoves ->
  Forall (agrees g) rowMoves.
Proof.
  intros [Hr _] H. apply Forall_forall. intros m Hm.
  destruct (flatMapR_In _ _ _ H m Hm) as ([k solns] & ms & He & Hf & Hin).
  rewrite Forall_forall in Hr. destruct (Hr _ He) as (r & Hg & Hrin).
  destruct (findValidMoves_sound _ _ _ _ Hf m Hin) as (i & v & -> & Hall).
  unfold agrees, cellAt. simpl in *. rewrite Hg. now apply Hall.
Qed.

Lemma colMoves_agree (s : Store) (colMoves : list Move) :
  (storeKeeps rules g) s ->
  flatMapR (fun col => findMovesFromCol (fst col) (utils.keys (rowMap s)) (snd col))
           (utils.values (colMap s)) = Ok colMoves ->
  Forall (agrees g) colMoves.
Proof.
  intros [_ Hc] H. apply Forall_forall. intros m Hm.
  destruct (flatMapR_In _ _ _ H m Hm) as ([k solns] & ms & He & Hf & Hin).
  rewrite Forall_forall in Hc. destruct (Hc _ He) as (Hk & Hcin).
  destruct (findValidMoves_sound _ _ _ _ Hf m Hin) as (i & v & -> & Hall).
  unfold agrees. simpl in *. apply nth_columnOf; [assumption|]. now apply Hall.
Qed.

Lemma Forall_deleteKey (P : nat * list Line -> Prop) (k : nat) (m : SolutionMap) :
  Forall P m -> Forall P (deleteKey k m).
Proof.
  rewrite !Forall_forall. intros H e He. apply filter_In in He as [He _]. auto.
Qed.

Lemma Forall_setSolns (P : nat * list Line -> Prop) (k : nat) (solns : list Line)
    (m : SolutionMap) :
  P (k, solns) -> Forall P m -> Forall P (setSolns k solns m).
Proof.
  intros Hk H. unfold setSolns. apply Forall_map.
  eapply Forall_impl; [|exact H]. intros [k' v] He. simpl.
  now destruct (Nat.eqb k' k).
Qed.

(** The line loop keeps whatever line each pruning keeps. *)
Lemma pruneLines_keeps (P : nat * list Line -> Prop)
    (pruneOne : nat -> list Line -> PruneResult) (err : nat -> SolutionMap -> Exn)
    (todo m : SolutionMap) (cnt p : Z) (m' : SolutionMap) (cnt' p' : Z) :
  (forall k solns, P (k, solns) -> P (k, fst (pruneOne k solns))) ->
  Forall P todo -> Forall P m ->
  pruneLines pruneOne err todo m cnt p = Ok (m', cnt', p') ->
  Forall P m'.
Proof.
  intro Hone. revert m cnt p.
  induction todo as [|[k solns] rest IH]; intros m cnt p Htodo Hm; simpl.
  - intro H. now injection H as <- <- <-.
  - inversion Htodo as [|? ? Hk Hrest]; subst.
    destruct (isLineSolved solns).
    + apply IH; [assumption | now apply Forall_deleteKey].
    + destruct (isLineConflict solns); [discriminate|].
      specialize (Hone _ _ Hk).
      destruct (pruneOne k solns) as [solns' pruned]. simpl in Hone.
      apply IH; [assumption | now apply Forall_setSolns].
Qed.

Lemma pruneRow_keeps (colMoves : list Move) (k : nat) (solns : list Line) :
  Forall (agrees g) colMoves -> (rowKept g) (k, solns) ->
  (rowKept g) (k, fst (pruneRowByMoves solns (movesForRow k colMoves))).
Proof.
  intros Hm (r & Hg & Hin). exists r. split; [assumption|]. simpl in *.
  apply filter_In. split; [assumption|]. apply forallb_forall. intros m Hmin.
  apply filter_In in Hmin as [Hmin Hx]. apply Nat.eqb_eq in Hx. simpl in Hx.
  rewrite Forall_forall in Hm. specialize (Hm _ Hmin).
  unfold agrees, cellAt in Hm. rewrite Hx, Hg in Hm. simpl. rewrite Hm.
  apply strictEq_refl.
Qed.

Lemma pruneCol_keeps (rowMoves : list Move) (k : nat) (solns : list Line) :
  Forall (agrees g) rowMoves -> (colKept rules g) (k, solns) ->
  (colKept rules g) (k, fst (pruneColByMoves solns (movesForCol k rowMoves))).
Proof.
  intros Hm (Hk & Hin). split; [assumption|]. simpl in *.
  apply filter_In. split; [assumption|]. apply forallb_forall. intros m Hmin.
  apply filter_In in Hmin as [Hmin Hy]. apply Nat.eqb_eq in Hy. simpl in Hy.
  rewrite Forall_forall in Hm. specialize (Hm _ Hmin).
  unfold agrees in Hm. rewrite Hy in Hm. simpl.
  rewrite (columnOf_nth _ _ _ Hm). apply strictEq_refl.
Qed.

Lemma arcCell_keeps (x0 y0 : nat) st st' :
  (arcKeeps rules g) st -> arcCell x0 y0 st = Ok st' -> (arcKeeps rules g) st'.
Proof.
  destruct st as [[rm cm] p]. unfold arcKeeps, arcCell. simpl.
  intros [Hr Hc].
  destruct (lookup y0 cm) as [cl|] eqn:Ec; [|discriminate].
  destruct (lookup x0 rm) as [rl|] eqn:Er; [|discriminate].
  apply lookup_In in Ec, Er.
  pose proof Hr as Hr'. pose proof Hc as Hc'.
  rewrite Forall_forall in Hr', Hc'.
  destruct (Hr' _ Er) as (r & Hg & Hrin). destruct (Hc' _ Ec) as (Hk & Hcin).
  simpl in *.
  assert (Hcell : nth_error (columnOf g y0) x0 = nth_error r y0).
  { pose proof (solution_row _ _ Hg) as Hlen.
    destruct (nth_error r y0) as [v|] eqn:Ev.
    - apply columnOf_nth. unfold cellAt. now rewrite Hg.
    - apply nth_error_None in Ev. lia. }
  assert (Hin : In (nth_error r y0)
                   (intersection (getPossibleColors cl x0) (getPossibleColors rl y0))).
  { apply In_intersection. split; apply In_getPossibleColors.
    - exists (columnOf g y0). auto.
    - exists r. auto. }
  unfold pruneByColors. cbv zeta. intro H. injection H as <-. simpl.
  split; apply Forall_setSolns; try assumption.
  - exists r. split; [assumption|]. simpl. apply filter_In. split; [assumption|].
    now apply has_true.
  - split; [assumption|]. simpl. apply filter_In. split; [assumption|].
    apply has_true. now rewrite Hcell.
Qed.

Lemma pruneStore_keeps (s s' : Store) (rowMoves colMoves : list Move) :
  (storeKeeps rules g) s -> Forall (agrees g) rowMoves -> Forall (agrees g) colMoves ->
  pruneStore s rowMoves colMoves = Ok s' -> (storeKeeps rules g) s'.
Proof.
  intros [Hr Hc] Hrm Hcm. unfold pruneStore, utils.values.
  rewrite pruneRows_pruneLines.
  destruct (pruneLines _ _ (rowMap s) (rowMap s) _ _) as [[[rm1 rc1] p1] | e] eqn:E1;
    simpl; [|discriminate].
  rewrite pruneCols_pruneLines.
  destruct (pruneLines _ _ (colMap s) (colMap s) _ _) as [[[cm1 cc1] p2] | e] eqn:E2;
    simpl; [|discriminate].
  apply (pruneLines_keeps (rowKept g)) in E1; try assumption;
    [|intros k solns; now apply pruneRow_keeps].
  apply (pruneLines_keeps (colKept rules g)) in E2; try assumption;
    [|intros k solns; now apply pruneCol_keeps].
  destruct (p2 >? 0)%Z.
  - intro H. injection H as <-. split; assumption.
  - destruct (arcPass _ _ _) as [[[rm2 cm2] p3] | e] eqn:E3; simpl; [|discriminate].
    assert (Hk : (arcKeeps rules g) (rm2, cm2, p3)).
    { revert E3. unfold arcPass. apply (forEachR_inv (arcKeeps rules g)); [|split; assumption].
      intros x0 st1 st2. apply forEachR_inv. intro y0. apply arcCell_keeps. }
    destruct (p3 =? 0)%Z; [discriminate|].
    intro H. injection H as <-. exact Hk.
Qed.

Lemma yieldMoves_incl (moves : list Move) b b' ys (r : Res unit) :
  yieldMoves moves b = (b', ys, r) -> incl ys moves.
Proof.
  revert b b' ys r. induction moves as [|m rest IH]; simpl; intros b b' ys r E.
  - injection E as <- <- <-. apply incl_refl.
  - destruct (nth_error b (x (tile m))) as [rw|].
    + destruct (nth_error rw (y (tile m))) as [[| |]|];
        try (apply incl_tl; eapply IH; eassumption).
      destruct (yieldMoves rest _) as [[b0 ys0] r0] eqn:E0.
      injection E as <- <- <-. apply incl_cons; [now left|].
      apply incl_tl. eapply IH; eassumption.
    + injection E as <- <- <-. apply incl_nil_l.
Qed.

(** Whatever a round does (continue or throw), the moves it yields agree
    with the solution; if it continues, the candidate sets still hold
    the lines of the solution. *)
Lemma round_sound (s : Store) b b' ms (r : Res Store) :
  (storeKeeps rules g) s -> round s b = (b', ms, r) ->
  Forall (agrees g) ms /\ forall s', r = Ok s' -> (storeKeeps rules g) s'.
Proof.
  intros Hs. unfold round, bindG, liftG.
  destruct (flatMapR _ (utils.values (rowMap s))) as [rowMoves | e] eqn:E1.
  2:{ intro H. injection H as <- <- <-. split; [constructor | discriminate]. }
  destruct (flatMapR _ (utils.values (colMap s))) as [colMoves | e] eqn:E2.
  2:{ intro H. injection H as <- <- <-. split; [constructor | discriminate]. }
  pose proof (rowMoves_agree _ _ Hs E1) as Hrm.
  pose proof (colMoves_agree _ _ Hs E2) as Hcm.
  destruct (yieldMoves rowMoves b) as [[b1 ys1] r1] eqn:Y1.
  pose proof (yieldMoves_incl _ _ _ _ _ Y1) as I1.
  assert (A1 : Forall (agrees g) ys1).
  { rewrite Forall_forall in *. auto. }
  destruct r1 as [[] | e].
  2:{ intro H. injection H as <- <- <-. simpl. split; [assumption | discriminate]. }
  destruct (yieldMoves colMoves b1) as [[b2 ys2] r2] eqn:Y2.
  pose proof (yieldMoves_incl _ _ _ _ _ Y2) as I2.
  assert (A2 : Forall (agrees g) ys2).
  { rewrite Forall_forall in *. auto. }
  destruct r2 as [[] | e].
  2:{ intro H. injection H as <- <- <-. simpl.
      split; [apply Forall_app; auto | discriminate]. }
  fold (pruneStore s rowMoves colMoves).
  intro H. injection H as <- <- <-. simpl. rewrite app_nil_r. split.
  - apply Forall_app; auto.
  - intros s' E. exact (pruneStore_keeps s s' rowMoves colMoves Hs Hrm Hcm E).
Qed.

Lemma loop_sound (fuel : nat) (s : Store) (b : Board) :
  (storeKeeps rules g) s -> Forall (agrees g) (snd (fst (loop fuel s b))).
Proof.
  revert s b. induction fuel as [|fuel IH]; intros s b Hs; simpl.
  - destruct (_ || _); constructor.
  - destruct (_ || _); [constructor|].
    destruct (round s b) as [[b1 ms] r] eqn:E.
    destruct (round_sound _ _ _ _ _ Hs E) as [Hms Hr].
    destruct r as [s' | e]; [|assumption].
    specialize (IH s' b1 (Hr s' eq_refl)).
    destruct (loop fuel s' b1) as [[b2 ms'] out]. simpl in *.
    apply Forall_app; auto.
Qed.

End Soundness.

(* ================================================================== *)
(** ** What a run that ends as solved leaves on the board *)
(* ================================================================== *)

Section SolvedBoards.

Lemma decode_cells (ts : list TaggedEntry) (pos total : nat) (a : list nat) :
  Forall (fun c => c = (-1)%Z \/ In c (map t_val ts)) (decodeFrom pos a ts total).
Proof.
  revert pos ts. induction a as [|s a IH]; intros pos ts.
  - simpl. apply Forall_forall. intros c Hc. left. now apply repeat_spec in Hc.
  - destruct ts as [|t ts].
    + simpl. apply Forall_forall. intros c Hc. left. now apply repeat_spec in Hc.
    + cbn [decodeFrom]. rewrite slotCells_Some.
      apply Forall_app. split; [|apply Forall_app; split; [apply Forall_app; split|]].
      * apply Forall_forall. intros c Hc. left. now apply repeat_spec in Hc.
      * destruct (same t); [|constructor]. constructor; [now left | constructor].
      * apply Forall_forall. intros c Hc. right. left. symmetry.
        now apply repeat_spec in Hc.
      * eapply Forall_impl; [|apply IH]. simpl. intros c [Hc | Hc]; auto.
Qed.

Lemma map_t_val_tagFrom (prev : option Z) (rule : Rule) :
  map t_val (tagFrom prev rule) = map val rule.
Proof. revert prev. induction rule; intro; simpl; [reflexivity | now f_equal]. Qed.

(** A candidate for a clue without colour 0 has no unknown cell. *)
Lemma generateLineSolns_lineOk (lineLength : nat) (rule : Rule) (l : Line) :
  Forall (fun r => val r <> 0%Z) rule ->
  In l (generateLineSolns lineLength rule) -> lineOk lineLength l.
Proof.
  intros Hz Hl. split; [now apply generateLineSolns_length in Hl|].
  rewrite generateLineSolns_combs in Hl. cbv zeta in Hl.
  apply in_map_iff in Hl as [a [<- _]].
  eapply Forall_impl; [|apply decode_cells]. simpl.
  rewrite map_t_val_tagFrom. intros c [-> | Hc]; [discriminate|].
  apply in_map_iff in Hc as [r [<- Hr]]. rewrite Forall_forall in Hz. auto.
Qed.

Lemma includes_true (indices : list nat) (i : nat) :
  includes indices i = true <-> In i indices.
Proof.
  unfold includes. rewrite existsb_exists. split.
  - intros [j [Hj E]]. apply Nat.eqb_eq in E. now subst.
  - intro H. exists i. split; [assumption | apply Nat.eqb_refl].
Qed.

(** A line with a single candidate gives a move at each of its positions
    that is still unsolved in the other dimension. *)
Lemma findValidMoves_single (l : Line) (indices : list nat)
    (solnMapper : nat -> Z -> Move) (i : nat) (v : Z) :
  nth_error l i = Some v -> In i indices ->
  exists moves, findValidMoves [l] indices solnMapper = Ok moves
                /\ In (solnMapper i v) moves.
Proof.
  intros Hv Hi. eexists. split; [reflexivity|].
  apply in_flat_map. exists i. split.
  - apply in_seq. split; [lia|]. simpl. apply nth_error_Some. congruence.
  - apply includes_true in Hi. rewrite Hi. cbn [negb forallb].
    rewrite strictEq_refl, Hv. now left.
Qed.

Lemma flatMapR_incl {A B : Type} (f : A -> Res (list B)) (arr : list A)
    (bs : list B) (a : A) (bs' : list B) :
  flatMapR f arr = Ok bs -> In a arr -> f a = Ok bs' -> incl bs' bs.
Proof.
  revert bs. induction arr as [|a0 arr IH]; simpl; intros bs H Ha Hf; [destruct Ha|].
  destruct (f a0) as [bs1 | e] eqn:E1; simpl in H; [|discriminate].
  destruct (flatMapR f arr) as [bs2 | e] eqn:E2; simpl in H; [|discriminate].
  injection H as <-. destruct Ha as [-> | Ha].
  - rewrite Hf in E1. injection E1 as ->. now apply incl_appl.
  - apply incl_appr. now apply IH.
Qed.

(** The line loop keeps exactly the lines with more than one candidate,
    and counts the others out. *)
Lemma pruneLines_keys (pruneOne : nat -> list Line -> PruneResult)
    (err : nat -> SolutionMap -> Exn) (todo done : SolutionMap) (cnt p : Z)
    (m' : SolutionMap) (cnt' p' : Z) :
  NoDup (utils.keys (done ++ todo)) ->
  pruneLines pruneOne err todo (done ++ todo) cnt p = Ok (m', cnt', p') ->
  utils.keys m' = utils.keys done ++ utils.keys (unsolvedOf todo)
  /\ (cnt' - Z.of_nat (length (unsolvedOf todo)) = cnt - Z.of_nat (length todo))%Z.
Proof.
  revert done cnt p. induction todo as [|[k solns] rest IH]; intros done cnt p Hnd.
  - simpl. intro H. injection H as <- <- <-. rewrite !app_nil_r.
    split; [reflexivity | lia].
  - cbn [pruneLines]. unfold unsolvedOf. cbn [filter snd].
    destruct (isLineSolved solns) eqn:Es; cbn [negb].
    + rewrite deleteKey_middle by assumption. intro H.
      assert (Hnd' : NoDup (utils.keys (done ++ rest))).
      { rewrite keys_app in *. simpl in Hnd. eapply NoDup_remove_1; eassumption. }
      destruct (IH _ _ _ Hnd' H) as [H1 H2]. fold (unsolvedOf rest).
      split; [assumption|]. simpl length. lia.
    + destruct (isLineConflict solns); [discriminate|].
      destruct (pruneOne k solns) as [solns' pruned].
      rewrite setSolns_middle by assumption.
      change (done ++ (k, solns') :: rest) with (done ++ [(k, solns')] ++ rest).
      rewrite app_assoc. intro H.
      assert (Hnd' : NoDup (utils.keys ((done ++ [(k, solns')]) ++ rest))).
      { rewrite <- app_assoc. rewrite keys_app in *. exact Hnd. }
      destruct (IH _ _ _ Hnd' H) as [H1 H2]. fold (unsolvedOf rest).
      split.
      * rewrite H1, keys_app. simpl. now rewrite <- app_assoc.
      * simpl length. lia.
Qed.

Lemma arcPass_keys (xs ys : list nat) st st' :
  arcPass xs ys st = Ok st' ->
  utils.keys (fst (fst st')) = utils.keys (fst (fst st))
  /\ utils.keys (snd (fst st')) = utils.keys (snd (fst st)).
Proof.
  unfold arcPass.
  set (I := fun s1 : list (nat * list (list Z)) * list (nat * list (list Z)) * Z =>
              utils.keys (fst (fst s1)) = utils.keys (fst (fst st))
              /\ utils.keys (snd (fst s1)) = utils.keys (snd (fst st))).
  apply (forEachR_inv I); [|split; reflexivity].
  intros x0 st1 st2. apply (forEachR_inv I). clear st1 st2.
  intros y0 [[rm cm] p] st2 [H1 H2]. unfold arcCell.
  destruct (lookup y0 cm); [|discriminate]. destruct (lookup x0 rm); [|discriminate].
  unfold pruneByColors. cbv zeta. intro H. injection H as <-.
  unfold I in *. cbn [fst snd] in *. now rewrite !keys_setSolns.
Qed.

Lemma linesOk_filter (len k : nat) (solns : list Line) (keep : Line -> bool) :
  linesOk len (k, solns) -> linesOk len (k, filter keep solns).
Proof.
  unfold linesOk. simpl. rewrite !Forall_forall. intros H l Hl.
  apply filter_In in Hl as [Hl _]. auto.
Qed.

Lemma arcPass_linesOk (lr lc : nat) (xs ys : list nat) st st' :
  Forall (linesOk lr) (fst (fst st)) -> Forall (linesOk lc) (snd (fst st)) ->
  arcPass xs ys st = Ok st' ->
  Forall (linesOk lr) (fst (fst st')) /\ Forall (linesOk lc) (snd (fst st')).
Proof.
  intros Hr Hc. unfold arcPass.
  set (I := fun s1 : list (nat * list (list Z)) * list (nat * list (list Z)) * Z =>
              Forall (linesOk lr) (fst (fst s1))
              /\ Forall (linesOk lc) (snd (fst s1))).
  apply (forEachR_inv I); [|split; assumption].
  intros x0 st1 st2. apply (forEachR_inv I). clear.
  intros y0 [[rm cm] p] st2 [H1 H2]. unfold arcCell. simpl in *.
  destruct (lookup y0 cm) as [cl|] eqn:Ec; [|discriminate].
  destruct (lookup x0 rm) as [rl|] eqn:Er; [|discriminate].
  apply lookup_In in Ec, Er.
  unfold pruneByColors. cbv zeta. intro H. injection H as <-. simpl.
  rewrite Forall_forall in H1, H2. pose proof (H1 _ Er). pose proof (H2 _ Ec).
  split; apply Forall_setSolns; try (apply Forall_forall; assumption);
    now apply linesOk_filter.
Qed.

(** Through a sequence of writes at zero cells, a cell stays a cell, and
    keeps its value once it is not 0. *)
Lemma writesZeroOnly_cell (b b' : Board) (ms : list Move) :
  writesZeroOnly b ms b' ->
  forall x0 y0 v, cellAt b x0 y0 = Some v ->
    exists v', cellAt b' x0 y0 = Some v' /\ (v <> 0%Z -> v' = v).
Proof.
  induction 1 as [b | b m ms b' Hz _ IH]; intros x0 y0 v Hv; [eauto|].
  destruct (Nat.eqb (x (tile m)) x0 && Nat.eqb (y (tile m)) y0) eqn:E.
  - destruct (IH x0 y0 (next m)) as (v' & Hv' & _).
    { now rewrite cellAt_setCell, E, Hv. }
    exists v'. split; [assumption|]. intro Hnz.
    apply andb_true_iff in E as [Ex Ey]. apply Nat.eqb_eq in Ex, Ey. subst.
    congruence.
  - apply IH. now rewrite cellAt_setCell, E.
Qed.

Lemma yieldMoves_cell (moves : list Move) (b b' : Board) (ys : list Move)
    (r : Res unit) :
  yieldMoves moves b = (b', ys, r) ->
  forall x0 y0 v, cellAt b x0 y0 = Some v ->
    exists v', cellAt b' x0 y0 = Some v' /\ (v <> 0%Z -> v' = v).
Proof.
  intro H. apply writesZeroOnly_cell with (ms := ys).
  pose proof (respectsFrame_yieldMoves moves b) as Hf. now rewrite H in Hf.
Qed.

(** After the yield loop ran to its end, the tile of each of its moves
    with a non-zero value is no longer unknown. *)
Lemma yieldMoves_sets (moves : list Move) (b b' : Board) (ys : list Move) :
  yieldMoves moves b = (b', ys, Ok tt) ->
  forall m, In m moves -> next m <> 0%Z ->
    (exists v, cellAt b (x (tile m)) (y (tile m)) = Some v) ->
    exists v', cellAt b' (x (tile m)) (y (tile m)) = Some v' /\ v' <> 0%Z.
Proof.
  revert b ys. induction moves as [|m0 rest IH]; intros b ys H m Hm Hnz [v Hv];
    [destruct Hm|].
  cbn [yieldMoves] in H.
  destruct (nth_error b (x (tile m0))) as [rw|] eqn:Er; [|discriminate].
  assert (Hcase :
    (exists b1 ys1, yieldMoves rest b1 = (b', ys1, Ok tt)
        /\ (forall x0 y0 u, cellAt b x0 y0 = Some u -> exists u', cellAt b1 x0 y0 = Some u')
        /\ (forall u, cellAt b (x (tile m0)) (y (tile m0)) = Some u -> next m0 <> 0%Z ->
                      exists u', cellAt b1 (x (tile m0)) (y (tile m0)) = Some u'
                                 /\ u' <> 0%Z))).
  { destruct (nth_error rw (y (tile m0))) as [[|q|q]|] eqn:Ec.
    - destruct (yieldMoves rest _) as [[b2 ys2] r2] eqn:E2.
      injection H as <- <- ->.
      exists (setCell b (x (tile m0)) (y (tile m0)) (next m0)), ys2.
      split; [assumption|]. split.
      + intros x0 y0 u Hu. rewrite cellAt_setCell, Hu.
        destruct (_ && _); simpl; eauto.
      + intros u Hu Hn. exists (next m0). split; [|assumption].
        now rewrite cellAt_setCell, !Nat.eqb_refl, Hu.
    - exists b, ys. split; [assumption|]. split; [eauto|].
      intros u Hu _. exists u. split; [assumption|].
      unfold cellAt in Hu. rewrite Er, Ec in Hu. injection Hu as <-. discriminate.
    - exists b, ys. split; [assumption|]. split; [eauto|].
      intros u Hu _. exists u. split; [assumption|].
      unfold cellAt in Hu. rewrite Er, Ec in Hu. injection Hu as <-. discriminate.
    - exists b, ys. split; [assumption|]. split; [eauto|].
      intros u Hu _. unfold cellAt in Hu. rewrite Er, Ec in Hu. discriminate. }
  destruct Hcase as (b1 & ys1 & Hrest & Hvalid & Hhead).
  destruct Hm as [<- | Hm].
  - destruct (Hhead v Hv Hnz) as (u' & Hu' & Hnz').
    destruct (yieldMoves_cell _ _ _ _ _ Hrest _ _ _ Hu') as (v' & Hv' & Hkeep).
    exists v'. split; [assumption|]. now rewrite (Hkeep Hnz').
  - eapply IH; eauto.
Qed.

Lemma retired_line (k : nat) (m : SolutionMap) :
  In k (utils.keys m) -> ~ In k (utils.keys (unsolvedOf m)) ->
  exists l, In (k, [l]) m.
Proof.
  intros Hin Hnot. apply in_map_iff in Hin as [[k' solns] [Ek He]].
  simpl in Ek. subst k'.
  destruct (isLineSolved solns) eqn:Es.
  - unfold isLineSolved in Es. apply Nat.eqb_eq in Es.
    destruct solns as [|l [|l' solns]]; try discriminate. now exists l.
  - exfalso. apply Hnot. apply in_map_iff. exists (k, solns). split; [reflexivity|].
    apply filter_In. simpl. now rewrite Es.
Qed.

Lemma length_mapi {A B : Type} (f : A -> nat -> B) (l : list A) :
  length (mapi f l) = length l.
Proof. unfold mapi. rewrite length_map, length_combine, length_seq. lia. Qed.

(** The pruning phases retire exactly the lines with a single candidate
    and keep the counters equal to the sizes of the maps. *)
Lemma pruneStore_keys (s s' : Store) (rowMoves colMoves : list Move) :
  storeKeysDistinct s ->
  unsolvedRowCount s = Z.of_nat (length (rowMap s)) ->
  unsolvedColCount s = Z.of_nat (length (colMap s)) ->
  pruneStore s rowMoves colMoves = Ok s' ->
  utils.keys (rowMap s') = utils.keys (unsolvedOf (rowMap s))
  /\ utils.keys (colMap s') = utils.keys (unsolvedOf (colMap s))
  /\ unsolvedRowCount s' = Z.of_nat (length (rowMap s'))
  /\ unsolvedColCount s' = Z.of_nat (length (colMap s')).
Proof.
  intros [Hr Hc] Hrc Hcc. unfold pruneStore, utils.values.
  rewrite pruneRows_pruneLines.
  destruct (pruneLines _ _ (rowMap s) (rowMap s) _ _) as [[[rm1 rc1] p1] | e] eqn:E1;
    simpl; [|discriminate].
  rewrite pruneCols_pruneLines.
  destruct (pruneLines _ _ (colMap s) (colMap s) _ _) as [[[cm1 cc1] p2] | e] eqn:E2;
    simpl; [|discriminate].
  pose proof (pruneLines_keys _ _ (rowMap s) [] _ _ _ _ _ Hr E1) as [Kr Cr].
  pose proof (pruneLines_keys _ _ (colMap s) [] _ _ _ _ _ Hc E2) as [Kc Cc].
  simpl in Kr, Kc.
  assert (Lr : rc1 = Z.of_nat (length rm1)).
  { rewrite <- (length_map fst rm1). fold (utils.keys rm1). rewrite Kr.
    unfold utils.keys. rewrite length_map. lia. }
  assert (Lc : cc1 = Z.of_nat (length cm1)).
  { rewrite <- (length_map fst cm1). fold (utils.keys cm1). rewrite Kc.
    unfold utils.keys. rewrite length_map. lia. }
  destruct (p2 >? 0)%Z.
  - intro H. injection H as <-. simpl. auto.
  - destruct (arcPass _ _ _) as [[[rm2 cm2] p3] | e] eqn:E3; simpl; [|discriminate].
    destruct (arcPass_keys _ _ _ _ E3) as [Kr2 Kc2]. simpl in Kr2, Kc2.
    destruct (p3 =? 0)%Z; [discriminate|].
    intro H. injection H as <-. simpl.
    assert (length rm2 = length rm1).
    { rewrite <- (length_map fst rm2), <- (length_map fst rm1).
      fold (utils.keys rm2). now rewrite Kr2. }
    assert (length cm2 = length cm1).
    { rewrite <- (length_map fst cm2), <- (length_map fst cm1).
      fold (utils.keys cm2). now rewrite Kc2. }
    repeat split; congruence.
Qed.

(** The pruning phases keep the candidates well formed. *)
Lemma pruneStore_linesOk (lr lc : nat) (s s' : Store) (rowMoves colMoves : list Move) :
  Forall (linesOk lr) (rowMap s) -> Forall (linesOk lc) (colMap s) ->
  pruneStore s rowMoves colMoves = Ok s' ->
  Forall (linesOk lr) (rowMap s') /\ Forall (linesOk lc) (colMap s').
Proof.
  intros Hlr Hlc. unfold pruneStore, utils.values.
  rewrite pruneRows_pruneLines.
  destruct (pruneLines _ _ (rowMap s) (rowMap s) _ _) as [[[rm1 rc1] p1] | e] eqn:E1;
    simpl; [|discriminate].
  rewrite pruneCols_pruneLines.
  destruct (pruneLines _ _ (colMap s) (colMap s) _ _) as [[[cm1 cc1] p2] | e] eqn:E2;
    simpl; [|discriminate].
  apply (pruneLines_keeps (linesOk lr)) in E1; try assumption;
    [|intros k solns; apply linesOk_filter].
  apply (pruneLines_keeps (linesOk lc)) in E2; try assumption;
    [|intros k solns; apply linesOk_filter].
  destruct (p2 >? 0)%Z.
  - intro H. injection H as <-. simpl. auto.
  - destruct (arcPass _ _ _) as [[[rm2 cm2] p3] | e] eqn:E3; simpl; [|discriminate].
    destruct (arcPass_linesOk lr lc _ _ (rm1, cm1, p2) _ E1 E2 E3) as [Lr2 Lc2].
    destruct (p3 =? 0)%Z; [discriminate|].
    intro H. injection H as <-. simpl. auto.
Qed.

Section SolvedRound.

Variable rules : Rules.

Lemma round_solvedInv (s s' : Store) (b b' : Board) (ms : list Move) :
  solvedInv rules s b -> round s b = (b', ms, Ok s') -> solvedInv rules s' b'.
Proof.
  intros (Hk & Hrc & Hcc & Hlr & Hlc & Hcells) Hround.
  destruct (round_pruneStore _ _ _ _ _ Hround _ eq_refl Hk) as [Hk' _].
  apply round_Ok in Hround
    as (rowMoves & colMoves & b1 & ys1 & ys2 & F1 & F2 & Y1 & Y2 & _ & P).
  destruct (pruneStore_keys _ _ _ _ Hk Hrc Hcc P) as (Kr & Kc & Hrc' & Hcc').
  destruct (pruneStore_linesOk _ _ _ _ _ _ Hlr Hlc P) as (Hlr' & Hlc').
  repeat (split; [assumption|]).
  intros x0 y0 Hx Hy.
  destruct (Hcells x0 y0 Hx Hy) as (v & Hv & Hold).
  destruct (yieldMoves_cell _ _ _ _ _ Y1 _ _ _ Hv) as (v1 & Hv1 & Hkeep1).
  destruct (yieldMoves_cell _ _ _ _ _ Y2 _ _ _ Hv1) as (v2 & Hv2 & Hkeep2).
  exists v2. split; [assumption|]. rewrite Kr, Kc. intro Hnew.
  destruct (in_dec Nat.eq_dec x0 (utils.keys (rowMap s))) as [Hxin | Hxout].
  2:{ assert (v <> 0%Z) by auto. rewrite Hkeep2; rewrite Hkeep1; auto. }
  destruct (in_dec Nat.eq_dec y0 (utils.keys (colMap s))) as [Hyin | Hyout].
  2:{ assert (v <> 0%Z) by auto. rewrite Hkeep2; rewrite Hkeep1; auto. }
  destruct Hnew as [Hnew | Hnew].
  - (* row x0 is retired in this round: its moves cover column y0 *)
    destruct (retired_line _ _ Hxin Hnew) as [l Hl].
    rewrite Forall_forall in Hlr. pose proof (Hlr _ Hl) as Hok.
    unfold linesOk in Hok. simpl in Hok. inversion Hok as [|? ? [Hlen Hnz] _]; subst.
    destruct (nth_error l y0) as [c|] eqn:Ec;
      [|apply nth_error_None in Ec; lia].
    assert (Hc : c <> 0%Z).
    { rewrite Forall_forall in Hnz. apply Hnz. eapply nth_error_In; eassumption. }
    destruct (findValidMoves_single l (utils.keys (colMap s))
                (fun y1 next => {| tile := {| x := x0; y := y1 |}; next := next |})
                y0 c Ec Hyin) as (moves & Hf & Hin).
    pose proof (flatMapR_incl _ _ _ (x0, [l]) moves F1 Hl Hf _ Hin) as Hm.
    destruct (yieldMoves_sets _ _ _ _ Y1 _ Hm Hc (ex_intro _ v Hv))
      as (u & Hu & Hunz). simpl in Hu.
    rewrite Hu in Hv1. injection Hv1 as <-. now rewrite Hkeep2.
  - (* column y0 is retired in this round: its moves cover row x0 *)
    destruct (retired_line _ _ Hyin Hnew) as [l Hl].
    rewrite Forall_forall in Hlc. pose proof (Hlc _ Hl) as Hok.
    unfold linesOk in Hok. simpl in Hok. inversion Hok as [|? ? [Hlen Hnz] _]; subst.
    destruct (nth_error l x0) as [c|] eqn:Ec;
      [|apply nth_error_None in Ec; lia].
    assert (Hc : c <> 0%Z).
    { rewrite Forall_forall in Hnz. apply Hnz. eapply nth_error_In; eassumption. }
    destruct (findValidMoves_single l (utils.keys (rowMap s))
                (fun x1 next => {| tile := {| x := x1; y := y0 |}; next := next |})
                x0 c Ec Hxin) as (moves & Hf & Hin).
    pose proof (flatMapR_incl _ _ _ (y0, [l]) moves F2 Hl Hf _ Hin) as Hm.
    destruct (yieldMoves_sets _ _ _ _ Y2 _ Hm Hc (ex_intro _ v1 Hv1))
      as (u & Hu & Hunz). simpl in Hu.
    rewrite Hu in Hv2. now injection Hv2 as <-.
Qed.

(** When the loop exits by itself, no tile is left unknown. *)
Lemma loop_solved (fuel : nat) (s : Store) (b b' : Board) (ms : list Move) :
  solvedInv rules s b -> loop fuel s b = (b', ms, Returned) ->
  forall x0 y0, x0 < length (row rules) -> y0 < length (column rules) ->
    exists v, cellAt b' x0 y0 = Some v /\ v <> 0%Z.
Proof.
  revert s b ms. induction fuel as [|fuel IH]; intros s b ms Hinv; simpl.
  - destruct (_ || _) eqn:E; [|discriminate].
    intro H. injection H as <- <-. intros x0 y0 Hx Hy.
    destruct Hinv as (_ & Hrc & Hcc & _ & _ & Hcells).
    destruct (Hcells x0 y0 Hx Hy) as (v & Hv & Hnz). exists v. split; [assumption|].
    apply Hnz. apply orb_true_iff in E as [E | E]; apply Z.eqb_eq in E; [left | right].
    + destruct (rowMap s); [auto | simpl in *; lia].
    + destruct (colMap s); [auto | simpl in *; lia].
  - destruct (_ || _) eqn:E.
    + intro H. injection H as <- <-. intros x0 y0 Hx Hy.
      destruct Hinv as (_ & Hrc & Hcc & _ & _ & Hcells).
      destruct (Hcells x0 y0 Hx Hy) as (v & Hv & Hnz). exists v. split; [assumption|].
      apply Hnz. apply orb_true_iff in E as [E | E]; apply Z.eqb_eq in E; [left | right].
      * destruct (rowMap s); [auto | simpl in *; lia].
      * destruct (colMap s); [auto | simpl in *; lia].
    + destruct (round s b) as [[b1 ms1] [s1 | e]] eqn:Er; [|discriminate].
      pose proof (round_solvedInv _ _ _ _ _ Hinv Er) as Hinv1.
      destruct (loop fuel s1 b1) as [[b2 ms2] out] eqn:El.
      intro H. injection H as <- <- ->. eapply IH; eassumption.
Qed.

Lemma initialStore_solvedInv (b : Board) :
  noZeroColour rules ->
  (forall x0 y0, x0 < length (row rules) -> y0 < length (column rules) ->
                 exists v, cellAt b x0 y0 = Some v) ->
  solvedInv rules (initialStore rules) b.
Proof.
  intros [Zr Zc] Hb. split; [apply initialStore_keysDistinct|].
  simpl. rewrite !length_mapi. repeat (split; [reflexivity|]).
  split; [|split].
  - apply Forall_forall. intros e He. apply In_mapi in He as (k & clue & Hk & ->).
    unfold linesOk. simpl. apply Forall_forall. intros l Hl.
    eapply generateLineSolns_lineOk; [|eassumption].
    rewrite Forall_forall in Zr. apply Zr. eapply nth_error_In; eassumption.
  - apply Forall_forall. intros e He. apply In_mapi in He as (k & clue & Hk & ->).
    unfold linesOk. simpl. apply Forall_forall. intros l Hl.
    eapply generateLineSolns_lineOk; [|eassumption].
    rewrite Forall_forall in Zc. apply Zc. eapply nth_error_In; eassumption.
  - intros x0 y0 Hx Hy. destruct (Hb x0 y0 Hx Hy) as [v Hv]. exists v.
    split; [assumption|]. rewrite !NoDup_keys_mapi.
    intros [H | H]; exfalso; apply H; apply in_seq; lia.
Qed.

End SolvedRound.

(** On a board that has a cell for every tile, and for clues that do not
    use the colour id 0, a run of generateMoves that returns leaves no
    tile unknown: the exit of the loop when only one of the two counters
    is zero does not leave a 0 behind. *)
Lemma generateMoves_returned_no_unknown (rules : Rules) (board0 b' : Board)
    (fuel : nat) (ms : list Move) :
  noZeroColour rules ->
  (forall x0 y0, x0 < length (row rules) -> y0 < length (column rules) ->
                 exists v, cellAt board0 x0 y0 = Some v) ->
  generateMovesFuel fuel rules board0 = (b', ms, Returned) ->
  forall x0 y0, x0 < length (row rules) -> y0 < length (column rules) ->
    exists v, cellAt b' x0 y0 = Some v /\ v <> 0%Z.
Proof.
  intros Hz Hb Hrun. eapply loop_solved; [|exact Hrun].
  now apply initialStore_solvedInv.
Qed.

Lemma generateEmptyBoardFor_cell (rules : Rules) (x0 y0 : nat) :
  x0 < length (column rules) -> y0 < length (row rules) ->
  cellAt (generateEmptyBoardFor rules) x0 y0 = Some 0%Z.
Proof.
  intros Hx Hy. unfold cellAt, generateEmptyBoardFor, utils.count.
  rewrite nth_error_map, nth_error_seq.
  destruct (Nat.ltb_spec x0 (length (column rules))); [|lia]. simpl.
  rewrite nth_error_map, nth_error_seq.
  destruct (Nat.ltb_spec y0 (length (row rules))); [|lia]. reflexivity.
Qed.

(** On a square puzzle without colour 0, a result of solve with
    solved=true has no unknown tile, whether the rules can be satisfied
    or not. *)
Lemma solve_square_solved (rules : Rules) (sol : Solution) :
  noZeroColour rules -> length (row rules) = length (column rules) ->
  solve rules = Returns sol -> solved sol = true ->
  forall x0 y0, x0 < length (row rules) -> y0 < length (column rules) ->
    exists v, cellAt (board sol) x0 y0 = Some v /\ v <> 0%Z.
Proof.
  intros Hz Hsq Hsolve Hsolved x0 y0 Hx Hy. unfold solve, generateMoves in Hsolve.
  destruct (generateMovesFuel _ rules _) as [[b' ms] out] eqn:Hrun.
  destruct out as [|[|e]|].
  2:{ discriminate. }
  2:{ injection Hsolve as <-. discriminate. }
  2:{ discriminate. }
  injection Hsolve as <-. simpl.
  assert (Hcover : forall x1 y1, x1 < length (row rules) -> y1 < length (column rules) ->
                     cellAt (generateEmptyBoardFor rules) x1 y1 = Some 0%Z).
  { intros x1 y1 Hx1 Hy1. apply generateEmptyBoardFor_cell; lia. }
  exact (generateMoves_returned_no_unknown rules _ _ _ _ Hz
           (fun x1 y1 H1 H2 => ex_intro _ 0%Z (Hcover x1 y1 H1 H2))
           Hrun x0 y0 Hx Hy).
Qed.

Lemma solve_never_diverges (rules : Rules) : solve rules <> Diverges.
Proof.
  unfold solve.
  pose proof (loop_terminates (S (mass (initialStore rules))) (initialStore rules)
                (generateEmptyBoardFor rules) (initialStore_keysDistinct rules)
                (Nat.lt_succ_diag_r _)) as H.
  unfold generateMoves, generateMovesFuel.
  destruct (loop _ _ _) as [[b' ms] [|[|e]|]]; simpl in H; try discriminate.
  now exfalso.
Qed.

End SolvedBoards.

(* ================================================================== *)
(** ** A solved board is the solution *)
(* ================================================================== *)

Section SolvedSolution.

Variable rules : Rules.
Variable g : Board.
Hypothesis g_solution : isSolution rules g.

Lemma towards_refl (b : Board) : towards g b b.
Proof. intros x0 y0 v Hv. eauto. Qed.

Lemma towards_trans (b1 b2 b3 : Board) :
  towards g b1 b2 -> towards g b2 b3 -> towards g b1 b3.
Proof.
  intros H12 H23 x0 y0 v Hv.
  destruct (H12 _ _ _ Hv) as (v2 & Hv2 & H2).
  destruct (H23 _ _ _ Hv2) as (v3 & Hv3 & H3).
  exists v3. split; [assumption|]. destruct H3 as [-> | H3]; auto.
Qed.

Lemma write_towards (b : Board) (m : Move) :
  agrees g m -> towards g b (setCell b (x (tile m)) (y (tile m)) (next m)).
Proof.
  intros Ha x0 y0 v Hv. rewrite cellAt_setCell, Hv.
  destruct (Nat.eqb (x (tile m)) x0 && Nat.eqb (y (tile m)) y0) eqn:E; simpl.
  - exists (next m). split; [reflexivity|]. right.
    apply andb_true_iff in E as [Ex Ey]. apply Nat.eqb_eq in Ex, Ey. now subst.
  - eauto.
Qed.

Lemma writesZeroOnly_towards (b b' : Board) (ms : list Move) :
  writesZeroOnly b ms b' -> Forall (agrees g) ms -> towards g b b'.
Proof.
  induction 1 as [b | b m ms b' Hz _ IH]; intro Ha; [apply towards_refl|].
  inversion Ha as [|? ? Hm Hms]; subst.
  exact (towards_trans _ _ _ (write_towards b m Hm) (IH Hms)).
Qed.

Lemma yieldMoves_towards (moves : list Move) (b b' : Board) (ys : list Move)
    (r : Res unit) :
  Forall (agrees g) moves -> yieldMoves moves b = (b', ys, r) -> towards g b b'.
Proof.
  intros Ha H. apply writesZeroOnly_towards with (ms := ys).
  - pose proof (respectsFrame_yieldMoves moves b) as Hf. now rewrite H in Hf.
  - apply yieldMoves_incl in H. rewrite Forall_forall in *. auto.
Qed.

(** After the yield loop ran to its end, the tile of each of its moves
    holds the value of the move, on a board that was 0 or [g] there. *)
Lemma yieldMoves_sets_solution (moves : list Move) (b b' : Board) (ys : list Move) :
  Forall (agrees g) moves ->
  yieldMoves moves b = (b', ys, Ok tt) ->
  forall m, In m moves ->
    (exists v, cellAt b (x (tile m)) (y (tile m)) = Some v
               /\ (v = 0%Z \/ cellAt g (x (tile m)) (y (tile m)) = Some v)) ->
    cellAt b' (x (tile m)) (y (tile m)) = Some (next m).
Proof.
  revert b ys. induction moves as [|m0 rest IH]; intros b ys Ha H m Hm (v & Hv & Hpart);
    [destruct Hm|].
  inversion Ha as [|? ? Ha0 Harest]; subst.
  cbn [yieldMoves] in H.
  destruct (nth_error b (x (tile m0))) as [rw|] eqn:Er; [|discriminate].
  assert (Hcase :
    exists b1 ys1, yieldMoves rest b1 = (b', ys1, Ok tt)
      /\ towards g b b1
      /\ (forall u, cellAt b (x (tile m0)) (y (tile m0)) = Some u ->
                    (u = 0%Z \/ cellAt g (x (tile m0)) (y (tile m0)) = Some u) ->
                    cellAt b1 (x (tile m0)) (y (tile m0)) = Some (next m0))).
  { assert (Hnz : forall u, u <> 0%Z ->
                    cellAt b (x (tile m0)) (y (tile m0)) = Some u ->
                    (u = 0%Z \/ cellAt g (x (tile m0)) (y (tile m0)) = Some u) ->
                    cellAt b (x (tile m0)) (y (tile m0)) = Some (next m0)).
    { intros u Hu Hc [-> | Hg]; [contradiction|].
      unfold agrees in Ha0. congruence. }
    destruct (nth_error rw (y (tile m0))) as [[|q|q]|] eqn:Ec.
    - destruct (yieldMoves rest _) as [[b2 ys2] r2] eqn:E2.
      injection H as <- <- ->.
      exists (setCell b (x (tile m0)) (y (tile m0)) (next m0)), ys2.
      split; [assumption|]. split; [now apply write_towards|].
      intros u Hu _. now rewrite cellAt_setCell, !Nat.eqb_refl, Hu.
    - exists b, ys. split; [assumption|]. split; [apply towards_refl|].
      intros u Hu. apply (Hnz u); [|assumption].
      unfold cellAt in Hu. rewrite Er, Ec in Hu. injection Hu as <-. discriminate.
    - exists b, ys. split; [assumption|]. split; [apply towards_refl|].
      intros u Hu. apply (Hnz u); [|assumption].
      unfold cellAt in Hu. rewrite Er, Ec in Hu. injection Hu as <-. discriminate.
    - exists b, ys. split; [assumption|]. split; [apply towards_refl|].
      intros u Hu. unfold cellAt in Hu. rewrite Er, Ec in Hu. discriminate. }
  destruct Hcase as (b1 & ys1 & Hrest & Hto & Hhead).
  destruct Hm as [<- | Hm].
  - pose proof (Hhead v Hv Hpart) as H1.
    destruct (yieldMoves_towards _ _ _ _ _ Harest Hrest _ _ _ H1) as (v' & Hv' & [-> | Hg]);
      [assumption|].
    unfold agrees in Ha0. congruence.
  - apply (IH b1 ys1 Harest Hrest m Hm).
    destruct (Hto _ _ _ Hv) as (v1 & Hv1 & H1). exists v1. split; [assumption|].
    destruct H1 as [-> | H1]; auto.
Qed.

Lemma solution_height : length g = length (row rules).
Proof. destruct g_solution as [Hrows _]. eapply Forall2_length; eassumption. Qed.

Lemma round_solutionInv (s s' : Store) (b b' : Board) (ms : list Move) :
  solutionInv rules g s b -> round s b = (b', ms, Ok s') ->
  solutionInv rules g s' b'.
Proof.
  intros (Hk & Hrc & Hcc & Hkeep & Hcells) Hround.
  destruct (round_pruneStore _ _ _ _ _ Hround _ eq_refl Hk) as [Hk' _].
  destruct (round_sound rules g g_solution _ _ _ _ _ Hkeep Hround) as [_ Hkeep'].
  specialize (Hkeep' s' eq_refl).
  apply round_Ok in Hround
    as (rowMoves & colMoves & b1 & ys1 & ys2 & F1 & F2 & Y1 & Y2 & _ & P).
  pose proof (rowMoves_agree rules g _ _ Hkeep F1) as Arow.
  pose proof (colMoves_agree rules g g_solution _ _ Hkeep F2) as Acol.
  pose proof (yieldMoves_towards _ _ _ _ _ Arow Y1) as T1.
  pose proof (yieldMoves_towards _ _ _ _ _ Acol Y2) as T2.
  destruct (pruneStore_keys _ _ _ _ Hk Hrc Hcc P) as (Kr & Kc & Hrc' & Hcc').
  repeat (split; [assumption|]).
  intros x0 y0 Hx Hy.
  destruct (Hcells x0 y0 Hx Hy) as (v & Hv & Hpart & Hold).
  destruct (T1 _ _ _ Hv) as (v1 & Hv1 & H1).
  assert (Hpart1 : v1 = 0%Z \/ cellAt g x0 y0 = Some v1).
  { destruct H1 as [-> | H1]; auto. }
  destruct (T2 _ _ _ Hv1) as (v2 & Hv2 & H2).
  assert (Hpart2 : v2 = 0%Z \/ cellAt g x0 y0 = Some v2).
  { destruct H2 as [-> | H2]; auto. }
  exists v2. split; [assumption|]. split; [assumption|].
  rewrite Kr, Kc. intro Hnew.
  assert (Hgo : cellAt g x0 y0 = Some v1 -> cellAt g x0 y0 = Some v2).
  { intro Hg1. destruct H2 as [-> | H2]; assumption. }
  assert (Hstay : cellAt g x0 y0 = Some v -> cellAt g x0 y0 = Some v2).
  { intro Hg0. apply Hgo. destruct H1 as [-> | H1]; assumption. }
  destruct (in_dec Nat.eq_dec x0 (utils.keys (rowMap s))) as [Hxin | Hxout];
    [|now apply Hstay, Hold; left].
  destruct (in_dec Nat.eq_dec y0 (utils.keys (colMap s))) as [Hyin | Hyout];
    [|now apply Hstay, Hold; right].
  destruct Hkeep as [Krow Kcol]. rewrite Forall_forall in Krow, Kcol.
  destruct Hnew as [Hnew | Hnew].
  - destruct (retired_line _ _ Hxin Hnew) as [l Hl].
    destruct (Krow _ Hl) as (r & Hr & [<- | []]). simpl in Hr.
    pose proof (solution_row rules g g_solution _ _ Hr) as Hlen.
    destruct (nth_error l y0) as [c|] eqn:Ec; [|apply nth_error_None in Ec; lia].
    destruct (findValidMoves_single l (utils.keys (colMap s))
                (fun y1 next => {| tile := {| x := x0; y := y1 |}; next := next |})
                y0 c Ec Hyin) as (moves & Hf & Hin).
    pose proof (flatMapR_incl _ _ _ (x0, [l]) moves F1 Hl Hf _ Hin) as Hm.
    pose proof (yieldMoves_sets_solution _ _ _ _ Arow Y1 _ Hm
                  (ex_intro _ v (conj Hv Hpart))) as Hset. simpl in Hset.
    apply Hgo. rewrite Hset in Hv1. injection Hv1 as <-.
    unfold cellAt. now rewrite Hr.
  - destruct (retired_line _ _ Hyin Hnew) as [l Hl].
    destruct (Kcol _ Hl) as (Hyw & [El | []]). simpl in Hyw, El. subst l.
    destruct (nth_error (columnOf g y0) x0) as [c|] eqn:Ec.
    2:{ apply nth_error_None in Ec. unfold columnOf in Ec.
        rewrite length_map, solution_height in Ec. lia. }
    destruct (findValidMoves_single (columnOf g y0) (utils.keys (rowMap s))
                (fun x1 next => {| tile := {| x := x1; y := y0 |}; next := next |})
                x0 c Ec Hxin) as (moves & Hf & Hin).
    pose proof (flatMapR_incl _ _ _ (y0, [columnOf g y0]) moves F2 Hl Hf _ Hin) as Hm.
    pose proof (yieldMoves_sets_solution _ _ _ _ Acol Y2 _ Hm
                  (ex_intro _ v1 (conj Hv1 Hpart1))) as Hset. simpl in Hset.
    rewrite Hset in Hv2. injection Hv2 as <-.
    now apply (nth_columnOf rules g g_solution).
Qed.

(** When the loop exits by itself, every tile holds the value of [g]. *)
Lemma loop_solution (fuel : nat) (s : Store) (b b' : Board) (ms : list Move) :
  solutionInv rules g s b -> loop fuel s b = (b', ms, Returned) ->
  forall x0 y0, x0 < length (row rules) -> y0 < length (column rules) ->
    cellAt b' x0 y0 = cellAt g x0 y0.
Proof.
  assert (Hexit : forall s b, solutionInv rules g s b ->
            (unsolvedRowCount s =? 0)%Z || (unsolvedColCount s =? 0)%Z = true ->
            forall x0 y0, x0 < length (row rules) -> y0 < length (column rules) ->
              cellAt b x0 y0 = cellAt g x0 y0).
  { intros s0 b0 (_ & Hrc & Hcc & _ & Hcells) E x0 y0 Hx Hy.
    destruct (Hcells x0 y0 Hx Hy) as (v & Hv & _ & Hret). rewrite Hv. symmetry.
    apply Hret. apply orb_true_iff in E as [E | E]; apply Z.eqb_eq in E; [left | right].
    - destruct (rowMap s0); [auto | simpl in *; lia].
    - destruct (colMap s0); [auto | simpl in *; lia]. }
  revert s b ms. induction fuel as [|fuel IH]; intros s b ms Hinv; simpl.
  - destruct (_ || _) eqn:E; [|discriminate].
    intro H. injection H as <- <-. now apply (Hexit s).
  - destruct (_ || _) eqn:E.
    + intro H. injection H as <- <-. now apply (Hexit s).
    + destruct (round s b) as [[b1 ms1] [s1 | e]] eqn:Er; [|discriminate].
      pose proof (round_solutionInv _ _ _ _ _ Hinv Er) as Hinv1.
      destruct (loop fuel s1 b1) as [[b2 ms2] out] eqn:El.
      intro H. injection H as <- <- ->. eapply IH; eassumption.
Qed.

Lemma initialStore_solutionInv (b : Board) :
  (forall x0 y0, x0 < length (row rules) -> y0 < length (column rules) ->
                 cellAt b x0 y0 = Some 0%Z) ->
  solutionInv rules g (initialStore rules) b.
Proof.
  intro Hb. split; [apply initialStore_keysDistinct|].
  split; [simpl; now rewrite length_mapi|].
  split; [simpl; now rewrite length_mapi|].
  split; [now apply initialStore_keeps|].
  intros x0 y0 Hx Hy. exists 0%Z. split; [now apply Hb|]. split; [now left|].
  simpl. rewrite !NoDup_keys_mapi.
  intros [H | H]; exfalso; apply H; apply in_seq; lia.
Qed.

End SolvedSolution.

Section BoardShape.

Lemma length_setAt {T : Type} (l : list T) (i : nat) (f : T -> T) :
  length (setAt l i f) = length l.
Proof.
  revert i. induction l as [|h t IH]; intros [|i]; simpl; auto.
Qed.

Lemma shape_setCell (b : Board) (x0 y0 : nat) (v : Z) :
  map (@length Z) (setCell b x0 y0 v) = map (@length Z) b.
Proof.
  unfold setCell. revert x0. induction b as [|r b IH]; intros [|x0]; simpl;
    try reflexivity.
  - now rewrite length_setAt.
  - now rewrite IH.
Qed.

Lemma writesZeroOnly_shape (b b' : Board) (ms : list Move) :
  writesZeroOnly b ms b' -> map (@length Z) b' = map (@length Z) b.
Proof.
  induction 1 as [b | b m ms b' _ _ IH]; [reflexivity|].
  now rewrite IH, shape_setCell.
Qed.

(** Two boards of the same shape with the same cells are equal. *)
Lemma board_ext (b g : Board) :
  map (@length Z) b = map (@length Z) g ->
  (forall x0 y0 v, cellAt g x0 y0 = Some v -> cellAt b x0 y0 = Some v) ->
  b = g.
Proof.
  revert g. induction b as [|r b IH]; intros [|r' g] Hs Hc; try discriminate;
    [reflexivity|].
  simpl in Hs. injection Hs as Hl Hs. f_equal.
  - apply nth_error_ext. intro n.
    destruct (nth_error r' n) as [v|] eqn:E.
    + exact (Hc 0 n v E).
    + apply nth_error_None in E. apply nth_error_None. lia.
  - apply IH; [assumption|]. intros x0 y0 v Hv. exact (Hc (S x0) y0 v Hv).
Qed.

End BoardShape.

(** On a puzzle with as many rows as columns whose rules have a solution,
    a result of solve with solved=true carries that solution as its
    board (so its rows and columns realize all the clues). *)
Lemma solve_square_solved_solution (rules : Rules) (g : Board) (sol : Solution) :
  length (row rules) = length (column rules) ->
  isSolution rules g ->
  solve rules = Returns sol -> solved sol = true ->
  board sol = g /\ isSolution rules (board sol).
Proof.
  intros Hsq Hg Hsolve Hsolved.
  assert (Hb : board sol = g); [|now rewrite Hb].
  unfold solve, generateMoves in Hsolve.
  destruct (generateMovesFuel _ rules _) as [[b' ms] out] eqn:Hrun.
  destruct out as [|[|e]|].
  2:{ discriminate. }
  2:{ injection Hsolve as <-. discriminate. }
  2:{ discriminate. }
  injection Hsolve as <-. simpl. unfold generateMovesFuel in Hrun.
  pose proof (loop_frame (S (mass (initialStore rules))) (initialStore rules)
                         (generateEmptyBoardFor rules)) as Hw.
  rewrite Hrun in Hw. simpl in Hw. apply writesZeroOnly_shape in Hw.
  assert (Hcells : forall x0 y0, x0 < length (row rules) -> y0 < length (column rules) ->
                     cellAt b' x0 y0 = cellAt g x0 y0).
  { eapply (loop_solution rules g Hg); [|exact Hrun].
    apply initialStore_solutionInv; [assumption|].
    intros x0 y0 Hx Hy. apply generateEmptyBoardFor_cell; lia. }
  pose proof (solution_height rules g Hg) as Hh.
  apply board_ext.
  - rewrite Hw. unfold generateEmptyBoardFor, utils.count. rewrite map_map.
    apply nth_error_ext. intro n. rewrite !nth_error_map, nth_error_seq.
    destruct (Nat.ltb_spec n (length (column rules))) as [Hn | Hn]; simpl.
    + destruct (nth_error g n) as [r|] eqn:Er.
      * simpl. rewrite length_map, length_seq.
        rewrite (solution_row rules g Hg _ _ Er). f_equal. lia.
      * apply nth_error_None in Er. lia.
    + destruct (nth_error g n) as [r|] eqn:Er; [|reflexivity].
      assert (n < length g) by (apply nth_error_Some; congruence). lia.
  - intros x0 y0 v Hv. rewrite Hcells; [assumption| |].
    + unfold cellAt in Hv. destruct (nth_error g x0) eqn:Er; [|discriminate].
      assert (x0 < length g) by (apply nth_error_Some; congruence). lia.
    + unfold cellAt in Hv. destruct (nth_error g x0) as [r|] eqn:Er; [|discriminate].
      rewrite <- (solution_row rules g Hg _ _ Er). apply nth_error_Some. congruence.
Qed.

(* ================================================================== *)
(** ** The exceptions a round can throw *)
(* ================================================================== *)

Section Errors.

Lemma flatMapR_Ok_each {A B : Type} (f : A -> Res (list B)) (arr : list A)
    (bs : list B) :
  flatMapR f arr = Ok bs -> forall a, In a arr -> exists bs', f a = Ok bs'.
Proof.
  revert bs. induction arr as [|a0 arr IH]; simpl; intros bs H a Ha; [destruct Ha|].
  destruct (f a0) as [bs1 | e] eqn:E1; simpl in H; [|discriminate].
  destruct (flatMapR f arr) as [bs2 | e] eqn:E2; simpl in H; [|discriminate].
  destruct Ha as [<- | Ha]; [eauto | eapply IH; eauto].
Qed.

Lemma flatMapR_Throw {A B : Type} (f : A -> Res (list B)) (arr : list A) (e : Exn) :
  flatMapR f arr = Throw e -> exists a, In a arr /\ f a = Throw e.
Proof.
  induction arr as [|a0 arr IH]; simpl; [discriminate|].
  destruct (f a0) as [bs1 | e1] eqn:E1; simpl.
  - destruct (flatMapR f arr) as [bs2 | e2] eqn:E2; simpl; [discriminate|].
    intro H. injection H as ->. destruct (IH eq_refl) as (a & Ha & Hf). eauto.
  - intro H. injection H as ->. eauto.
Qed.

Lemma findValidMoves_Throw (lines : list Line) (indices : list nat)
    (solnMapper : nat -> Z -> Move) (e : Exn) :
  findValidMoves lines indices solnMapper = Throw e -> lines = [] /\ e = TypeError.
Proof.
  destruct lines; simpl; [|discriminate]. intro H. injection H as <-. auto.
Qed.

Lemma yieldMoves_Throw (moves : list Move) (b b' : Board) (ys : list Move) (e : Exn) :
  yieldMoves moves b = (b', ys, Throw e) -> e = TypeError.
Proof.
  revert b ys. induction moves as [|m rest IH]; simpl; intros b ys H; [discriminate|].
  destruct (nth_error b (x (tile m))) as [rw|]; [|now injection H as _ _ <-].
  destruct (nth_error rw (y (tile m))) as [[| |]|]; try (eapply IH; eassumption).
  destruct (yieldMoves rest _) as [[b0 ys0] r0] eqn:E0.
  injection H as <- <- ->. eapply IH; eassumption.
Qed.

(** The line loop never meets a line without candidates when every line
    of its snapshot has one. *)
Lemma pruneLines_no_conflict (pruneOne : nat -> list Line -> PruneResult)
    (err : nat -> SolutionMap -> Exn) (todo m : SolutionMap) (cnt p : Z) (e : Exn) :
  Forall (fun entry => snd entry <> []) todo ->
  pruneLines pruneOne err todo m cnt p <> Throw e.
Proof.
  revert m cnt p. induction todo as [|[k solns] rest IH]; intros m cnt p Hne; simpl.
  - discriminate.
  - inversion Hne as [|? ? Hk Hrest]; subst. simpl in Hk.
    destruct (isLineSolved solns); [now apply IH|].
    destruct solns as [|l solns]; [contradiction|]. simpl.
    destruct (pruneOne k (l :: solns)). now apply IH.
Qed.

Lemma forEachR_Throw {A S : Type} (P : Exn -> Prop) (body : A -> S -> Res S)
    (arr : list A) :
  (forall a st e, body a st = Throw e -> P e) ->
  forall st e, forEachR body arr st = Throw e -> P e.
Proof.
  intro Hb. induction arr as [|a arr IH]; simpl; intros st e H; [discriminate|].
  destruct (body a st) as [st1 | e1] eqn:E; simpl in H.
  - eapply IH; eassumption.
  - injection H as ->. eapply Hb; eassumption.
Qed.

Lemma arcPass_Throw (xs ys : list nat) st (e : Exn) :
  arcPass xs ys st = Throw e -> e = TypeError.
Proof.
  unfold arcPass. apply (forEachR_Throw (fun e => e = TypeError)).
  intros x0 st1 e1. apply (forEachR_Throw (fun e => e = TypeError)).
  intros y0 [[rm cm] p] e2. unfold arcCell.
  destruct (lookup y0 cm); [|now intro H; injection H].
  destruct (lookup x0 rm); [|now intro H; injection H].
  unfold pruneByColors. cbv zeta. discriminate.
Qed.

(** All a round can throw is a TypeError or the SolveError "Ran out of
    moves": the two "has no solutions" errors are never built, since
    findValidMoves has already thrown on a line without candidates. *)
Lemma round_Throw (s : Store) (b b' : Board) (ms : list Move) (ex : Exn) :
  round s b = (b', ms, Throw ex) ->
  ex = TypeError \/ exists e, ex = Thrown e /\ message e = RanOutOfMoves.
Proof.
  unfold round, bindG, liftG.
  destruct (flatMapR _ (utils.values (rowMap s))) as [rowMoves | e] eqn:E1.
  2:{ intro H. injection H as _ _ <-. left.
      apply flatMapR_Throw in E1 as (a & _ & Hf).
      now apply findValidMoves_Throw in Hf. }
  destruct (flatMapR _ (utils.values (colMap s))) as [colMoves | e] eqn:E2.
  2:{ intro H. injection H as _ _ <-. left.
      apply flatMapR_Throw in E2 as (a & _ & Hf).
      now apply findValidMoves_Throw in Hf. }
  destruct (yieldMoves rowMoves b) as [[b1 ys1] [[] | e]] eqn:Y1.
  2:{ intro H. injection H as _ _ <-. left. eapply yieldMoves_Throw; eassumption. }
  destruct (yieldMoves colMoves b1) as [[b2 ys2] [[] | e]] eqn:Y2.
  2:{ intro H. injection H as _ _ <-. left. eapply yieldMoves_Throw; eassumption. }
  intro H. injection H as _ _ H. revert H.
  assert (Nr : Forall (fun entry : nat * list (list Z) => snd entry <> []) (rowMap s)).
  { apply Forall_forall. intros a Ha Hnil.
    destruct (flatMapR_Ok_each _ _ _ E1 a Ha) as [bs Hf].
    unfold findMovesFromRow in Hf. rewrite Hnil in Hf. discriminate. }
  assert (Nc : Forall (fun entry : nat * list (list Z) => snd entry <> []) (colMap s)).
  { apply Forall_forall. intros a Ha Hnil.
    destruct (flatMapR_Ok_each _ _ _ E2 a Ha) as [bs Hf].
    unfold findMovesFromCol in Hf. rewrite Hnil in Hf. discriminate. }
  unfold pruneStore, utils.values. rewrite pruneRows_pruneLines.
  destruct (pruneLines _ _ (rowMap s) (rowMap s) _ _) as [[[rm1 rc1] p1] | e] eqn:P1.
  2:{ exfalso. exact (pruneLines_no_conflict _ _ _ _ _ _ _ Nr P1). }
  simpl. rewrite pruneCols_pruneLines.
  destruct (pruneLines _ _ (colMap s) (colMap s) _ _) as [[[cm1 cc1] p2] | e] eqn:P2.
  2:{ exfalso. exact (pruneLines_no_conflict _ _ _ _ _ _ _ Nc P2). }
  simpl. destruct (p2 >? 0)%Z; [discriminate|].
  destruct (arcPass _ _ _) as [[[rm2 cm2] p3] | e] eqn:P3; simpl.
  - destruct (p3 =? 0)%Z; [|discriminate].
    intro H. injection H as <-. right. eexists. split; reflexivity.
  - intro H. injection H as <-. left. eapply arcPass_Throw; eassumption.
Qed.

End Errors.

Section Examples.

(** The 1x1 rules whose row asks for one cell of colour 1 and whose
    column asks for no cell at all: no grid satisfies both. *)
Lemma contradictory_rules_no_solution (g : Board) :
  ~ isSolution {| column := [[]]; row := [[R 1 1]] |} g.
Proof.
  intros [Hrows Hcols]. simpl in *.
  inversion Hrows as [|r clue g' rest [Hlen Hruns] Hrest]; subst.
  inversion Hrest; subst.
  specialize (Hcols 0 [] eq_refl).
  destruct r as [|c [|c' r]]; try discriminate.
  unfold columnOf in Hcols. cbn [map nth runs] in *.
  destruct (Z.eqb c (-1)); discriminate.
Qed.

End Examples.

(** C6 (amended).  For every Rules input that has a full-board solution,
    every Move yielded by generateMoves sets its tile to the value that
    solution has there; this holds for every solution of the Rules, for
    every board given to generateMoves and however the run ends, so a
    yielded move never needs to be undone. *)
Theorem yielded_moves_agree_with_solution :
  forall (rules : Rules) (g : Board) (board0 : Board) (fuel : nat),
    isSolution rules g ->
    Forall (agrees g) (snd (fst (generateMovesFuel fuel rules board0))).
Proof.
  intros rules g board0 fuel Hg. unfold generateMovesFuel.
  apply (loop_sound rules g Hg). now apply initialStore_keeps.
Qed.

Lemma yielded_moves_agree_with_solution_witness :
  isSolution {| column := [[R 1 1]; [R 1 1]]; row := [[]; [R 2 1]] |}
             [[-1; -1]; [1; 1]]%Z
  /\ Forall (agrees [[-1; -1]; [1; 1]]%Z)
            (snd (fst (generateMoves
                         {| column := [[R 1 1]; [R 1 1]]; row := [[]; [R 2 1]] |}
                         [[0; 0]; [0; 0]]%Z))).
Proof.
  assert (Hs : isSolution {| column := [[R 1 1]; [R 1 1]]; row := [[]; [R 2 1]] |}
                          [[-1; -1]; [1; 1]]%Z).
  { split.
    - repeat constructor.
    - intros [|[|[|k]]] clue H; simpl in H; try discriminate;
        injection H as <-; reflexivity. }
  split; [exact Hs|].
  exact (yielded_moves_agree_with_solution _ _ [[0; 0]; [0; 0]]%Z _ Hs).
Defined.

(** C6, as stated, fails on rules without a solution: for the 1x1 rules
    with row clue [{count: 1, val: 1}] and an empty column clue,
    generateMoves yields the move (0, 0) := 1 although no full-board
    solution exists. *)
Lemma move_yielded_without_solution :
  snd (fst (generateMoves {| column := [[]]; row := [[R 1 1]] |} [[0%Z]]))
  = [{| tile := {| x := 0; y := 0 |}; next := 1%Z |}]
  /\ forall g, ~ isSolution {| column := [[]]; row := [[R 1 1]] |} g.
Proof.
  split; [reflexivity | exact contradictory_rules_no_solution].
Qed.

(** C7.  The solver loop always stops: a run of generateMoves ends within
    (initial candidate mass + 1) rounds, a larger round budget changes
    nothing, and every round that continues strictly decreases the total
    candidate mass (candidates of the lines in the maps, plus the number
    of those lines).  But the run need not end in "solved" or in the
    Unsolvable error: on a 3x3 board whose row 0 has the clue
    [{count: 2, val: 1}, {count: 2, val: 1}] it ends with a TypeError. *)
Theorem generateMoves_terminates :
  (forall (rules : Rules) (board0 : Board),
      snd (generateMoves rules board0) <> OutOfFuel
      /\ forall fuel, S (mass (initialStore rules)) <= fuel ->
                      generateMovesFuel fuel rules board0 = generateMoves rules board0)
  /\ (forall (s s' : Store) (b b' : Board) (ms : list Move),
         storeKeysDistinct s -> round s b = (b', ms, Ok s') ->
         storeKeysDistinct s' /\ mass s' < mass s)
  /\ snd (generateMoves
            {| column := [[]; []; []]; row := [[R 2 1; R 2 1]; []; []] |}
            [[0; 0; 0]; [0; 0; 0]; [0; 0; 0]]%Z)
     = Raised TypeError.
Proof.
  split; [|split].
  - intros rules board0.
    assert (H : snd (generateMoves rules board0) <> OutOfFuel).
    { apply loop_terminates; [apply initialStore_keysDistinct | lia]. }
    split; [exact H|]. intros fuel Hf. now apply loop_more_fuel.
  - intros s s' b b' ms Hk Hr. eapply round_pruneStore; eauto.
  - reflexivity.
Qed.

Lemma generateMoves_terminates_witness :
  generateMovesFuel 100 {| column := [[R 1 1]; [R 1 1]]; row := [[]; [R 2 1]] |}
                    [[0; 0]; [0; 0]]%Z
  = generateMoves {| column := [[R 1 1]; [R 1 1]]; row := [[]; [R 2 1]] |}
                  [[0; 0]; [0; 0]]%Z.
Proof.
  apply (proj1 generateMoves_terminates
           {| column := [[R 1 1]; [R 1 1]]; row := [[]; [R 2 1]] |}
           [[0; 0]; [0; 0]]%Z).
  vm_compute. lia.
Defined.

(** C1.  solve can report solved=true with a board that does not satisfy
    the clues.  On the puzzle of 1 row and 2 columns with row clue
    [{count: 2, val: 1}] and column clues [{count: 1, val: 1}] twice,
    which the grid [[1, 1]] solves, it returns solved=true with the board
    [[1], [0]], whose row 0 parses to a run of one cell instead of two.
    On the 1x1 rules with row clue [{count: 1, val: 1}] and an empty
    column clue, which no grid satisfies, it returns solved=true with the
    board [[1]], whose column 0 parses to one run instead of none. *)
Theorem solve_solved_board_breaks_clues :
  (solve {| column := [[R 1 1]; [R 1 1]]; row := [[R 2 1]] |}
   = Returns {| board := [[1]; [0]]%Z; solved := true;
                unsolved_rows := []; unsolved_columns := [] |}
   /\ isSolution {| column := [[R 1 1]; [R 1 1]]; row := [[R 2 1]] |} [[1; 1]]%Z
   /\ runs [1%Z] = [R 1 1]
   /\ nth_error (row {| column := [[R 1 1]; [R 1 1]]; row := [[R 2 1]] |}) 0
      = Some [R 2 1])
  /\
  (solve {| column := [[]]; row := [[R 1 1]] |}
   = Returns {| board := [[1%Z]]; solved := true;
                unsolved_rows := []; unsolved_columns := [] |}
   /\ runs (columnOf [[1%Z]] 0) = [R 1 1]
   /\ nth_error (column {| column := [[]]; row := [[R 1 1]] |}) 0 = Some []
   /\ ~ isSolution {| column := [[]]; row := [[R 1 1]] |} [[1%Z]]).
Proof.
  split.
  - split; [reflexivity|]. split; [|split; reflexivity]. split.
    + repeat constructor.
    + intros [|[|[|k]]] clue H; simpl in H; try discriminate;
        injection H as <-; reflexivity.
  - repeat split. apply contradictory_rules_no_solution.
Qed.

(** C2.  solve can report solved=true while the board still holds a 0
    cell: on the board of 1 row and 2 columns with row clue
    [{count: 2, val: 1}] and column clues [{count: 1, val: 1}] twice, it
    returns solved=true with the board [[1], [0]]. *)
Theorem solve_solved_with_unknown_cell :
  solve {| column := [[R 1 1]; [R 1 1]]; row := [[R 2 1]] |}
  = Returns {| board := [[1]; [0]]%Z; solved := true;
               unsolved_rows := []; unsolved_columns := [] |}
  /\ cellAt [[1]; [0]]%Z 1 0 = Some 0%Z.
Proof. split; reflexivity. Qed.

(** C3.  The board solve creates has as many rows as there are column
    clues, each with as many cells as there are row clues: the two counts
    are exchanged.  For 1 row clue and 2 column clues the board is
    [[0], [0]], with 2 rows of 1 cell. *)
Theorem generateEmptyBoardFor_dimensions_exchanged :
  (forall rules : Rules,
      length (generateEmptyBoardFor rules) = length (column rules)
      /\ Forall (fun r => length r = length (row rules)) (generateEmptyBoardFor rules))
  /\ generateEmptyBoardFor {| column := [[]; []]; row := [[]] |} = [[0]; [0]]%Z
  /\ length (generateEmptyBoardFor {| column := [[]; []]; row := [[]] |})
     <> length (row {| column := [[]; []]; row := [[]] |}).
Proof.
  split; [|split; [reflexivity | discriminate]].
  intro rules. unfold generateEmptyBoardFor, utils.count.
  rewrite length_map, length_seq. split; [reflexivity|].
  apply Forall_map, Forall_forall. intros i _. now rewrite length_map, length_seq.
Qed.

(** C4.  A clue that cannot fit its line does not lead to the Unsolvable
    error: for line length 3 and the clue
    [{count: 2, val: 1}, {count: 2, val: 1}] the candidate list is empty,
    and both generateMoves and solve end with a TypeError (raised by
    findValidMoves reading [lines[0].length] on the empty list).  In
    general a round throws either a TypeError or the SolveError "Ran out
    of moves"; a line without candidates is never reported by a
    SolveError. *)
Theorem unfit_clue_raises_TypeError :
  generateLineSolns 3 [R 2 1; R 2 1] = []
  /\ findValidMoves [] [0; 1; 2]
       (fun y next => {| tile := {| x := 0; y := y |}; next := next |})
     = Throw TypeError
  /\ snd (generateMoves
            {| column := [[]; []; []]; row := [[R 2 1; R 2 1]; []; []] |}
            [[0; 0; 0]; [0; 0; 0]; [0; 0; 0]]%Z)
     = Raised TypeError
  /\ solve {| column := [[]; []; []]; row := [[R 2 1; R 2 1]; []; []] |}
     = Throws TypeError
  /\ forall (s : Store) (b b' : Board) (ms : list Move) (ex : Exn),
       round s b = (b', ms, Throw ex) ->
       ex = TypeError \/ exists e, ex = Thrown e /\ message e = RanOutOfMoves.
Proof.
  repeat split. exact round_Throw.
Qed.

Lemma unfit_clue_raises_TypeError_witness :
  round (initialStore {| column := [[R 1 1]; [R 1 1]]; row := [[R 1 1]; [R 1 1]] |})
        [[0; 0]; [0; 0]]%Z
  = ([[0; 0]; [0; 0]]%Z, [],
     Throw (Thrown {| message := RanOutOfMoves;
                      unsolvedRows := [0; 1]; unsolvedColumns := [0; 1] |}))
  /\ (Thrown {| message := RanOutOfMoves;
                unsolvedRows := [0; 1]; unsolvedColumns := [0; 1] |} = TypeError
      \/ exists e, Thrown {| message := RanOutOfMoves;
                             unsolvedRows := [0; 1]; unsolvedColumns := [0; 1] |}
                   = Thrown e
                   /\ message e = RanOutOfMoves).
Proof.
  split; [reflexivity|].
  apply (proj2 (proj2 (proj2 (proj2 unfit_clue_raises_TypeError)))
           (initialStore {| column := [[R 1 1]; [R 1 1]]; row := [[R 1 1]; [R 1 1]] |})
           [[0; 0]; [0; 0]]%Z [[0; 0]; [0; 0]]%Z []).
  reflexivity.
Defined.

(* ================================================================== *)
(** ** Drawing a board *)
(* ================================================================== *)

Section Drawing.

Lemma tile_glyph (x : Z) : Draw.tile x = [glyph x].
Proof.
  unfold Draw.tile, glyph, fromCharCode.
  destruct (Z.eqb x 0); [reflexivity|]. now destruct (Z.eqb x (-1)).
Qed.

Lemma join_empty_sep (parts : list (list Z)) : join [] parts = concat parts.
Proof.
  induction parts as [|part rest IH]; [reflexivity|].
  cbn [join concat]. destruct rest as [|q rest].
  - simpl. now rewrite app_nil_r.
  - rewrite <- IH. reflexivity.
Qed.

Lemma draw_row (row : list Z) :
  join [] (map Draw.tile row) = map glyph row.
Proof.
  rewrite join_empty_sep. induction row as [|c row IH]; [reflexivity|].
  simpl. now rewrite tile_glyph, IH.
Qed.

Lemma join_cons (sep part : list Z) (rest : list (list Z)) :
  join sep (part :: rest)
  = part ++ match rest with [] => [] | _ :: _ => sep ++ join sep rest end.
Proof. destruct rest; simpl; [now rewrite app_nil_r | reflexivity]. Qed.

Lemma length_join_newline (rows : list (list Z)) :
  length (join [10%Z] rows) + 1
  = fold_right (fun r acc => length r + 1 + acc) 0 rows
    + match rows with [] => 1 | _ :: _ => 0 end.
Proof.
  induction rows as [|r rest IH]; [reflexivity|].
  rewrite join_cons. cbn [fold_right]. rewrite length_app.
  destruct rest as [|q rest]; [simpl; lia|].
  rewrite length_app. cbn [fold_right] in *.
  change (length [10%Z]) with 1. lia.
Qed.

Lemma glyph_drawable (x : Z) :
  drawable x ->
  glyph x <> 10%Z
  /\ (glyph x = 63%Z <-> x = 0%Z)
  /\ (glyph x = 32%Z <-> x = (-1)%Z).
Proof.
  unfold drawable, glyph. intros [-> | [-> | Hx]]; simpl.
  - repeat split; intros; try discriminate; reflexivity.
  - repeat split; intros; try discriminate; reflexivity.
  - destruct (Z.eqb_spec x 0) as [-> | _]; [lia|].
    destruct (Z.eqb_spec x (-1)) as [-> | _]; [lia|].
    rewrite Z.mod_small by lia. repeat split; intros; lia.
Qed.

Lemma glyph_inj (x x' : Z) :
  drawable x -> drawable x' -> glyph x = glyph x' -> x = x'.
Proof.
  intros Hx Hx' E.
  destruct (glyph_drawable x Hx) as (_ & Hq & Hs).
  destruct (glyph_drawable x' Hx') as (_ & Hq' & Hs').
  destruct (Z.eq_dec x 0) as [-> | N0].
  { symmetry. apply Hq'. rewrite <- E. reflexivity. }
  destruct (Z.eq_dec x (-1)) as [-> | N1].
  { symmetry. apply Hs'. rewrite <- E. reflexivity. }
  destruct (Z.eq_dec x' 0) as [-> | N0'].
  { exfalso. apply N0, Hq. rewrite E. reflexivity. }
  destruct (Z.eq_dec x' (-1)) as [-> | N1'].
  { exfalso. apply N1, Hs. rewrite E. reflexivity. }
  unfold drawable in Hx, Hx'. unfold glyph in E.
  destruct (Z.eqb_spec x 0); [lia|]. destruct (Z.eqb_spec x (-1)); [lia|].
  destruct (Z.eqb_spec x' 0); [lia|]. destruct (Z.eqb_spec x' (-1)); [lia|].
  rewrite !Z.mod_small in E by lia. lia.
Qed.

Lemma map_glyph_inj (r r' : list Z) :
  Forall drawable r -> Forall drawable r' -> map glyph r = map glyph r' -> r = r'.
Proof.
  revert r'. induction r as [|c r IH]; intros [|c' r'] Hr Hr' E; try discriminate;
    [reflexivity|].
  inversion Hr; inversion Hr'; subst. simpl in E. injection E as Ec E.
  f_equal; [now apply glyph_inj | now apply IH].
Qed.

Lemma no_newline_in_row (r : list Z) :
  Forall drawable r -> ~ In 10%Z (map glyph r).
Proof.
  intros Hr Hin. apply in_map_iff in Hin as [c [Hc Hin]].
  rewrite Forall_forall in Hr. now apply (glyph_drawable c (Hr c Hin)).
Qed.

(** Two lines without newline followed by nothing or by a newline are
    equal when the whole texts are. *)
Lemma line_split_inj (r r' t t' : list Z) :
  ~ In 10%Z r -> ~ In 10%Z r' ->
  (t = [] \/ exists u, t = 10%Z :: u) -> (t' = [] \/ exists u, t' = 10%Z :: u) ->
  r ++ t = r' ++ t' -> r = r' /\ t = t'.
Proof.
  revert r'. induction r as [|c r IH]; intros [|c' r'] Hr Hr' Ht Ht' E; simpl in *.
  - auto.
  - exfalso. destruct Ht as [-> | [u ->]]; [discriminate|].
    injection E as <- _. apply Hr'. now left.
  - exfalso. destruct Ht' as [-> | [u ->]]; [discriminate|].
    injection E as -> _. apply Hr. now left.
  - injection E as -> E.
    destruct (IH r') as [-> ->]; auto.
Qed.

Lemma join_newline_inj (rows rows' : list (list Z)) :
  rows <> [] -> rows' <> [] ->
  Forall (fun r => ~ In 10%Z r) rows -> Forall (fun r => ~ In 10%Z r) rows' ->
  join [10%Z] rows = join [10%Z] rows' -> rows = rows'.
Proof.
  revert rows'. induction rows as [|r rest IH]; intros [|r' rest'] Hn Hn' Hf Hf' E;
    try contradiction.
  inversion Hf as [|? ? Hr Hrest]; inversion Hf' as [|? ? Hr' Hrest']; subst.
  rewrite !join_cons in E.
  apply line_split_inj in E as [-> Et]; try assumption.
  - f_equal. destruct rest as [|q rest], rest' as [|q' rest']; try discriminate;
      [reflexivity|].
    simpl app in Et. injection Et as Et. apply IH; try assumption; discriminate.
  - destruct rest; [now left | right; eexists; reflexivity].
  - destruct rest'; [now left | right; eexists; reflexivity].
Qed.

End Drawing.

(** X1.  draw is one-to-one on the boards it is made for: two boards with
    at least one row each, whose cells are -1, 0 or a colour between 1 and
    65471, and that are drawn as the same text, are the same board.  On
    such cells a "?" stands for 0 only, a " " for -1 only, and no cell is
    drawn as a newline.  (The board without rows and the board with one
    empty row are both drawn as the empty text.) *)
Theorem draw_injective :
  forall (b b' : list (list Z)),
    b <> [] -> b' <> [] ->
    Forall (Forall drawable) b -> Forall (Forall drawable) b' ->
    Draw.draw b = Draw.draw b' -> b = b'.
Proof.
  intros b b' Hn Hn' Hd Hd' E. unfold Draw.draw in E.
  assert (Hrows : forall l : list (list Z),
            map (fun row => join [] (map Draw.tile row)) l = map (map glyph) l).
  { intro l. apply map_ext. intro row. apply draw_row. }
  rewrite !Hrows in E.
  apply join_newline_inj in E.
  - revert b' Hd' E Hn'. clear Hn. induction Hd as [|r b Hr _ IH]; intros [|r' b'] Hd' E Hn';
      try discriminate; [reflexivity|].
    inversion Hd' as [|? ? Hr' Hb']; subst. simpl in E. injection E as Er E.
    f_equal; [now apply map_glyph_inj|].
    destruct b as [|q b], b' as [|q' b']; try discriminate; [reflexivity|].
    apply IH; try assumption; discriminate.
  - destruct b; [contradiction | discriminate].
  - destruct b'; [contradiction | discriminate].
  - apply Forall_map. eapply Forall_impl; [|exact Hd]. apply no_newline_in_row.
  - apply Forall_map. eapply Forall_impl; [|exact Hd']. apply no_newline_in_row.
Qed.

Lemma draw_injective_witness :
  Draw.draw [[1; -1]; [0; 2]]%Z = [65; 32; 10; 63; 66]%Z
  /\ (Draw.draw [[1; -1]; [0; 2]]%Z = Draw.draw [[1; -1]; [0; 2]]%Z ->
      [[1; -1]; [0; 2]]%Z = [[1; -1]; [0; 2]]%Z).
Proof.
  split; [reflexivity|].
  apply (draw_injective [[1; -1]; [0; 2]]%Z [[1; -1]; [0; 2]]%Z).
  - discriminate.
  - discriminate.
  - repeat constructor; unfold drawable; lia.
  - repeat constructor; unfold drawable; lia.
Defined.

(** X2.  The text draw makes has one code unit per cell and one newline
    between consecutive rows: its length is the number of cells plus the
    number of rows minus one (0 for a board without rows), whatever the
    cells hold. *)
Theorem draw_length :
  forall b : list (list Z),
    length (Draw.draw b) + match b with [] => 0 | _ :: _ => 1 end
    = fold_right (fun r acc => length r + acc) 0 b + length b.
Proof.
  intro b. unfold Draw.draw.
  pose proof (length_join_newline (map (fun row => join [] (map Draw.tile row)) b)) as H.
  assert (Hsum : fold_right (fun r acc => length r + 1 + acc) 0
                   (map (fun row => join [] (map Draw.tile row)) b)
                 = fold_right (fun r acc => length r + acc) 0 b + length b).
  { clear H. induction b as [|r b IH]; [reflexivity|].
    simpl. rewrite IH, draw_row, length_map. lia. }
  rewrite Hsum in H. destruct b; simpl in *; lia.
Qed.

(* ================================================================== *)
(** ** Combinations and candidate lines, continued *)
(* ================================================================== *)

Section CombinationsMore.

Lemma binom_zero_iff (n k : nat) : binom n k = 0 <-> n < k.
Proof.
  revert k. induction n as [|n IH]; intros [|k]; simpl.
  - split; [discriminate | lia].
  - split; [lia | reflexivity].
  - split; [discriminate | lia].
  - pose proof (IH k) as H1. pose proof (IH (S k)) as H2. lia.
Qed.

Lemma increasingFrom_start_le (lo max : nat) (a : list nat) :
  increasingFrom lo max a -> lo <= max.
Proof. intro H. apply increasingFrom_bound in H. lia. Qed.

Lemma combs_past_max (max pick start : nat) :
  max <= start -> combs max (S pick) start = [].
Proof. intro H. cbn [combs]. now replace (max - start) with 0 by lia. Qed.

End CombinationsMore.

(** X3.  choose(max, pick, start) with pick >= 1 lists exactly the
    strictly increasing sequences of pick integers taken in
    [start, max): every such sequence is listed, nothing else is, none is
    listed twice, they come in lexicographic order, and there are
    C(max - start, pick) of them (none when max <= start or max is
    negative).  With pick = 0 the result is the empty list, not the list
    holding the empty sequence. *)
Theorem choose_lists_increasing_sequences :
  forall (max : Z) (pick start : nat),
    utils.choose max 0 start = []
    /\ (1 <= pick ->
        (forall a, In a (utils.choose max pick start)
                   <-> length a = pick /\ increasingFrom start (Z.to_nat max) a)
        /\ NoDup (utils.choose max pick start)
        /\ StronglySorted lexLt (utils.choose max pick start)
        /\ length (utils.choose max pick start)
           = binom (Z.to_nat max - start) pick).
Proof.
  intros max pick start. split; [reflexivity|]. intro Hp.
  destruct pick as [|pick]; [lia|]. rewrite choose_combs.
  split; [|split; [|split]].
  - intro a. destruct (le_lt_dec start (Z.to_nat max)) as [Hle | Hgt].
    + now apply In_combs.
    + rewrite combs_past_max by lia. split; [intros []|].
      intros [_ Hinc]. apply increasingFrom_start_le in Hinc. lia.
  - eapply StronglySorted_NoDup; [exact lexLt_irrefl | apply combs_sorted].
  - apply combs_sorted.
  - apply length_combs.
Qed.

Lemma choose_lists_increasing_sequences_witness :
  In [1; 3] (utils.choose 4 2 1)
  /\ length (utils.choose 4 2 1) = 3.
Proof.
  destruct (proj2 (choose_lists_increasing_sequences 4 2 1)) as (Hin & _ & _ & Hlen).
  - lia.
  - split; [|exact Hlen]. apply Hin. simpl. lia.
Defined.

Lemma generateLineSolns_nil_iff (lineLength : nat) (rule : Rule) :
  generateLineSolns lineLength rule = []
  <-> lineLength < sumOfColoredSpaces rule + mandatorySpaces rule.
Proof.
  pose proof (generateLineSolns_combs lineLength rule) as Hc. cbv zeta in Hc.
  assert (Hlen : length (generateLineSolns lineLength rule)
                 = binom (Z.to_nat (totalSlots lineLength rule)) (length rule)).
  { rewrite Hc, length_map, length_combs. now rewrite Nat.sub_0_r. }
  rewrite totalSlots_nat, blockCells_taggedRule in Hlen.
  split.
  - intro E. rewrite E in Hlen. symmetry in Hlen.
    apply binom_zero_iff in Hlen. lia.
  - intro Hlt. apply length_zero_iff_nil. rewrite Hlen.
    apply binom_zero_iff.
    destruct rule as [|r rule].
    + exfalso. unfold sumOfColoredSpaces, mandatorySpaces in Hlt. simpl in Hlt. lia.
    + cbn [length]. lia.
Qed.

(** X4.  A clue has no candidate line exactly when it cannot fit: the
    cells of its runs plus one blank between adjacent runs of the same
    colour are more than the line has.  In particular the empty clue
    always has a candidate, and a clue that fits has at least one. *)
Theorem generateLineSolns_empty_iff_unfit :
  forall (lineLength : nat) (rule : Rule),
    (generateLineSolns lineLength rule = []
     <-> lineLength < sumOfColoredSpaces rule + mandatorySpaces rule)
    /\ generateLineSolns lineLength [] <> [].
Proof.
  intros lineLength rule. split; [apply generateLineSolns_nil_iff|].
  intro H. apply generateLineSolns_nil_iff in H.
  unfold sumOfColoredSpaces, mandatorySpaces in H. simpl in H. lia.
Qed.

(** X5.  Every candidate line is made of blanks and of colours of its
    clue only: each of its cells is -1 or the val of a run of the clue.
    For the empty clue the only candidate is the all-blank line. *)
Theorem generateLineSolns_cells_from_clue :
  forall (lineLength : nat) (rule : Rule),
    generateLineSolns lineLength [] = [repeat (-1)%Z lineLength]
    /\ forall l c, In l (generateLineSolns lineLength rule) -> In c l ->
                   c = (-1)%Z \/ exists r, In r rule /\ val r = c.
Proof.
  intros lineLength rule. split.
  - unfold generateLineSolns. simpl. now rewrite count_const.
  - intros l c Hl Hc.
    rewrite generateLineSolns_combs in Hl. cbv zeta in Hl.
    apply in_map_iff in Hl as [a [<- _]].
    pose proof (decode_cells (tagFrom None rule) 0
                  (Z.to_nat (totalSlots lineLength rule)) a) as Hf.
    rewrite Forall_forall in Hf. destruct (Hf c Hc) as [-> | Hin]; [now left|].
    right. rewrite map_t_val_tagFrom in Hin.
    apply in_map_iff in Hin as [r [Hr Hin]]. now exists r.
Qed.

Lemma generateLineSolns_cells_from_clue_witness :
  In 2%Z [2; 2; -1; 1]%Z
  /\ (2%Z = (-1)%Z \/ exists r, In r [R 2 2; R 1 1] /\ val r = 2%Z).
Proof.
  split; [simpl; tauto|].
  apply (proj2 (generateLineSolns_cells_from_clue 4 [R 2 2; R 1 1])
           [2; 2; -1; 1]%Z 2%Z).
  - vm_compute. tauto.
  - simpl. tauto.
Defined.

(* ================================================================== *)
(** ** Forced cells and the two pruners *)
(* ================================================================== *)

Section LinePruning.

Lemma findValidMoves_complete (lines : list Line) (indices : list nat)
    (solnMapper : nat -> Z -> Move) (moves : list Move) (i : nat) (v : Z) :
  findValidMoves lines indices solnMapper = Ok moves ->
  In i indices -> (forall l, In l lines -> nth_error l i = Some v) ->
  In (solnMapper i v) moves.
Proof.
  unfold findValidMoves. destruct lines as [|line0 rest]; [discriminate|].
  intros H Hi Hall. injection H as <-.
  assert (H0 : nth_error line0 i = Some v) by (apply Hall; now left).
  apply in_flat_map. exists i. split.
  - apply in_seq. split; [lia|]. simpl. apply nth_error_Some. congruence.
  - apply includes_true in Hi. rewrite Hi. cbn [negb].
    match goal with
    | |- In _ (if ?c then _ else _) => assert (Ea : c = true)
    end.
    { cbn [forallb]. apply andb_true_intro. split; [apply strictEq_refl|].
      apply forallb_forall. intros n Hn. apply strictEq_true.
      rewrite H0. apply Hall. now right. }
    rewrite Ea, H0. now left.
Qed.

Lemma findValidMoves_index (lines : list Line) (indices : list nat)
    (solnMapper : nat -> Z -> Move) (moves : list Move) (m : Move) :
  findValidMoves lines indices solnMapper = Ok moves -> In m moves ->
  exists i v, m = solnMapper i v /\ In i indices
              /\ forall l, In l lines -> nth_error l i = Some v.
Proof.
  intros H Hm.
  destruct (findValidMoves_sound _ _ _ _ H m Hm) as (i & v & -> & Hall).
  unfold findValidMoves in H. destruct lines as [|line0 rest]; [discriminate|].
  injection H as <-.
  apply in_flat_map in Hm as [j [_ Hm]].
  destruct (includes indices j) eqn:Ej; cbn [negb] in Hm; [|destruct Hm].
  match type of Hm with
  | In _ (if ?c then _ else _) => destruct c eqn:Ea; [|destruct Hm]
  end.
  destruct (nth_error line0 j) as [w|] eqn:Ew; [|destruct Hm].
  destruct Hm as [E | []].
  exists j, w. split; [now symmetry|]. split; [now apply includes_true|].
  intros l Hl.
  apply andb_true_iff in Ea as [_ Ea]. rewrite forallb_forall in Ea.
  destruct Hl as [<- | Hl]; [exact Ew|].
  specialize (Ea l Hl). now apply strictEq_true in Ea.
Qed.

Lemma forallb_filter_id {A : Type} (f : A -> bool) (l : list A) :
  filter f (filter f l) = filter f l.
Proof.
  apply filter_all. intros a Ha. now apply filter_In in Ha.
Qed.

Lemma filter_filter {A : Type} (f g : A -> bool) (l : list A) :
  filter g (filter f l) = filter (fun a => f a && g a) l.
Proof.
  induction l as [|a l IH]; simpl; [reflexivity|].
  destruct (f a); simpl; [|exact IH].
  destruct (g a); simpl; now rewrite IH.
Qed.

Lemma NoDup_snoc {A : Type} (l : list A) (a : A) :
  NoDup l -> ~ In a l -> NoDup (l ++ [a]).
Proof.
  induction 1 as [|b l Hb Hl IH]; simpl; intro Ha.
  - constructor; [tauto | constructor].
  - constructor.
    + rewrite in_app_iff. simpl. intros [H | [H | []]]; [tauto|]. subst. tauto.
    + apply IH. tauto.
Qed.

Lemma NoDup_add (s : ColorSet) (c : option Z) : NoDup s -> NoDup (add s c).
Proof.
  intro Hs. unfold add. destruct (has s c) eqn:E; [assumption|].
  apply NoDup_snoc; [assumption|]. intro Hin. apply has_true in Hin. congruence.
Qed.

Lemma NoDup_fold_add (solns : list Line) (i : nat) (acc : ColorSet) :
  NoDup acc ->
  NoDup (fold_left (fun colorSet soln => add colorSet (nth_error soln i)) solns acc).
Proof.
  revert acc. induction solns as [|l solns IH]; simpl; intros acc Hacc;
    [assumption|].
  apply IH. now apply NoDup_add.
Qed.

End LinePruning.

(** X6.  findValidMoves throws a TypeError exactly when it is given no
    candidate line.  Otherwise the moves it returns are exactly the
    forced cells of the candidates at the positions asked for: a move
    sets position i to v if and only if i is one of the given indices and
    every candidate has the value v at position i. *)
Theorem findValidMoves_returns_forced_cells :
  forall (lines : list Line) (indices : list nat) (solnMapper : nat -> Z -> Move),
    (findValidMoves lines indices solnMapper = Throw TypeError <-> lines = [])
    /\ (lines <> [] -> exists moves, findValidMoves lines indices solnMapper = Ok moves)
    /\ forall moves, findValidMoves lines indices solnMapper = Ok moves ->
         forall m, In m moves
                   <-> exists i v, m = solnMapper i v /\ In i indices
                                   /\ forall l, In l lines -> nth_error l i = Some v.
Proof.
  intros lines indices solnMapper. split; [|split].
  - destruct lines; simpl; split; try reflexivity; discriminate.
  - destruct lines; [contradiction|]. intros _. eexists. reflexivity.
  - intros moves H m. split.
    + now apply findValidMoves_index.
    + intros (i & v & -> & Hi & Hall). eapply findValidMoves_complete; eauto.
Qed.

Lemma findValidMoves_returns_forced_cells_witness :
  exists moves,
    findValidMoves [[1; 1; -1]; [-1; 1; 1]]%Z [0; 1; 2]
      (fun y next => {| tile := {| x := 0; y := y |}; next := next |}) = Ok moves
    /\ In {| tile := {| x := 0; y := 1 |}; next := 1%Z |} moves.
Proof.
  destruct (findValidMoves_returns_forced_cells [[1; 1; -1]; [-1; 1; 1]]%Z [0; 1; 2]
              (fun y next => {| tile := {| x := 0; y := y |}; next := next |}))
    as (_ & Hex & Hin).
  destruct Hex as [moves Hm]; [discriminate|].
  exists moves. split; [exact Hm|].
  apply (Hin moves Hm). exists 1, 1%Z. split; [reflexivity|]. split; [simpl; tauto|].
  intros l [<- | [<- | []]]; reflexivity.
Defined.

(** X7.  pruneByMoves keeps exactly the candidates that agree with every
    move (the candidate has the move's value at the move's position in
    the pruned dimension).  Pruning by no move changes nothing; pruning by
    two lists of moves one after the other is pruning by their
    concatenation, with the removal counts added; and pruning a second
    time by the same moves removes nothing. *)
Theorem pruneByMoves_keeps_agreeing_candidates :
  forall (dim : Dim) (solns : list Line) (moves moves' : list Move),
    let kept := fst (pruneByMoves dim solns moves) in
    (forall soln, In soln kept
                  <-> In soln solns
                      /\ forall m, In m moves ->
                           nth_error soln (tileDim dim (tile m)) = Some (next m))
    /\ pruneByMoves dim solns [] = (solns, 0%Z)
    /\ fst (pruneByMoves dim solns (moves ++ moves'))
       = fst (pruneByMoves dim kept moves')
    /\ snd (pruneByMoves dim solns (moves ++ moves'))
       = (snd (pruneByMoves dim solns moves) + snd (pruneByMoves dim kept moves'))%Z
    /\ pruneByMoves dim kept moves = (kept, 0%Z).
Proof.
  intros dim solns moves moves' kept.
  assert (Hcomp : fst (pruneByMoves dim solns (moves ++ moves'))
                  = fst (pruneByMoves dim kept moves')).
  { unfold kept, pruneByMoves. cbv zeta. cbn [fst]. rewrite filter_filter.
    apply filter_ext. intro soln. apply forallb_app. }
  split; [|split; [|split; [|split]]].
  - intro soln. unfold kept, pruneByMoves. cbv zeta. cbn [fst].
    rewrite filter_In, forallb_forall. split; intros [H1 H2]; split; try assumption.
    + intros m Hm. apply strictEq_true. now apply H2.
    + intros m Hm. apply strictEq_true. now apply H2.
  - unfold pruneByMoves. cbv zeta. cbn [forallb].
    rewrite filter_all by reflexivity. now rewrite Z.sub_diag.
  - exact Hcomp.
  - unfold pruneByMoves in *. cbv zeta in *. cbn [fst snd] in *.
    rewrite Hcomp. unfold kept. cbn [fst]. lia.
  - unfold kept, pruneByMoves. cbv zeta. cbn [fst].
    rewrite forallb_filter_id. now rewrite Z.sub_diag.
Qed.

Lemma pruneByMoves_keeps_agreeing_candidates_witness :
  In [1; -1]%Z (fst (pruneByMoves DimY [[1; -1]; [-1; 1]]%Z
                       [{| tile := {| x := 0; y := 0 |}; next := 1%Z |}])).
Proof.
  apply (proj1 (pruneByMoves_keeps_agreeing_candidates DimY [[1; -1]; [-1; 1]]%Z
                  [{| tile := {| x := 0; y := 0 |}; next := 1%Z |}] [])).
  split; [simpl; tauto|].
  intros m [<- | []]. reflexivity.
Defined.

(** X8.  The colour set getPossibleColors builds for position i holds
    each value once, and holds exactly the values the candidates take at
    position i (undefined included, for a candidate too short).
    pruneByColors keeps exactly the candidates whose value at position i
    is in the allowed set, so pruning a candidate set by its own colour
    set removes nothing. *)
Theorem getPossibleColors_exact_and_own_colours_prune_nothing :
  forall (solns : list Line) (i : nat),
    NoDup (getPossibleColors solns i)
    /\ (forall c, In c (getPossibleColors solns i)
                  <-> exists soln, In soln solns /\ nth_error soln i = c)
    /\ (forall allowed soln,
           In soln (fst (pruneByColors solns allowed i))
           <-> In soln solns /\ In (nth_error soln i) allowed)
    /\ pruneByColors solns (getPossibleColors solns i) i = (solns, 0%Z).
Proof.
  intros solns i. split; [|split; [|split]].
  - unfold getPossibleColors. apply NoDup_fold_add. constructor.
  - intro c. apply In_getPossibleColors.
  - intros allowed soln. rewrite pruneByColors_fst, filter_In, has_true. tauto.
  - apply pruneByColors_fixed. intros soln Hs.
    apply In_getPossibleColors. now exists soln.
Qed.

(* ================================================================== *)
(** ** Runs that end with a TypeError, and runs without a round *)
(* ================================================================== *)

Section RunErrors.

Lemma findValidMoves_total (lines : list Line) (indices : list nat)
    (solnMapper : nat -> Z -> Move) :
  (exists moves, findValidMoves lines indices solnMapper = Ok moves)
  \/ findValidMoves lines indices solnMapper = Throw TypeError.
Proof. destruct lines; [now right | left; eexists; reflexivity]. Qed.

Lemma flatMapR_total {A B : Type} (f : A -> Res (list B)) (arr : list A) :
  (forall a, (exists bs, f a = Ok bs) \/ f a = Throw TypeError) ->
  (exists bs, flatMapR f arr = Ok bs) \/ flatMapR f arr = Throw TypeError.
Proof.
  intro Hf. induction arr as [|a arr IH]; simpl; [left; eexists; reflexivity|].
  destruct (Hf a) as [[bs ->] | ->]; simpl; [|now right].
  destruct IH as [[bs' ->] | ->]; simpl; [left; eexists; reflexivity | now right].
Qed.

Lemma flatMapR_unfit {A B : Type} (f : A -> Res (list B)) (arr : list A) (a : A) :
  (forall a, (exists bs, f a = Ok bs) \/ f a = Throw TypeError) ->
  In a arr -> f a = Throw TypeError -> flatMapR f arr = Throw TypeError.
Proof.
  intros Hf Ha Hthrow. destruct (flatMapR_total f arr Hf) as [[bs Hok] | H];
    [|exact H].
  destruct (flatMapR_Ok_each _ _ _ Hok a Ha) as [bs' E]. congruence.
Qed.

Lemma nth_error_combine_seq {A : Type} (l : list A) (n i : nat) (a : A) :
  nth_error l i = Some a -> In (n + i, a) (combine (seq n (length l)) l).
Proof.
  revert n i. induction l as [|h l IH]; intros n [|i] H; simpl in *;
    try discriminate.
  - injection H as ->. left. f_equal. lia.
  - right. replace (n + S i) with (S n + i) by lia. now apply IH.
Qed.

Lemma mapi_In {A B : Type} (f : A -> nat -> B) (l : list A) (i : nat) (a : A) :
  nth_error l i = Some a -> In (f a i) (mapi f l).
Proof.
  intro H. unfold mapi. apply in_map_iff. exists (i, a). split; [reflexivity|].
  now apply (nth_error_combine_seq l 0 i a).
Qed.

Lemma round_rows_Throw (s : Store) (b : Board) (e : Exn) :
  flatMapR (fun row => findMovesFromRow (fst row) (utils.keys (colMap s)) (snd row))
           (utils.values (rowMap s)) = Throw e ->
  round s b = (b, [], Throw e).
Proof. intro H. unfold round, bindG, liftG. now rewrite H. Qed.

Lemma round_cols_Throw (s : Store) (b : Board) (rowMoves : list Move) (e : Exn) :
  flatMapR (fun row => findMovesFromRow (fst row) (utils.keys (colMap s)) (snd row))
           (utils.values (rowMap s)) = Ok rowMoves ->
  flatMapR (fun col => findMovesFromCol (fst col) (utils.keys (rowMap s)) (snd col))
           (utils.values (colMap s)) = Throw e ->
  round s b = (b, [], Throw e).
Proof. intros H1 H2. unfold round, bindG, liftG. now rewrite H1, H2. Qed.

Lemma round_yield_Throw (s : Store) (b b1 : Board) (rowMoves colMoves ys : list Move)
    (e : Exn) :
  flatMapR (fun row => findMovesFromRow (fst row) (utils.keys (colMap s)) (snd row))
           (utils.values (rowMap s)) = Ok rowMoves ->
  flatMapR (fun col => findMovesFromCol (fst col) (utils.keys (rowMap s)) (snd col))
           (utils.values (colMap s)) = Ok colMoves ->
  yieldMoves rowMoves b = (b1, ys, Throw e) ->
  round s b = (b1, ys, Throw e).
Proof. intros H1 H2 H3. unfold round, bindG, liftG. now rewrite H1, H2, H3. Qed.

Lemma loop_round_Throw (fuel : nat) (s : Store) (b b1 : Board) (ms : list Move)
    (e : Exn) :
  unsolvedRowCount s <> 0%Z -> unsolvedColCount s <> 0%Z ->
  round s b = (b1, ms, Throw e) ->
  loop (S fuel) s b = (b1, ms, Raised e).
Proof.
  intros Hr Hc H. cbn [loop].
  apply Z.eqb_neq in Hr, Hc. rewrite Hr, Hc, H. reflexivity.
Qed.

Lemma rows_total (s : Store) :
  (exists moves,
      flatMapR (fun row => findMovesFromRow (fst row) (utils.keys (colMap s)) (snd row))
               (utils.values (rowMap s)) = Ok moves)
  \/ flatMapR (fun row => findMovesFromRow (fst row) (utils.keys (colMap s)) (snd row))
              (utils.values (rowMap s)) = Throw TypeError.
Proof. apply flatMapR_total. intro a. apply findValidMoves_total. Qed.

Lemma cols_total (s : Store) :
  (exists moves,
      flatMapR (fun col => findMovesFromCol (fst col) (utils.keys (rowMap s)) (snd col))
               (utils.values (colMap s)) = Ok moves)
  \/ flatMapR (fun col => findMovesFromCol (fst col) (utils.keys (rowMap s)) (snd col))
              (utils.values (colMap s)) = Throw TypeError.
Proof. apply flatMapR_total. intro a. apply findValidMoves_total. Qed.

(** A line without candidates makes the round end with a TypeError
    before any move is yielded. *)
Lemma round_unfit (s : Store) (b : Board) (k : nat) :
  In (k, []) (rowMap s) \/ In (k, []) (colMap s) ->
  round s b = (b, [], Throw TypeError).
Proof.
  intro H. destruct (rows_total s) as [[rowMoves Hrows] | Hrows];
    [|now apply round_rows_Throw].
  destruct (cols_total s) as [[colMoves Hcols] | Hcols];
    [|now apply round_cols_Throw with rowMoves].
  exfalso. destruct H as [H | H].
  - destruct (flatMapR_Ok_each _ _ _ Hrows _ H) as [bs E]. discriminate.
  - destruct (flatMapR_Ok_each _ _ _ Hcols _ H) as [bs E]. discriminate.
Qed.

(** A move for a row the board does not have makes the yield loop end
    with a TypeError. *)
Lemma yieldMoves_out_of_board (moves : list Move) (b : Board) (m : Move) :
  In m moves -> length b <= x (tile m) ->
  exists b' ys, yieldMoves moves b = (b', ys, Throw TypeError)
                /\ length b' = length b.
Proof.
  revert b. induction moves as [|move rest IH]; intros b Hin Hout; [destruct Hin|].
  cbn [yieldMoves].
  destruct (nth_error b (x (tile move))) as [r|] eqn:Er.
  2:{ exists b, []. split; reflexivity. }
  assert (Hm : In m rest).
  { destruct Hin as [-> | Hin]; [|exact Hin].
    exfalso. apply nth_error_None in Hout. congruence. }
  destruct (nth_error r (y (tile move))) as [[| |]|].
  - destruct (IH (setCell b (x (tile move)) (y (tile move)) (next move)) Hm)
      as (b' & ys & E & Hl).
    { unfold setCell. now rewrite length_setAt. }
    rewrite E. exists b', (move :: ys). split; [reflexivity|].
    rewrite Hl. unfold setCell. apply length_setAt.
  - now apply IH.
  - now apply IH.
  - now apply IH.
Qed.

Lemma solve_Raised_TypeError (rules : Rules) (b' : Board) (ms : list Move) :
  generateMoves rules (generateEmptyBoardFor rules) = (b', ms, Raised TypeError) ->
  solve rules = Throws TypeError.
Proof. intro H. unfold solve. now rewrite H. Qed.

Lemma generateMoves_first_round_Throw (rules : Rules) (b b1 : Board)
    (ms : list Move) (e : Exn) :
  1 <= length (row rules) -> 1 <= length (column rules) ->
  round (initialStore rules) b = (b1, ms, Throw e) ->
  generateMoves rules b = (b1, ms, Raised e).
Proof.
  intros Hr Hc H. unfold generateMoves, generateMovesFuel.
  apply loop_round_Throw; [| |exact H]; simpl; lia.
Qed.

End RunErrors.

(** X9.  On a puzzle with at least one row and one column, as soon as one
    clue (of a row or of a column) cannot fit its line, generateMoves
    ends with a TypeError in its first round, before it yields a move or
    writes to the board, and solve throws that TypeError instead of
    returning a Solution. *)
Theorem solve_unfit_clue_throws_TypeError :
  forall (rules : Rules) (board0 : Board),
    1 <= length (row rules) -> 1 <= length (column rules) ->
    ((exists clue, In clue (row rules)
        /\ length (column rules) < sumOfColoredSpaces clue + mandatorySpaces clue)
     \/ (exists clue, In clue (column rules)
           /\ length (row rules) < sumOfColoredSpaces clue + mandatorySpaces clue)) ->
    generateMoves rules board0 = (board0, [], Raised TypeError)
    /\ solve rules = Throws TypeError.
Proof.
  intros rules board0 Hr Hc Hunfit.
  assert (Hround : forall b, round (initialStore rules) b = (b, [], Throw TypeError)).
  { intro b. destruct Hunfit as [(clue & Hin & Hlt) | (clue & Hin & Hlt)].
    - apply In_nth_error in Hin as [k Hk].
      apply round_unfit with k. left. unfold initialStore. cbn [rowMap].
      apply generateLineSolns_nil_iff in Hlt. rewrite <- Hlt.
      now apply (mapi_In (fun row x => (x, generateLineSolns _ row))).
    - apply In_nth_error in Hin as [k Hk].
      apply round_unfit with k. right. unfold initialStore. cbn [colMap].
      apply generateLineSolns_nil_iff in Hlt. rewrite <- Hlt.
      now apply (mapi_In (fun col y => (y, generateLineSolns _ col))). }
  assert (Hgen : forall b, generateMoves rules b = (b, [], Raised TypeError)).
  { intro b. now apply generateMoves_first_round_Throw. }
  split; [apply Hgen|]. eapply solve_Raised_TypeError. apply Hgen.
Qed.

Lemma solve_unfit_clue_throws_TypeError_witness :
  solve {| column := [[]; [R 3 1]]; row := [[R 1 1]; [R 1 1]] |} = Throws TypeError.
Proof.
  apply (solve_unfit_clue_throws_TypeError
           {| column := [[]; [R 3 1]]; row := [[R 1 1]; [R 1 1]] |} []).
  - simpl. lia.
  - simpl. lia.
  - right. exists [R 3 1]. split; [simpl; tauto|]. vm_compute. lia.
Defined.

(** X10.  solve creates its board with as many rows as there are column
    clues.  So on a puzzle with more rows than columns, as soon as a row
    whose index is not below the number of columns has a forced cell
    (every candidate of its clue has the same value at some position),
    the move for that cell reads a row the board does not have and solve
    throws a TypeError, whether or not the puzzle has a solution. *)
Theorem solve_tall_puzzle_throws_TypeError :
  forall (rules : Rules) (x0 y0 : nat) (clue : Rule) (v : Z),
    1 <= length (column rules) ->
    length (column rules) <= x0 ->
    nth_error (row rules) x0 = Some clue ->
    y0 < length (column rules) ->
    (forall l, In l (generateLineSolns (length (column rules)) clue) ->
               nth_error l y0 = Some v) ->
    solve rules = Throws TypeError.
Proof.
  intros rules x0 y0 clue v Hc Htall Hclue Hy Hforced.
  assert (Hr : 1 <= length (row rules)).
  { assert (x0 < length (row rules)) by (apply nth_error_Some; congruence). lia. }
  set (s := initialStore rules).
  set (b := generateEmptyBoardFor rules).
  assert (Hround : exists b1 ms, round s b = (b1, ms, Throw TypeError)).
  { destruct (rows_total s) as [[rowMoves Hrows] | Hrows].
    2:{ exists b, []. now apply round_rows_Throw. }
    destruct (cols_total s) as [[colMoves Hcols] | Hcols].
    2:{ exists b, []. now apply round_cols_Throw with rowMoves. }
    assert (Hentry : In (x0, generateLineSolns (length (column rules)) clue) (rowMap s)).
    { unfold s, initialStore. cbn [rowMap].
      now apply (mapi_In (fun row x => (x, generateLineSolns _ row))). }
    destruct (flatMapR_Ok_each _ _ _ Hrows _ Hentry) as [bs Hbs].
    cbn [fst snd] in Hbs.
    assert (Hm : In {| tile := {| x := x0; y := y0 |}; next := v |} bs).
    { unfold findMovesFromRow in Hbs.
      apply (findValidMoves_complete _ _ _ _ y0 v Hbs); [|exact Hforced].
      unfold s, initialStore. cbn [colMap].
      rewrite (NoDup_keys_mapi (fun col y => generateLineSolns _ col)).
      apply in_seq. lia. }
    assert (Hm' : In {| tile := {| x := x0; y := y0 |}; next := v |} rowMoves).
    { eapply flatMapR_incl; [exact Hrows | exact Hentry | exact Hbs | exact Hm]. }
    destruct (yieldMoves_out_of_board rowMoves b _ Hm') as (b1 & ys & Hy1 & _).
    { unfold b, generateEmptyBoardFor, utils.count.
      rewrite length_map, length_seq. exact Htall. }
    exists b1, ys. now apply round_yield_Throw with rowMoves colMoves. }
  destruct Hround as (b1 & ms & Hround).
  eapply solve_Raised_TypeError.
  apply generateMoves_first_round_Throw; eassumption.
Qed.

Lemma solve_tall_puzzle_throws_TypeError_witness :
  isSolution {| column := [[R 2 1]]; row := [[R 1 1]; [R 1 1]] |} [[1]; [1]]%Z
  /\ solve {| column := [[R 2 1]]; row := [[R 1 1]; [R 1 1]] |} = Throws TypeError.
Proof.
  split.
  - split.
    + repeat constructor.
    + intros [|k] clue H; simpl in H; [|destruct k; discriminate].
      injection H as <-. reflexivity.
  - apply (solve_tall_puzzle_throws_TypeError
             {| column := [[R 2 1]]; row := [[R 1 1]; [R 1 1]] |} 1 0 [R 1 1] 1%Z).
    + simpl. lia.
    + simpl. lia.
    + reflexivity.
    + simpl. lia.
    + intros l [<- | []]. reflexivity.
Defined.

(** X11.  With no row clue or no column clue the solver loop is never
    entered: generateMoves returns at once, yields nothing and leaves the
    board as it is, and solve reports solved=true with the board it
    created, whatever the clues of the other dimension ask for. *)
Theorem solve_without_rows_or_columns :
  forall (rules : Rules) (board0 : Board),
    row rules = [] \/ column rules = [] ->
    generateMoves rules board0 = (board0, [], Returned)
    /\ solve rules
       = Returns {| board := generateEmptyBoardFor rules; solved := true;
                    unsolved_rows := []; unsolved_columns := [] |}.
Proof.
  intros rules board0 H.
  assert (Hgen : forall b, generateMoves rules b = (b, [], Returned)).
  { intro b. unfold generateMoves, generateMovesFuel. cbn [loop].
    replace ((unsolvedRowCount (initialStore rules) =? 0)%Z
             || (unsolvedColCount (initialStore rules) =? 0)%Z) with true;
      [reflexivity|].
    symmetry. apply orb_true_iff. unfold initialStore. cbn [unsolvedRowCount unsolvedColCount].
    destruct H as [-> | ->]; [left | right]; reflexivity. }
  split; [apply Hgen|]. unfold solve. now rewrite Hgen.
Qed.

Lemma solve_without_rows_or_columns_witness :
  solve {| column := [[R 1 1]]; row := [] |}
  = Returns {| board := [[]]; solved := true;
               unsolved_rows := []; unsolved_columns := [] |}.
Proof.
  apply (solve_without_rows_or_columns {| column := [[R 1 1]]; row := [] |} []).
  left. reflexivity.
Defined.

(* ================================================================== *)
(** ** The board solve returns *)
(* ================================================================== *)

Section ReturnedBoard.

Lemma generateEmptyBoardFor_shape (rules : Rules) :
  map (@length Z) (generateEmptyBoardFor rules)
  = repeat (length (row rules)) (length (column rules)).
Proof.
  unfold generateEmptyBoardFor, utils.count. rewrite map_map.
  rewrite (map_ext _ (fun _ => length (row rules))).
  - now rewrite map_const, length_seq.
  - intro i. now rewrite length_map, length_seq.
Qed.

Lemma generateEmptyBoardFor_zero (rules : Rules) (x0 y0 : nat) (v : Z) :
  cellAt (generateEmptyBoardFor rules) x0 y0 = Some v -> v = 0%Z.
Proof.
  unfold cellAt, generateEmptyBoardFor, utils.count.
  destruct (nth_error _ x0) as [r|] eqn:Er; [|discriminate].
  apply nth_error_In in Er. apply in_map_iff in Er as [i [<- _]].
  intro H. apply nth_error_In in H. apply in_map_iff in H as [j [<- _]].
  reflexivity.
Qed.

(** A cell of the board after the moves holds what it held before, or
    the value of the grid the moves agree with. *)
Lemma writesZeroOnly_back (g b b' : Board) (ms : list Move) :
  writesZeroOnly b ms b' -> Forall (agrees g) ms ->
  forall x0 y0 v, cellAt b' x0 y0 = Some v ->
    cellAt b x0 y0 = Some v \/ cellAt g x0 y0 = Some v.
Proof.
  induction 1 as [b | b m ms b' Hz Hw IH]; intros Ha x0 y0 v Hv; [now left|].
  inversion Ha as [|? ? Hm Hms]; subst.
  destruct (IH Hms x0 y0 v Hv) as [H | H]; [|now right].
  rewrite cellAt_setCell in H.
  destruct (Nat.eqb (x (tile m)) x0 && Nat.eqb (y (tile m)) y0) eqn:E; [|now left].
  apply andb_true_iff in E as [Ex Ey].
  apply Nat.eqb_eq in Ex, Ey. subst x0 y0.
  rewrite Hz in H. simpl in H. injection H as <-. right. exact Hm.
Qed.

Lemma shape_length (b b' : Board) :
  map (@length Z) b' = map (@length Z) b -> length b' = length b.
Proof. intro H. apply (f_equal (@length nat)) in H. now rewrite !length_map in H. Qed.

End ReturnedBoard.

(** X12.  generateMoves never changes the shape of the board it is
    given: the final board has the same number of rows and the same row
    lengths.  So the board of every Solution that solve returns, solved
    or not, has as many rows as there are column clues, each with as many
    cells as there are row clues. *)
Theorem board_shape_is_kept :
  (forall (fuel : nat) (rules : Rules) (board0 : Board),
      map (@length Z) (fst (fst (generateMovesFuel fuel rules board0)))
      = map (@length Z) board0)
  /\ forall (rules : Rules) (sol : Solution),
       solve rules = Returns sol ->
       length (board sol) = length (column rules)
       /\ Forall (fun r => length r = length (row rules)) (board sol).
Proof.
  assert (Hshape : forall fuel rules board0,
             map (@length Z) (fst (fst (generateMovesFuel fuel rules board0)))
             = map (@length Z) board0).
  { intros fuel rules board0. unfold generateMovesFuel.
    apply writesZeroOnly_shape with (snd (fst (loop fuel (initialStore rules) board0))).
    apply loop_frame. }
  split; [exact Hshape|].
  intros rules sol Hsol.
  assert (Hb : map (@length Z) (board sol)
               = repeat (length (row rules)) (length (column rules))).
  { rewrite <- generateEmptyBoardFor_shape.
    rewrite <- (Hshape (S (mass (initialStore rules))) rules (generateEmptyBoardFor rules)).
    fold (generateMoves rules (generateEmptyBoardFor rules)).
    unfold solve in Hsol.
    destruct (generateMoves rules (generateEmptyBoardFor rules))
      as [[b' ms] [|[|e]|]]; try discriminate; injection Hsol as <-; reflexivity. }
  split.
  - apply (f_equal (@length nat)) in Hb. now rewrite length_map, repeat_length in Hb.
  - apply Forall_forall. intros r Hr.
    apply (in_map (@length Z)) in Hr. rewrite Hb in Hr.
    now apply repeat_spec in Hr.
Qed.

Lemma board_shape_is_kept_witness :
  solve {| column := [[R 1 1]; [R 1 1]]; row := [[R 2 1]] |}
  = Returns {| board := [[1]; [0]]%Z; solved := true;
               unsolved_rows := []; unsolved_columns := [] |}
  /\ length (board {| board := [[1]; [0]]%Z; solved := true;
                      unsolved_rows := []; unsolved_columns := [] |})
     = length (column {| column := [[R 1 1]; [R 1 1]]; row := [[R 2 1]] |}).
Proof.
  split; [reflexivity|].
  apply (proj2 board_shape_is_kept
           {| column := [[R 1 1]; [R 1 1]]; row := [[R 2 1]] |}
           {| board := [[1]; [0]]%Z; solved := true;
              unsolved_rows := []; unsolved_columns := [] |}).
  reflexivity.
Defined.



(** X14.  On a puzzle with as many rows as columns, solved=true
    certifies that the solution is unique: if the rules have a solution
    and solve reports solved=true, the returned board is that solution,
    and every solution of the rules is that board. *)
Theorem solved_square_puzzle_has_one_solution :
  forall (rules : Rules) (g g' : Board) (sol : Solution),
    length (row rules) = length (column rules) ->
    isSolution rules g -> isSolution rules g' ->
    solve rules = Returns sol -> solved sol = true ->
    board sol = g /\ g' = g.
Proof.
  intros rules g g' sol Hsq Hg Hg' Hsol Hsolved.
  destruct (solve_square_solved_solution rules g sol Hsq Hg Hsol Hsolved) as [E _].
  destruct (solve_square_solved_solution rules g' sol Hsq Hg' Hsol Hsolved) as [E' _].
  split; congruence.
Qed.

Lemma solved_square_puzzle_has_one_solution_witness :
  solve {| column := [[R 1 1]; [R 1 1]]; row := [[]; [R 2 1]] |}
  = Returns {| board := [[-1; -1]; [1; 1]]%Z; solved := true;
               unsolved_rows := []; unsolved_columns := [] |}
  /\ isSolution {| column := [[R 1 1]; [R 1 1]]; row := [[]; [R 2 1]] |}
                [[-1; -1]; [1; 1]]%Z
  /\ board {| board := [[-1; -1]; [1; 1]]%Z; solved := true;
              unsolved_rows := []; unsolved_columns := [] |}
     = [[-1; -1]; [1; 1]]%Z.
Proof.
  assert (Hs : isSolution {| column := [[R 1 1]; [R 1 1]]; row := [[]; [R 2 1]] |}
                          [[-1; -1]; [1; 1]]%Z).
  { split.
    - repeat constructor.
    - intros [|[|[|k]]] clue H; simpl in H; try discriminate;
        injection H as <-; reflexivity. }
  split; [reflexivity|]. split; [exact Hs|].
  apply (solved_square_puzzle_has_one_solution
           {| column := [[R 1 1]; [R 1 1]]; row := [[]; [R 2 1]] |}
           [[-1; -1]; [1; 1]]%Z [[-1; -1]; [1; 1]]%Z
           {| board := [[-1; -1]; [1; 1]]%Z; solved := true;
              unsolved_rows := []; unsolved_columns := [] |}).
  - reflexivity.
  - exact Hs.
  - exact Hs.
  - reflexivity.
  - reflexivity.
Defined.

(* ================================================================== *)
(** ** The moves of a run and the report of a failed run *)
(* ================================================================== *)

Section RunInvariant.

Variable rules : Rules.

Lemma sorted_seq (a n : nat) : StronglySorted lt (seq a n).
Proof.
  revert a. induction n as [|n IH]; intro a; simpl; constructor; [apply IH|].
  apply Forall_forall. intros k Hk. apply in_seq in Hk. lia.
Qed.

Lemma Forall_keys_filter (P : nat -> Prop) (f : nat * list Line -> bool)
    (m : SolutionMap) :
  Forall P (utils.keys m) -> Forall P (utils.keys (filter f m)).
Proof.
  unfold utils.keys. rewrite !Forall_forall. intros H k Hk.
  apply in_map_iff in Hk as [e [<- He]]. apply filter_In in He as [He _].
  apply H. now apply in_map.
Qed.

Lemma sorted_keys_filter (f : nat * list Line -> bool) (m : SolutionMap) :
  StronglySorted lt (utils.keys m) -> StronglySorted lt (utils.keys (filter f m)).
Proof.
  induction m as [|e m IH]; simpl; intro H; [assumption|].
  inversion H as [|? ? Hs Hf]; subst.
  destruct (f e); simpl; [|now apply IH].
  constructor; [now apply IH|].
  now apply (Forall_keys_filter (fun k => fst e < k)).
Qed.

Lemma wellKeyed_distinct (s : Store) : wellKeyed rules s -> storeKeysDistinct s.
Proof.
  intros (Hr & Hc & _). split;
    (eapply StronglySorted_NoDup; [exact Nat.lt_irrefl | assumption]).
Qed.

Lemma initialStore_wellKeyed : wellKeyed rules (initialStore rules).
Proof.
  unfold wellKeyed, initialStore. cbn [rowMap colMap unsolvedRowCount unsolvedColCount].
  rewrite (NoDup_keys_mapi (fun row _ => generateLineSolns _ row)).
  rewrite (NoDup_keys_mapi (fun col _ => generateLineSolns _ col)).
  rewrite !length_mapi.
  repeat split; try apply sorted_seq;
    apply Forall_forall; intros k Hk; apply in_seq in Hk; lia.
Qed.

Lemma pruneStore_wellKeyed (s s' : Store) (rowMoves colMoves : list Move) :
  wellKeyed rules s -> pruneStore s rowMoves colMoves = Ok s' -> wellKeyed rules s'.
Proof.
  intros Hs E. pose proof (wellKeyed_distinct s Hs) as Hd.
  destruct Hs as (Sr & Sc & Fr & Fc & Cr & Cc).
  destruct (pruneStore_keys s s' rowMoves colMoves Hd Cr Cc E) as (Kr & Kc & Cr' & Cc').
  unfold wellKeyed. rewrite Kr, Kc. unfold unsolvedOf.
  repeat split; try assumption.
  - now apply sorted_keys_filter.
  - now apply sorted_keys_filter.
  - now apply Forall_keys_filter.
  - now apply Forall_keys_filter.
Qed.

Lemma round_wellKeyed (s s' : Store) (b b' : Board) (ms : list Move) :
  wellKeyed rules s -> round s b = (b', ms, Ok s') -> wellKeyed rules s'.
Proof.
  intros Hs H. apply round_Ok in H as (rm & cm & b1 & ys1 & ys2 & _ & _ & _ & _ & _ & H).
  eapply pruneStore_wellKeyed; eassumption.
Qed.

Lemma initialStore_linesOk :
  noZeroColour rules ->
  Forall (linesOk (length (column rules))) (rowMap (initialStore rules))
  /\ Forall (linesOk (length (row rules))) (colMap (initialStore rules)).
Proof.
  intros [Zr Zc]. split.
  - apply Forall_forall. intros e He. apply In_mapi in He as (k & clue & Hk & ->).
    unfold linesOk. simpl. apply Forall_forall. intros l Hl.
    eapply generateLineSolns_lineOk; [|eassumption].
    rewrite Forall_forall in Zr. apply Zr. eapply nth_error_In; eassumption.
  - apply Forall_forall. intros e He. apply In_mapi in He as (k & clue & Hk & ->).
    unfold linesOk. simpl. apply Forall_forall. intros l Hl.
    eapply generateLineSolns_lineOk; [|eassumption].
    rewrite Forall_forall in Zc. apply Zc. eapply nth_error_In; eassumption.
Qed.

(** A forced cell of well-formed candidates is inside the line and is
    not 0. *)
Lemma forced_cell_ok (len k : nat) (solns : list Line) (indices : list nat)
    (solnMapper : nat -> Z -> Move) (moves : list Move) (m : Move) :
  linesOk len (k, solns) ->
  findValidMoves solns indices solnMapper = Ok moves -> In m moves ->
  exists i v, m = solnMapper i v /\ i < len /\ v <> 0%Z.
Proof.
  intros Hok Hf Hm.
  destruct (findValidMoves_sound _ _ _ _ Hf m Hm) as (i & v & -> & Hall).
  exists i, v. split; [reflexivity|].
  destruct solns as [|l0 rest]; [discriminate|].
  unfold linesOk in Hok. simpl in Hok. inversion Hok as [|? ? [Hlen Hnz] _]; subst.
  specialize (Hall l0 (or_introl eq_refl)). split.
  - apply nth_error_Some. congruence.
  - apply nth_error_In in Hall. rewrite Forall_forall in Hnz. now apply Hnz.
Qed.

Lemma rowMoves_inPuzzle (s : Store) (rowMoves : list Move) :
  wellKeyed rules s ->
  Forall (linesOk (length (column rules))) (rowMap s) ->
  flatMapR (fun row => findMovesFromRow (fst row) (utils.keys (colMap s)) (snd row))
           (utils.values (rowMap s)) = Ok rowMoves ->
  Forall (fun m => inPuzzle rules m /\ next m <> 0%Z) rowMoves.
Proof.
  intros (_ & _ & Fr & _) Hok H. apply Forall_forall. intros m Hm.
  destruct (flatMapR_In _ _ _ H m Hm) as ([k solns] & ms & He & Hf & Hin).
  rewrite Forall_forall in Hok, Fr.
  destruct (forced_cell_ok _ _ _ _ _ _ _ (Hok _ He) Hf Hin) as (i & v & -> & Hi & Hv).
  unfold inPuzzle. simpl. repeat split; try assumption.
  apply Fr. unfold utils.keys. now apply (in_map fst) in He.
Qed.

Lemma colMoves_inPuzzle (s : Store) (colMoves : list Move) :
  wellKeyed rules s ->
  Forall (linesOk (length (row rules))) (colMap s) ->
  flatMapR (fun col => findMovesFromCol (fst col) (utils.keys (rowMap s)) (snd col))
           (utils.values (colMap s)) = Ok colMoves ->
  Forall (fun m => inPuzzle rules m /\ next m <> 0%Z) colMoves.
Proof.
  intros (_ & _ & _ & Fc & _) Hok H. apply Forall_forall. intros m Hm.
  destruct (flatMapR_In _ _ _ H m Hm) as ([k solns] & ms & He & Hf & Hin).
  rewrite Forall_forall in Hok, Fc.
  destruct (forced_cell_ok _ _ _ _ _ _ _ (Hok _ He) Hf Hin) as (i & v & -> & Hi & Hv).
  unfold inPuzzle. simpl. repeat split; try assumption.
  apply Fc. unfold utils.keys. now apply (in_map fst) in He.
Qed.

Lemma round_moves (s : Store) (b b' : Board) (ms : list Move) (r : Res Store) :
  wellKeyed rules s ->
  Forall (linesOk (length (column rules))) (rowMap s) ->
  Forall (linesOk (length (row rules))) (colMap s) ->
  round s b = (b', ms, r) ->
  Forall (fun m => inPuzzle rules m /\ next m <> 0%Z) ms
  /\ forall s', r = Ok s' ->
       wellKeyed rules s'
       /\ Forall (linesOk (length (column rules))) (rowMap s')
       /\ Forall (linesOk (length (row rules))) (colMap s').
Proof.
  intros Hs Lr Lc. unfold round, bindG, liftG.
  destruct (flatMapR _ (utils.values (rowMap s))) as [rowMoves | e] eqn:E1.
  2:{ intro H. injection H as <- <- <-. split; [constructor | discriminate]. }
  destruct (flatMapR _ (utils.values (colMap s))) as [colMoves | e] eqn:E2.
  2:{ intro H. injection H as <- <- <-. split; [constructor | discriminate]. }
  pose proof (rowMoves_inPuzzle _ _ Hs Lr E1) as Hrm.
  pose proof (colMoves_inPuzzle _ _ Hs Lc E2) as Hcm.
  destruct (yieldMoves rowMoves b) as [[b1 ys1] r1] eqn:Y1.
  pose proof (yieldMoves_incl _ _ _ _ _ Y1) as I1.
  assert (A1 : Forall (fun m => inPuzzle rules m /\ next m <> 0%Z) ys1).
  { rewrite Forall_forall in *. auto. }
  destruct r1 as [[] | e].
  2:{ intro H. injection H as <- <- <-. simpl. split; [assumption | discriminate]. }
  destruct (yieldMoves colMoves b1) as [[b2 ys2] r2] eqn:Y2.
  pose proof (yieldMoves_incl _ _ _ _ _ Y2) as I2.
  assert (A2 : Forall (fun m => inPuzzle rules m /\ next m <> 0%Z) ys2).
  { rewrite Forall_forall in *. auto. }
  destruct r2 as [[] | e].
  2:{ intro H. injection H as <- <- <-. simpl.
      split; [apply Forall_app; auto | discriminate]. }
  fold (pruneStore s rowMoves colMoves).
  intro H. injection H as <- <- <-. simpl. rewrite app_nil_r. split.
  - apply Forall_app; auto.
  - intros s' E. split; [eapply pruneStore_wellKeyed; eassumption|].
    eapply pruneStore_linesOk; eassumption.
Qed.

Lemma loop_moves (fuel : nat) (s : Store) (b : Board) :
  wellKeyed rules s ->
  Forall (linesOk (length (column rules))) (rowMap s) ->
  Forall (linesOk (length (row rules))) (colMap s) ->
  Forall (fun m => inPuzzle rules m /\ next m <> 0%Z) (snd (fst (loop fuel s b))).
Proof.
  revert s b. induction fuel as [|fuel IH]; intros s b Hs Lr Lc; simpl.
  - destruct (_ || _); constructor.
  - destruct (_ || _); [constructor|].
    destruct (round s b) as [[b1 ms] r] eqn:E.
    destruct (round_moves _ _ _ _ _ Hs Lr Lc E) as [Hms Hr].
    destruct r as [s' | e]; [|assumption].
    destruct (Hr s' eq_refl) as (Hs' & Lr' & Lc').
    specialize (IH s' b1 Hs' Lr' Lc').
    destruct (loop fuel s' b1) as [[b2 ms'] out]. simpl in *.
    apply Forall_app; auto.
Qed.

(** A cell that holds a non-zero value is the tile of no later move. *)
Lemma writesZeroOnly_fresh (b b' : Board) (ms : list Move) :
  writesZeroOnly b ms b' ->
  forall x0 y0 v, cellAt b x0 y0 = Some v -> v <> 0%Z ->
    ~ In {| x := x0; y := y0 |} (map tile ms).
Proof.
  induction 1 as [b | b m ms b' Hz Hw IH]; intros x0 y0 v Hv Hnz; simpl; [tauto|].
  intros [E | Hin].
  - rewrite E in Hz. simpl in Hz. congruence.
  - apply (IH x0 y0 v); [|assumption | assumption].
    rewrite cellAt_setCell.
    destruct (Nat.eqb (x (tile m)) x0 && Nat.eqb (y (tile m)) y0) eqn:Eq;
      [|assumption].
    apply andb_true_iff in Eq as [Ex Ey]. apply Nat.eqb_eq in Ex, Ey. subst.
    congruence.
Qed.

Lemma writesZeroOnly_NoDup (b b' : Board) (ms : list Move) :
  writesZeroOnly b ms b' -> Forall (fun m => next m <> 0%Z) ms ->
  NoDup (map tile ms).
Proof.
  induction 1 as [b | b m ms b' Hz Hw IH]; intro Hf; simpl; [constructor|].
  inversion Hf as [|? ? Hm Hms]; subst. constructor; [|now apply IH].
  destruct m as [[xm ym] nm]. simpl in *.
  apply (writesZeroOnly_fresh _ _ _ Hw xm ym nm); [|assumption].
  rewrite cellAt_setCell, !Nat.eqb_refl, Hz. reflexivity.
Qed.

Lemma length_allTiles :
  length (allTiles rules) = length (row rules) * length (column rules).
Proof. unfold allTiles. now rewrite length_map, length_prod, !length_seq. Qed.

Lemma inPuzzle_allTiles (m : Move) : inPuzzle rules m -> In (tile m) (allTiles rules).
Proof.
  intros [Hx Hy]. unfold allTiles. apply in_map_iff.
  exists (x (tile m), y (tile m)). split; [now destruct (tile m)|].
  apply in_prod; apply in_seq; lia.
Qed.

End RunInvariant.

Lemma generateMoves_moves_ok (rules : Rules) (fuel : nat) (board0 : Board) :
  noZeroColour rules ->
  Forall (fun m => inPuzzle rules m /\ next m <> 0%Z)
         (snd (fst (generateMovesFuel fuel rules board0)))
  /\ NoDup (map tile (snd (fst (generateMovesFuel fuel rules board0)))).
Proof.
  intros Hz.
  destruct (initialStore_linesOk rules Hz) as [Lr Lc].
  assert (Hms : Forall (fun m => inPuzzle rules m /\ next m <> 0%Z)
                       (snd (fst (generateMovesFuel fuel rules board0)))).
  { unfold generateMovesFuel.
    apply loop_moves; [apply initialStore_wellKeyed | assumption | assumption]. }
  split; [exact Hms|].
  unfold generateMovesFuel.
  eapply writesZeroOnly_NoDup; [apply loop_frame|].
  eapply Forall_impl; [|exact Hms]. simpl. tauto.
Qed.

Lemma tiles_bound (rules : Rules) (ms : list Move) :
  Forall (fun m => inPuzzle rules m /\ next m <> 0%Z) ms ->
  NoDup (map tile ms) ->
  length ms <= length (row rules) * length (column rules).
Proof.
  intros Hms Hnd.
  rewrite <- (length_map tile ms), <- length_allTiles.
  apply NoDup_incl_length; [exact Hnd|].
  intros t Ht. apply in_map_iff in Ht as [m [<- Hm]].
  apply inPuzzle_allTiles. rewrite Forall_forall in Hms. now apply Hms.
Qed.

(** X15.  When no clue uses the colour id 0, the moves generateMoves
    yields, on any board and however the run ends, are all inside the
    puzzle (row index below the number of row clues, column index below
    the number of column clues), none sets a cell to 0, and no tile is
    the target of two moves; so a run yields at most rows x columns
    moves. *)
Theorem yielded_moves_distinct_tiles_in_puzzle :
  forall (rules : Rules) (fuel : nat) (board0 : Board),
    noZeroColour rules ->
    let ms := snd (fst (generateMovesFuel fuel rules board0)) in
    Forall (fun m => inPuzzle rules m /\ next m <> 0%Z) ms
    /\ NoDup (map tile ms)
    /\ length ms <= length (row rules) * length (column rules).
Proof.
  intros rules fuel board0 Hz ms.
  destruct (generateMoves_moves_ok rules fuel board0 Hz) as [Hms Hnd].
  fold ms in Hms, Hnd.
  split; [exact Hms|]. split; [exact Hnd|]. now apply tiles_bound.
Qed.

Lemma yielded_moves_distinct_tiles_in_puzzle_witness :
  noZeroColour {| column := [[R 1 1]; [R 1 1]]; row := [[]; [R 2 1]] |}
  /\ NoDup (map tile
              (snd (fst (generateMoves
                           {| column := [[R 1 1]; [R 1 1]]; row := [[]; [R 2 1]] |}
                           [[0; 0]; [0; 0]]%Z)))).
Proof.
  assert (Hz : noZeroColour {| column := [[R 1 1]; [R 1 1]]; row := [[]; [R 2 1]] |}).
  { split; repeat constructor; simpl; discriminate. }
  split; [exact Hz|].
  exact (proj1 (proj2 (yielded_moves_distinct_tiles_in_puzzle
                         {| column := [[R 1 1]; [R 1 1]]; row := [[]; [R 2 1]] |}
                         _ [[0; 0]; [0; 0]]%Z Hz))).
Defined.

Section FailedRun.

Variable rules : Rules.

(** The line loop counts at least one pruning for every line it
    retires. *)
Lemma pruneLines_count (pruneOne : nat -> list Line -> PruneResult)
    (err : nat -> SolutionMap -> Exn) (todo m : SolutionMap) (cnt p : Z)
    (m' : SolutionMap) (cnt' p' : Z) :
  (forall k solns, (0 <= snd (pruneOne k solns))%Z) ->
  pruneLines pruneOne err todo m cnt p = Ok (m', cnt', p') ->
  (p + Z.of_nat (length todo) - Z.of_nat (length (unsolvedOf todo)) <= p')%Z.
Proof.
  intro Hp. revert m cnt p. induction todo as [|[k solns] rest IH]; intros m cnt p.
  - simpl. intro H. injection H as <- <- <-. lia.
  - cbn [pruneLines]. unfold unsolvedOf. cbn [filter snd].
    destruct (isLineSolved solns) eqn:Es; cbn [negb].
    + intro H. apply IH in H. fold (unsolvedOf rest). simpl length. lia.
    + destruct (isLineConflict solns); [discriminate|].
      specialize (Hp k solns). destruct (pruneOne k solns) as [solns' pruned].
      simpl in Hp. intro H. apply IH in H. fold (unsolvedOf rest).
      simpl length. lia.
Qed.

Lemma filter_same_length {A : Type} (f : A -> bool) (l : list A) :
  length (filter f l) = length l -> filter f l = l.
Proof.
  induction l as [|a l IH]; simpl; [reflexivity|].
  destruct (f a); simpl; intro H.
  - f_equal. apply IH. lia.
  - pose proof (filter_length_le f l). lia.
Qed.

Lemma pruneByMoves_count (dim : Dim) (solns : list Line) (moves : list Move) :
  (0 <= snd (pruneByMoves dim solns moves))%Z.
Proof.
  unfold pruneByMoves. cbv zeta. cbn [snd].
  match goal with |- context [filter ?f solns] =>
    pose proof (filter_length_le f solns) end.
  lia.
Qed.

Lemma lookup_of_key (k : nat) (m : SolutionMap) :
  In k (utils.keys m) -> exists v, lookup k m = Some v.
Proof.
  unfold lookup. induction m as [|[k' v] m IH]; simpl; [intros []|].
  intros [E | H].
  - subst k'. rewrite Nat.eqb_refl. now exists v.
  - destruct (Nat.eqb k' k); simpl; [now exists v | now apply IH].
Qed.

Lemma forEachR_total {A S : Type} (I : S -> Prop) (body : A -> S -> Res S)
    (arr : list A) :
  (forall a st, In a arr -> I st -> exists st', body a st = Ok st' /\ I st') ->
  forall st, I st -> exists st', forEachR body arr st = Ok st' /\ I st'.
Proof.
  induction arr as [|a arr IH]; simpl; intros Hb st Hst; [eauto|].
  destruct (Hb a st (or_introl eq_refl) Hst) as (st1 & E & I1).
  rewrite E. simpl. apply IH; [|assumption].
  intros a' st' Ha'. apply Hb. now right.
Qed.

(** The optional step does not throw when it visits lines of the maps
    only. *)
Lemma arcPass_total (xs ys : list nat) (rm cm : SolutionMap) (p : Z) :
  incl xs (utils.keys rm) -> incl ys (utils.keys cm) ->
  exists st', arcPass xs ys (rm, cm, p) = Ok st'.
Proof.
  intros Hx Hy. unfold arcPass.
  set (I := fun s1 : list (nat * list (list Z)) * list (nat * list (list Z)) * Z =>
              utils.keys (fst (fst s1)) = utils.keys rm
              /\ utils.keys (snd (fst s1)) = utils.keys cm).
  destruct (forEachR_total I (fun x0 => forEachR (fun y0 => arcCell x0 y0) ys) xs)
    with (st := (rm, cm, p)) as (st' & E & _).
  - intros x0 st Hx0. apply (forEachR_total I). intros y0 [[rm' cm'] p'] Hy0 [K1 K2].
    cbn [fst snd] in K1, K2. unfold arcCell.
    destruct (lookup_of_key y0 cm') as [cl ->]; [rewrite K2; now apply Hy|].
    destruct (lookup_of_key x0 rm') as [rl ->]; [rewrite K1; now apply Hx|].
    unfold pruneByColors. cbv zeta. eexists. split; [reflexivity|].
    unfold I. cbn [fst snd]. now rewrite !keys_setSolns.
  - split; reflexivity.
  - now exists st'.
Qed.

(** With no line out of candidates, the pruning phases either continue,
    or throw the SolveError "Ran out of moves" built from maps that
    still hold every line of the round. *)
Lemma pruneStore_cases (s : Store) (rowMoves colMoves : list Move) :
  storeKeysDistinct s ->
  Forall (fun entry => snd entry <> []) (rowMap s) ->
  Forall (fun entry => snd entry <> []) (colMap s) ->
  (exists s', pruneStore s rowMoves colMoves = Ok s')
  \/ exists rm2 cm2,
       pruneStore s rowMoves colMoves
       = Throw (Thrown (newSolveError RanOutOfMoves rm2 cm2))
       /\ utils.keys rm2 = utils.keys (rowMap s)
       /\ utils.keys cm2 = utils.keys (colMap s).
Proof.
  intros [Hdr Hdc] Nr Nc.
  unfold pruneStore, utils.values. rewrite pruneRows_pruneLines.
  destruct (pruneLines _ _ (rowMap s) (rowMap s) _ _) as [[[rm1 rc1] p1] | e0] eqn:P1.
  2:{ exfalso. exact (pruneLines_no_conflict _ _ _ _ _ _ _ Nr P1). }
  simpl. rewrite pruneCols_pruneLines.
  destruct (pruneLines _ _ (colMap s) (colMap s) _ _) as [[[cm1 cc1] p2] | e0] eqn:P2.
  2:{ exfalso. exact (pruneLines_no_conflict _ _ _ _ _ _ _ Nc P2). }
  simpl.
  pose proof (pruneLines_keys _ _ (rowMap s) [] _ _ _ _ _ Hdr P1) as [Kr _].
  pose proof (pruneLines_keys _ _ (colMap s) [] _ _ _ _ _ Hdc P2) as [Kc _].
  simpl in Kr, Kc.
  apply pruneLines_count in P1; [|intros; apply pruneByMoves_count].
  apply pruneLines_count in P2; [|intros; apply pruneByMoves_count].
  destruct (p2 >? 0)%Z eqn:Ep; [left; eexists; reflexivity|].
  assert (Hp2 : (p2 <= 0)%Z).
  { rewrite Z.gtb_ltb in Ep. now apply Z.ltb_ge in Ep. }
  pose proof (filter_length_le (fun e1 : nat * list (list Z) => negb (isLineSolved (snd e1)))
                (rowMap s)) as Lr.
  pose proof (filter_length_le (fun e1 : nat * list (list Z) => negb (isLineSolved (snd e1)))
                (colMap s)) as Lc.
  fold (unsolvedOf (rowMap s)) in Lr. fold (unsolvedOf (colMap s)) in Lc.
  assert (Ur : unsolvedOf (rowMap s) = rowMap s).
  { apply filter_same_length. fold (unsolvedOf (rowMap s)). lia. }
  assert (Uc : unsolvedOf (colMap s) = colMap s).
  { apply filter_same_length. fold (unsolvedOf (colMap s)). lia. }
  rewrite Ur in Kr. rewrite Uc in Kc.
  destruct (arcPass_total (utils.keys (rowMap s)) (utils.keys (colMap s)) rm1 cm1 p2)
    as [[[rm2 cm2] p3] P3].
  { rewrite Kr. apply incl_refl. }
  { rewrite Kc. apply incl_refl. }
  rewrite P3. simpl.
  destruct (arcPass_keys _ _ _ _ P3) as [Kr2 Kc2]. simpl in Kr2, Kc2.
  destruct (p3 =? 0)%Z; [|left; eexists; reflexivity].
  right. exists rm2, cm2. split; [reflexivity|]. split; congruence.
Qed.

Lemma rows_nonempty (s : Store) (rowMoves : list Move) :
  flatMapR (fun row => findMovesFromRow (fst row) (utils.keys (colMap s)) (snd row))
           (utils.values (rowMap s)) = Ok rowMoves ->
  Forall (fun entry => snd entry <> []) (rowMap s).
Proof.
  intro E1. apply Forall_forall. intros a Ha Hnil.
  destruct (flatMapR_Ok_each _ _ _ E1 a Ha) as [bs Hf].
  unfold findMovesFromRow in Hf. rewrite Hnil in Hf. discriminate.
Qed.

Lemma cols_nonempty (s : Store) (colMoves : list Move) :
  flatMapR (fun col => findMovesFromCol (fst col) (utils.keys (rowMap s)) (snd col))
           (utils.values (colMap s)) = Ok colMoves ->
  Forall (fun entry => snd entry <> []) (colMap s).
Proof.
  intro E2. apply Forall_forall. intros a Ha Hnil.
  destruct (flatMapR_Ok_each _ _ _ E2 a Ha) as [bs Hf].
  unfold findMovesFromCol in Hf. rewrite Hnil in Hf. discriminate.
Qed.

(** The SolveError a round throws names exactly the lines that were in
    the maps at the start of the round. *)
Lemma round_Thrown (s : Store) (b b' : Board) (ms : list Move) (e : SolveError) :
  storeKeysDistinct s ->
  round s b = (b', ms, Throw (Thrown e)) ->
  unsolvedRows e = utils.keys (rowMap s)
  /\ unsolvedColumns e = utils.keys (colMap s).
Proof.
  intros Hd. unfold round, bindG, liftG.
  destruct (flatMapR _ (utils.values (rowMap s))) as [rowMoves | e0] eqn:E1.
  2:{ intro H. injection H as _ _ ->.
      apply flatMapR_Throw in E1 as (a & _ & Hf).
      apply findValidMoves_Throw in Hf as [_ Hf]. discriminate. }
  destruct (flatMapR _ (utils.values (colMap s))) as [colMoves | e0] eqn:E2.
  2:{ intro H. injection H as _ _ ->.
      apply flatMapR_Throw in E2 as (a & _ & Hf).
      apply findValidMoves_Throw in Hf as [_ Hf]. discriminate. }
  destruct (yieldMoves rowMoves b) as [[b1 ys1] [[] | e0]] eqn:Y1.
  2:{ intro H. injection H as _ _ ->. apply yieldMoves_Throw in Y1. discriminate. }
  destruct (yieldMoves colMoves b1) as [[b2 ys2] [[] | e0]] eqn:Y2.
  2:{ intro H. injection H as _ _ ->. apply yieldMoves_Throw in Y2. discriminate. }
  fold (pruneStore s rowMoves colMoves).
  intro H. injection H as _ _ H.
  destruct (pruneStore_cases s rowMoves colMoves Hd
              (rows_nonempty _ _ E1) (cols_nonempty _ _ E2))
    as [[s' E] | (rm2 & cm2 & E & Kr & Kc)]; rewrite E in H; [discriminate|].
  injection H as <-. unfold newSolveError. simpl. auto.
Qed.

Lemma loop_Thrown (fuel : nat) (s : Store) (b b' : Board) (ms : list Move)
    (e : SolveError) :
  wellKeyed rules s ->
  loop fuel s b = (b', ms, Raised (Thrown e)) ->
  reportOk rules (unsolvedRows e) (unsolvedColumns e).
Proof.
  revert s b b' ms. induction fuel as [|fuel IH]; intros s b b' ms Hs; cbn [loop].
  - destruct (_ || _); discriminate.
  - destruct ((unsolvedRowCount s =? 0)%Z || (unsolvedColCount s =? 0)%Z) eqn:Ez;
      [discriminate|].
    apply orb_false_iff in Ez as [Zr Zc]. apply Z.eqb_neq in Zr, Zc.
    destruct (round s b) as [[b1 ms1] [s' | e0]] eqn:E.
    + pose proof (round_wellKeyed rules _ _ _ _ _ Hs E) as Hs'.
      destruct (loop fuel s' b1) as [[b2 ms2] out] eqn:El.
      intro H. injection H as _ _ ->. eapply IH; eassumption.
    + intro H. injection H as _ _ ->.
      destruct (round_Thrown _ _ _ _ _ (wellKeyed_distinct rules s Hs) E) as [Kr Kc].
      destruct Hs as (Sr & Sc & Fr & Fc & Cr & Cc).
      unfold reportOk. rewrite Kr, Kc.
      repeat split; try assumption.
      * intro Hnil. apply Zr. rewrite Cr.
        unfold utils.keys in Hnil. apply map_eq_nil in Hnil. now rewrite Hnil.
      * intro Hnil. apply Zc. rewrite Cc.
        unfold utils.keys in Hnil. apply map_eq_nil in Hnil. now rewrite Hnil.
Qed.

End FailedRun.

(** X16.  When solve gives up (solved=false), its two lists of unsolved
    lines are both non-empty, each lists indices in increasing order
    without repeats, and every index is the index of a row clue,
    respectively of a column clue, of the puzzle.  With solved=true both
    lists are empty. *)
Theorem unsolved_report_names_lines_of_the_puzzle :
  forall (rules : Rules) (sol : Solution),
    solve rules = Returns sol ->
    (solved sol = false ->
     reportOk rules (unsolved_rows sol) (unsolved_columns sol))
    /\ (solved sol = true -> unsolved_rows sol = [] /\ unsolved_columns sol = []).
Proof.
  intros rules sol Hsol. unfold solve in Hsol.
  destruct (generateMoves rules (generateEmptyBoardFor rules))
    as [[b' ms] [|[|e]|]] eqn:E; try discriminate; injection Hsol as <-; simpl.
  - split; [discriminate | auto].
  - split; [|discriminate]. intros _.
    unfold generateMoves, generateMovesFuel in E.
    eapply loop_Thrown; [apply initialStore_wellKeyed | exact E].
Qed.

Lemma unsolved_report_names_lines_of_the_puzzle_witness :
  reportOk {| column := [[R 1 1]; [R 1 1]]; row := [[R 1 1]; [R 1 1]] |}
           [0; 1] [0; 1].
Proof.
  apply (proj1 (unsolved_report_names_lines_of_the_puzzle
                  {| column := [[R 1 1]; [R 1 1]]; row := [[R 1 1]; [R 1 1]] |}
                  {| board := [[0; 0]; [0; 0]]%Z; solved := false;
                     unsolved_rows := [0; 1]; unsolved_columns := [0; 1] |}
                  eq_refl)).
  reflexivity.
Defined.

(* ================================================================== *)
(** ** Solvable puzzles: no TypeError *)
(* ================================================================== *)

Section SolvableRun.

Variable rules : Rules.
Variable g : Board.
Hypothesis g_solution : isSolution rules g.

(** Moves for rows the board has are all written or skipped: the yield
    loop does not throw. *)
Lemma yieldMoves_in_board (moves : list Move) (b : Board) :
  Forall (fun m => x (tile m) < length b) moves ->
  exists b' ys, yieldMoves moves b = (b', ys, Ok tt) /\ length b' = length b.
Proof.
  revert b. induction moves as [|move rest IH]; intros b Hf; cbn [yieldMoves].
  - exists b, []. split; reflexivity.
  - inversion Hf as [|? ? Hm Hrest]; subst.
    destruct (nth_error b (x (tile move))) as [r|] eqn:Er.
    2:{ exfalso. apply nth_error_None in Er. lia. }
    destruct (nth_error r (y (tile move))) as [[| |]|].
    + destruct (IH (setCell b (x (tile move)) (y (tile move)) (next move)))
        as (b' & ys & E & Hl).
      { unfold setCell. now rewrite length_setAt. }
      rewrite E. exists b', (move :: ys). split; [reflexivity|].
      rewrite Hl. unfold setCell. apply length_setAt.
    + now apply IH.
    + now apply IH.
    + now apply IH.
Qed.

Lemma agrees_row_in_board (b : Board) (moves : list Move) :
  length (row rules) <= length b -> Forall (agrees g) moves ->
  Forall (fun m => x (tile m) < length b) moves.
Proof.
  intros Hb Ha. eapply Forall_impl; [|exact Ha]. intros m Hm.
  unfold agrees, cellAt in Hm.
  destruct (nth_error g (x (tile m))) as [r|] eqn:Er; [|discriminate].
  assert (x (tile m) < length g) by (apply nth_error_Some; congruence).
  rewrite (solution_height rules g g_solution) in H. lia.
Qed.

(** On a board with a row for every row clue, a round on candidate sets
    that hold the lines of the solution does not end with a TypeError. *)
Lemma round_no_TypeError (s : Store) (b b' : Board) (ms : list Move) (r : Res Store) :
  storeKeeps rules g s -> storeKeysDistinct s ->
  length (row rules) <= length b ->
  round s b = (b', ms, r) -> r <> Throw TypeError.
Proof.
  intros Hs Hd Hb. unfold round, bindG, liftG.
  destruct (rows_total s) as [[rowMoves E1] | E1].
  2:{ exfalso. apply flatMapR_Throw in E1 as ([k solns] & Ha & Hf).
      apply findValidMoves_Throw in Hf as [Hnil _]. simpl in Hnil. subst solns.
      destruct Hs as [Hr _]. rewrite Forall_forall in Hr.
      destruct (Hr _ Ha) as (r0 & _ & []). }
  destruct (cols_total s) as [[colMoves E2] | E2].
  2:{ exfalso. apply flatMapR_Throw in E2 as ([k solns] & Ha & Hf).
      apply findValidMoves_Throw in Hf as [Hnil _]. simpl in Hnil. subst solns.
      destruct Hs as [_ Hc]. rewrite Forall_forall in Hc.
      destruct (Hc _ Ha) as (_ & []). }
  rewrite E1, E2.
  pose proof (rowMoves_agree rules g _ _ Hs E1) as Hrm.
  pose proof (colMoves_agree rules g g_solution _ _ Hs E2) as Hcm.
  destruct (yieldMoves_in_board rowMoves b (agrees_row_in_board b _ Hb Hrm))
    as (b1 & ys1 & Y1 & L1).
  rewrite Y1.
  assert (Hb1 : length (row rules) <= length b1) by lia.
  destruct (yieldMoves_in_board colMoves b1 (agrees_row_in_board b1 _ Hb1 Hcm))
    as (b2 & ys2 & Y2 & L2).
  rewrite Y2. fold (pruneStore s rowMoves colMoves).
  destruct (pruneStore_cases s rowMoves colMoves Hd
              (rows_nonempty _ _ E1) (cols_nonempty _ _ E2))
    as [[s' E] | (rm2 & cm2 & E & _)]; rewrite E;
    intro H; injection H as _ _ <-; discriminate.
Qed.

Lemma loop_no_TypeError (fuel : nat) (s : Store) (b : Board) :
  storeKeeps rules g s -> storeKeysDistinct s ->
  length (row rules) <= length b ->
  snd (loop fuel s b) <> Raised TypeError.
Proof.
  revert s b. induction fuel as [|fuel IH]; intros s b Hs Hd Hb; cbn [loop].
  - destruct (_ || _); discriminate.
  - destruct (_ || _); [discriminate|].
    destruct (round s b) as [[b1 ms] r] eqn:E.
    pose proof (round_no_TypeError _ _ _ _ _ Hs Hd Hb E) as Hne.
    destruct r as [s' | e].
    + destruct (round_sound rules g g_solution _ _ _ _ _ Hs E) as [_ Hk].
      destruct (round_pruneStore _ _ _ _ _ E s' eq_refl Hd) as [Hd' _].
      pose proof (respectsFrame_round s b) as Hw. rewrite E in Hw. simpl in Hw.
      apply writesZeroOnly_shape, shape_length in Hw.
      specialize (IH s' b1 (Hk s' eq_refl) Hd').
      destruct (loop fuel s' b1) as [[b2 ms'] out]. simpl in *.
      apply IH. lia.
    + simpl. intro H. injection H as ->. now apply Hne.
Qed.

End SolvableRun.

(** X17.  On a puzzle that has a solution and no more rows than columns,
    solve always returns a Solution: it never throws a TypeError.  On
    any board with at least as many rows as there are row clues,
    generateMoves for such rules ends by returning or by throwing a
    SolveError, never with a TypeError. *)
Theorem solve_solvable_puzzle_returns :
  forall (rules : Rules) (g : Board),
    isSolution rules g ->
    (forall board0, length (row rules) <= length board0 ->
        snd (generateMoves rules board0) = Returned
        \/ exists e, snd (generateMoves rules board0) = Raised (Thrown e))
    /\ (length (row rules) <= length (column rules) ->
        exists sol, solve rules = Returns sol).
Proof.
  intros rules g Hg.
  assert (Hgen : forall board0, length (row rules) <= length board0 ->
             snd (generateMoves rules board0) = Returned
             \/ exists e, snd (generateMoves rules board0) = Raised (Thrown e)).
  { intros board0 Hb.
    pose proof (loop_no_TypeError rules g Hg (S (mass (initialStore rules)))
                  (initialStore rules) board0 (initialStore_keeps rules g Hg)
                  (initialStore_keysDistinct rules) Hb) as Hne.
    pose proof (loop_terminates (S (mass (initialStore rules))) (initialStore rules)
                  board0 (initialStore_keysDistinct rules) (Nat.lt_succ_diag_r _)) as Hf.
    unfold generateMoves, generateMovesFuel.
    destruct (loop _ _ _) as [[b' ms] [|[|e]|]]; simpl in *.
    - now left.
    - now exfalso.
    - right. now exists e.
    - now exfalso. }
  split; [exact Hgen|].
  intro Hle. unfold solve.
  destruct (Hgen (generateEmptyBoardFor rules)) as [H | [e H]].
  - unfold generateEmptyBoardFor, utils.count. now rewrite length_map, length_seq.
  - destruct (generateMoves rules (generateEmptyBoardFor rules)) as [[b' ms] out].
    simpl in H. subst out. eexists. reflexivity.
  - destruct (generateMoves rules (generateEmptyBoardFor rules)) as [[b' ms] out].
    simpl in H. subst out. eexists. reflexivity.
Qed.

Lemma solve_solvable_puzzle_returns_witness :
  isSolution {| column := [[R 1 1]; [R 1 1]]; row := [[]; [R 2 1]] |}
             [[-1; -1]; [1; 1]]%Z
  /\ exists sol,
       solve {| column := [[R 1 1]; [R 1 1]]; row := [[]; [R 2 1]] |} = Returns sol.
Proof.
  assert (Hs : isSolution {| column := [[R 1 1]; [R 1 1]]; row := [[]; [R 2 1]] |}
                          [[-1; -1]; [1; 1]]%Z).
  { split.
    - repeat constructor.
    - intros [|[|[|k]]] clue H; simpl in H; try discriminate;
        injection H as <-; reflexivity. }
  split; [exact Hs|].
  apply (proj2 (solve_solvable_puzzle_returns _ _ Hs)).
  simpl. lia.
Defined.

(* ================================================================== *)
(** ** A solved run writes every cell once *)
(* ================================================================== *)

Section EveryCell.

Lemma NoDup_list_prod {A B : Type} (l : list A) (l' : list B) :
  NoDup l -> NoDup l' -> NoDup (list_prod l l').
Proof.
  intros Hl Hl'. induction Hl as [|a l Ha Hl IH]; simpl; [constructor|].
  apply NoDup_app.
  - apply Injective_map_NoDup_in; [|assumption].
    intros u v _ _ E. now injection E.
  - exact IH.
  - intros p Hp Hp'. apply in_map_iff in Hp as [u [<- _]].
    apply in_prod_iff in Hp' as [Hin _]. contradiction.
Qed.

Lemma NoDup_allTiles (rules : Rules) : NoDup (allTiles rules).
Proof.
  unfold allTiles. apply Injective_map_NoDup_in.
  - intros [u v] [u' v'] _ _ E. simpl in E. now injection E as -> ->.
  - apply NoDup_list_prod; apply seq_NoDup.
Qed.

Lemma In_allTiles (rules : Rules) (x0 y0 : nat) :
  x0 < length (row rules) -> y0 < length (column rules) ->
  In {| x := x0; y := y0 |} (allTiles rules).
Proof.
  intros Hx Hy. unfold allTiles. apply in_map_iff. exists (x0, y0).
  split; [reflexivity|]. apply in_prod; apply in_seq; lia.
Qed.

Lemma allTiles_inv (rules : Rules) (t : Tile) :
  In t (allTiles rules) -> x t < length (row rules) /\ y t < length (column rules).
Proof.
  unfold allTiles. intro H. apply in_map_iff in H as [[u v] [<- H]].
  apply in_prod_iff in H as [Hu Hv]. apply in_seq in Hu, Hv. simpl. lia.
Qed.

(** A cell that went from 0 to another value is the tile of a move. *)
Lemma writesZeroOnly_written (b b' : Board) (ms : list Move) :
  writesZeroOnly b ms b' ->
  forall x0 y0 v, cellAt b x0 y0 = Some 0%Z -> cellAt b' x0 y0 = Some v ->
    v <> 0%Z -> In {| x := x0; y := y0 |} (map tile ms).
Proof.
  induction 1 as [b | b m ms b' Hz Hw IH]; intros x0 y0 v H0 Hv Hnz.
  - congruence.
  - simpl.
    destruct (Nat.eqb (x (tile m)) x0 && Nat.eqb (y (tile m)) y0) eqn:E.
    + left. apply andb_true_iff in E as [Ex Ey]. apply Nat.eqb_eq in Ex, Ey.
      subst. now destruct (tile m).
    + right. apply (IH x0 y0 v); [|assumption | assumption].
      now rewrite cellAt_setCell, E.
Qed.

End EveryCell.

(** X18.  On a puzzle with as many rows as columns whose clues do not use
    the colour id 0, a run of generateMoves on the board solve creates
    that returns (the run solve reports as solved=true) has written
    every cell: no cell of the final board is 0, every tile of the puzzle
    is the target of exactly one yielded move, and exactly
    rows x columns moves were yielded. *)
Theorem solved_square_run_writes_every_cell_once :
  forall (rules : Rules) (b' : Board) (ms : list Move),
    noZeroColour rules ->
    length (row rules) = length (column rules) ->
    generateMoves rules (generateEmptyBoardFor rules) = (b', ms, Returned) ->
    Forall (Forall (fun c => c <> 0%Z)) b'
    /\ (forall t, In t (map tile ms) <-> In t (allTiles rules))
    /\ NoDup (map tile ms)
    /\ length ms = length (row rules) * length (column rules).
Proof.
  intros rules b' ms Hz Hsq E.
  pose proof (generateMoves_moves_ok rules (S (mass (initialStore rules)))
                (generateEmptyBoardFor rules) Hz) as Hok.
  fold (generateMoves rules (generateEmptyBoardFor rules)) in Hok.
  rewrite E in Hok. cbn [fst snd] in Hok. destruct Hok as (Hin & Hnd).
  pose proof (tiles_bound rules ms Hin Hnd) as Hle.
  pose proof (loop_frame (S (mass (initialStore rules))) (initialStore rules)
                (generateEmptyBoardFor rules)) as Hw.
  fold (generateMovesFuel (S (mass (initialStore rules))) rules
          (generateEmptyBoardFor rules)) in Hw.
  fold (generateMoves rules (generateEmptyBoardFor rules)) in Hw.
  rewrite E in Hw. cbn [fst snd] in Hw.
  assert (Hfull : forall x0 y0, x0 < length (row rules) -> y0 < length (column rules) ->
                    exists v, cellAt b' x0 y0 = Some v /\ v <> 0%Z).
  { apply (generateMoves_returned_no_unknown rules (generateEmptyBoardFor rules) b'
             (S (mass (initialStore rules))) ms Hz); [|exact E].
    intros x0 y0 Hx Hy. exists 0%Z. apply generateEmptyBoardFor_cell; lia. }
  assert (Hshape : map (@length Z) b'
                   = repeat (length (row rules)) (length (column rules))).
  { rewrite <- generateEmptyBoardFor_shape. eapply writesZeroOnly_shape; eassumption. }
  assert (Hall : forall t, In t (allTiles rules) -> In t (map tile ms)).
  { intros [x0 y0] Ht. apply allTiles_inv in Ht as [Hx Hy]. simpl in Hx, Hy.
    destruct (Hfull x0 y0 Hx Hy) as (v & Hv & Hnz).
    apply (writesZeroOnly_written _ _ _ Hw x0 y0 v); try assumption.
    apply generateEmptyBoardFor_cell; lia. }
  split; [|split; [|split]].
  - apply Forall_forall. intros r Hr. apply Forall_forall. intros c Hc.
    apply In_nth_error in Hr as [x0 Hx0]. apply In_nth_error in Hc as [y0 Hy0].
    assert (Hx : x0 < length b') by (apply nth_error_Some; congruence).
    assert (Hy : y0 < length r) by (apply nth_error_Some; congruence).
    assert (Hlb : length b' = length (column rules)).
    { apply (f_equal (@length nat)) in Hshape.
      now rewrite length_map, repeat_length in Hshape. }
    assert (Hlr : length r = length (row rules)).
    { assert (Hr : In (length r) (map (@length Z) b')).
      { apply in_map. eapply nth_error_In; eassumption. }
      rewrite Hshape in Hr. now apply repeat_spec in Hr. }
    destruct (Hfull x0 y0) as (v & Hv & Hnz); [lia | lia |].
    unfold cellAt in Hv. rewrite Hx0 in Hv. congruence.
  - intro t. split; [|apply Hall].
    intro Ht. apply in_map_iff in Ht as [m [<- Hm]].
    apply inPuzzle_allTiles. rewrite Forall_forall in Hin. now apply Hin.
  - exact Hnd.
  - apply Nat.le_antisymm; [exact Hle|].
    rewrite <- (length_map tile ms), <- length_allTiles.
    apply NoDup_incl_length; [apply NoDup_allTiles | exact Hall].
Qed.

Lemma solved_square_run_writes_every_cell_once_witness :
  generateMoves {| column := [[R 1 1]; [R 1 1]]; row := [[]; [R 2 1]] |}
                [[0; 0]; [0; 0]]%Z
  = ([[-1; -1]; [1; 1]]%Z,
     [{| tile := {| x := 0; y := 0 |}; next := (-1)%Z |};
      {| tile := {| x := 0; y := 1 |}; next := (-1)%Z |};
      {| tile := {| x := 1; y := 0 |}; next := 1%Z |};
      {| tile := {| x := 1; y := 1 |}; next := 1%Z |}],
     Returned)
  /\ length [{| tile := {| x := 0; y := 0 |}; next := (-1)%Z |};
             {| tile := {| x := 0; y := 1 |}; next := (-1)%Z |};
             {| tile := {| x := 1; y := 0 |}; next := 1%Z |};
             {| tile := {| x := 1; y := 1 |}; next := 1%Z |}]
     = length (row {| column := [[R 1 1]; [R 1 1]]; row := [[]; [R 2 1]] |})
       * length (column {| column := [[R 1 1]; [R 1 1]]; row := [[]; [R 2 1]] |}).
Proof.
  split; [reflexivity|].
  apply (solved_square_run_writes_every_cell_once
           {| column := [[R 1 1]; [R 1 1]]; row := [[]; [R 2 1]] |}
           [[-1; -1]; [1; 1]]%Z).
  - split; repeat constructor; simpl; discriminate.
  - reflexivity.
  - reflexivity.
Defined.

(* ================================================================== *)
(** ** Unknown tiles and the report; boards without unknown tile *)
(* ================================================================== *)

Section UnknownTiles.

Variable rules : Rules.

Lemma loop_Thrown_unknown (fuel : nat) (s : Store) (b b' : Board) (ms : list Move)
    (e : SolveError) :
  solvedInv rules s b ->
  loop fuel s b = (b', ms, Raised (Thrown e)) ->
  forall x0 y0, x0 < length (row rules) -> y0 < length (column rules) ->
    cellAt b' x0 y0 = Some 0%Z ->
    In x0 (unsolvedRows e) /\ In y0 (unsolvedColumns e).
Proof.
  revert s b b' ms. induction fuel as [|fuel IH]; intros s b b' ms Hs; cbn [loop].
  - destruct (_ || _); discriminate.
  - destruct (_ || _); [discriminate|].
    destruct (round s b) as [[b1 ms1] [s' | e0]] eqn:E.
    + pose proof (round_solvedInv rules _ _ _ _ _ Hs E) as Hs'.
      destruct (loop fuel s' b1) as [[b2 ms2] out] eqn:El.
      intro H. injection H as <- _ ->. eapply IH; eassumption.
    + intro H. injection H as <- _ ->. intros x0 y0 Hx Hy H0.
      destruct Hs as (Hd & _ & _ & _ & _ & Hcells).
      destruct (round_Thrown _ _ _ _ _ Hd E) as [Kr Kc]. rewrite Kr, Kc.
      pose proof (respectsFrame_round s b) as Hw. rewrite E in Hw. simpl in Hw.
      destruct (Hcells x0 y0 Hx Hy) as (v & Hv & Hret).
      destruct (writesZeroOnly_cell _ _ _ Hw x0 y0 v Hv) as (v' & Hv' & Hkeep).
      assert (v' = 0%Z) by congruence. subst v'.
      assert (Hv0 : v = 0%Z).
      { destruct (Z.eq_dec v 0) as [Ez | Ez]; [exact Ez|].
        symmetry. now apply Hkeep. }
      split.
      * destruct (in_dec Nat.eq_dec x0 (utils.keys (rowMap s))) as [Hi | Hn];
          [exact Hi|].
        exfalso. now apply (Hret (or_introl Hn)).
      * destruct (in_dec Nat.eq_dec y0 (utils.keys (colMap s))) as [Hi | Hn];
          [exact Hi|].
        exfalso. now apply (Hret (or_intror Hn)).
Qed.

(** On a board without unknown cell no move is written. *)
Lemma writesZeroOnly_full (b b' : Board) (ms : list Move) :
  writesZeroOnly b ms b' -> Forall (Forall (fun c => c <> 0%Z)) b ->
  ms = [] /\ b' = b.
Proof.
  intros Hw Hfull. destruct Hw as [b | b m ms b' Hz _]; [now split|].
  exfalso. unfold cellAt in Hz.
  destruct (nth_error b (x (tile m))) as [r|] eqn:Er; [|discriminate].
  apply nth_error_In in Er, Hz. rewrite Forall_forall in Hfull.
  specialize (Hfull r Er). rewrite Forall_forall in Hfull.
  now apply (Hfull 0%Z Hz).
Qed.

End UnknownTiles.

(** X19.  On a puzzle with as many rows as columns whose clues do not use
    the colour id 0, every tile that solve leaves unknown lies in a
    reported line: if a cell of the returned board is 0, its row index is
    in the list of unsolved rows and its column index in the list of
    unsolved columns.  (With solved=true both lists are empty, so no cell
    is 0.) *)
Theorem unknown_tiles_lie_in_reported_lines :
  forall (rules : Rules) (sol : Solution) (x0 y0 : nat),
    noZeroColour rules ->
    length (row rules) = length (column rules) ->
    solve rules = Returns sol ->
    cellAt (board sol) x0 y0 = Some 0%Z ->
    In x0 (unsolved_rows sol) /\ In y0 (unsolved_columns sol).
Proof.
  intros rules sol x0 y0 Hz Hsq Hsol H0.
  assert (Hshape : map (@length Z) (board sol)
                   = repeat (length (row rules)) (length (column rules))).
  { rewrite <- generateEmptyBoardFor_shape.
    pose proof (loop_frame (S (mass (initialStore rules))) (initialStore rules)
                  (generateEmptyBoardFor rules)) as Hw.
    apply writesZeroOnly_shape in Hw. rewrite <- Hw.
    fold (generateMovesFuel (S (mass (initialStore rules))) rules
            (generateEmptyBoardFor rules)).
    fold (generateMoves rules (generateEmptyBoardFor rules)).
    unfold solve in Hsol.
    destruct (generateMoves rules (generateEmptyBoardFor rules))
      as [[b' ms] [|[|e]|]]; try discriminate; injection Hsol as <-; reflexivity. }
  assert (Hx : x0 < length (row rules) /\ y0 < length (column rules)).
  { unfold cellAt in H0.
    destruct (nth_error (board sol) x0) as [r|] eqn:Er; [|discriminate].
    assert (Hx : x0 < length (board sol)) by (apply nth_error_Some; congruence).
    assert (Hy : y0 < length r) by (apply nth_error_Some; congruence).
    assert (Hlr : length r = length (row rules)).
    { assert (Hr : In (length r) (map (@length Z) (board sol))).
      { apply in_map. eapply nth_error_In; eassumption. }
      rewrite Hshape in Hr. now apply repeat_spec in Hr. }
    apply (f_equal (@length nat)) in Hshape.
    rewrite length_map, repeat_length in Hshape. lia. }
  destruct Hx as [Hx Hy].
  assert (Hcells : forall x1 y1, x1 < length (row rules) -> y1 < length (column rules) ->
                     exists v, cellAt (generateEmptyBoardFor rules) x1 y1 = Some v).
  { intros x1 y1 Hx1 Hy1. exists 0%Z. apply generateEmptyBoardFor_cell; lia. }
  unfold solve in Hsol.
  destruct (generateMoves rules (generateEmptyBoardFor rules))
    as [[b' ms] [|[|e]|]] eqn:E; try discriminate; injection Hsol as <-;
    cbn [board unsolved_rows unsolved_columns] in *.
  - exfalso.
    destruct (generateMoves_returned_no_unknown rules _ _ _ _ Hz Hcells E x0 y0 Hx Hy)
      as (v & Hv & Hnz).
    congruence.
  - unfold generateMoves, generateMovesFuel in E.
    eapply (loop_Thrown_unknown rules); try eassumption.
    now apply initialStore_solvedInv.
Qed.

Lemma unknown_tiles_lie_in_reported_lines_witness :
  In 0 [0; 1] /\ In 1 [0; 1].
Proof.
  apply (unknown_tiles_lie_in_reported_lines
           {| column := [[R 1 1]; [R 1 1]]; row := [[R 1 1]; [R 1 1]] |}
           {| board := [[0; 0]; [0; 0]]%Z; solved := false;
              unsolved_rows := [0; 1]; unsolved_columns := [0; 1] |} 0 1).
  - split; repeat constructor; simpl; discriminate.
  - reflexivity.
  - reflexivity.
  - reflexivity.
Defined.

(** X20.  On a board that holds no unknown cell, for any rules,
    generateMoves yields no move and leaves the board as it is, however
    the run ends. *)
Theorem generateMoves_on_full_board_yields_nothing :
  forall (fuel : nat) (rules : Rules) (board0 : Board),
    Forall (Forall (fun c => c <> 0%Z)) board0 ->
    snd (fst (generateMovesFuel fuel rules board0)) = []
    /\ fst (fst (generateMovesFuel fuel rules board0)) = board0.
Proof.
  intros fuel rules board0 Hfull. unfold generateMovesFuel.
  eapply writesZeroOnly_full; [apply loop_frame | exact Hfull].
Qed.

Lemma generateMoves_on_full_board_yields_nothing_witness :
  snd (fst (generateMoves {| column := [[R 1 1]; [R 1 1]]; row := [[]; [R 2 1]] |}
                          [[-1; -1]; [1; 1]]%Z)) = []
  /\ fst (fst (generateMoves {| column := [[R 1 1]; [R 1 1]]; row := [[]; [R 2 1]] |}
                             [[-1; -1]; [1; 1]]%Z)) = [[-1; -1]; [1; 1]]%Z.
Proof.
  apply (generateMoves_on_full_board_yields_nothing
           (S (mass (initialStore
                       {| column := [[R 1 1]; [R 1 1]]; row := [[]; [R 2 1]] |})))
           {| column := [[R 1 1]; [R 1 1]]; row := [[]; [R 2 1]] |}
           [[-1; -1]; [1; 1]]%Z).
  repeat constructor; discriminate.
Defined.

(* ================================================================== *)
(** ** Every reported line has an unknown tile *)
(* ================================================================== *)

Section PrunedLines.

Lemma pruneLines_post (Q : nat * list Line -> Prop)
    (pruneOne : nat -> list Line -> PruneResult) (err : nat -> SolutionMap -> Exn)
    (todo done : SolutionMap) (cnt p : Z) (m' : SolutionMap) (cnt' p' : Z) :
  NoDup (utils.keys (done ++ todo)) ->
  Forall Q done ->
  (forall k solns, In (k, solns) todo -> isLineSolved solns = false ->
                   Q (k, fst (pruneOne k solns))) ->
  pruneLines pruneOne err todo (done ++ todo) cnt p = Ok (m', cnt', p') ->
  Forall Q m'.
Proof.
  revert done cnt p. induction todo as [|[k solns] rest IH]; intros done cnt p Hnd Hd Hq.
  - simpl. intro H. injection H as <- <- <-. now rewrite app_nil_r.
  - cbn [pruneLines]. destruct (isLineSolved solns) eqn:Es.
    + rewrite deleteKey_middle by assumption. intro H.
      apply (IH done _ _) in H; try assumption.
      * rewrite keys_app in *. simpl in Hnd. eapply NoDup_remove_1; eassumption.
      * intros k' solns' Hin. apply Hq. now right.
    + destruct (isLineConflict solns); [discriminate|].
      pose proof (Hq k solns (or_introl eq_refl) Es) as Hk.
      destruct (pruneOne k solns) as [solns' pruned]. cbn [fst] in Hk.
      rewrite setSolns_middle by assumption.
      change (done ++ (k, solns') :: rest) with (done ++ [(k, solns')] ++ rest).
      rewrite app_assoc. intro H.
      apply (IH (done ++ [(k, solns')]) _ _) in H; try assumption.
      * rewrite <- app_assoc. rewrite keys_app in *. exact Hnd.
      * apply Forall_app. split; [assumption | now constructor].
      * intros k' solns'' Hin. apply Hq. now right.
Qed.

(** With nothing counted as pruned, the line loop retired no line and
    removed no candidate. *)
Lemma pruneLines_zero (pruneOne : nat -> list Line -> PruneResult)
    (err : nat -> SolutionMap -> Exn) (todo m : SolutionMap) (cnt p : Z)
    (m' : SolutionMap) (cnt' p' : Z) :
  (forall k solns, exists keep,
      pruneOne k solns
      = (filter keep solns,
         (Z.of_nat (length solns) - Z.of_nat (length (filter keep solns)))%Z)) ->
  pruneLines pruneOne err todo m cnt p = Ok (m', cnt', p') ->
  (p' <= p)%Z ->
  Forall (fun e => isLineSolved (snd e) = false
                   /\ fst (pruneOne (fst e) (snd e)) = snd e) todo.
Proof.
  intro Hf.
  assert (Hp : forall k solns, (0 <= snd (pruneOne k solns))%Z).
  { intros k solns. destruct (Hf k solns) as [keep ->]. cbn [snd].
    pose proof (filter_length_le keep solns). lia. }
  revert m cnt p. induction todo as [|[k solns] rest IH]; intros m cnt p; [constructor|].
  cbn [pruneLines]. destruct (isLineSolved solns) eqn:Es.
  - intros H Hle. exfalso. apply (pruneLines_count _ _ _ _ _ _ _ _ _ Hp) in H.
    pose proof (filter_length_le (fun e : nat * list (list Z) => negb (isLineSolved (snd e)))
                  rest) as Hl.
    fold (unsolvedOf rest) in Hl. lia.
  - destruct (isLineConflict solns); [discriminate|].
    destruct (Hf k solns) as [keep Ek]. pose proof (Hp k solns) as Hpk.
    destruct (pruneOne k solns) as [solns' pruned] eqn:Ep. cbn [snd] in Hpk.
    intros H Hle.
    pose proof (pruneLines_count _ _ _ _ _ _ _ _ _ Hp H) as Hc.
    pose proof (filter_length_le (fun e : nat * list (list Z) => negb (isLineSolved (snd e)))
                  rest) as Hl.
    fold (unsolvedOf rest) in Hl.
    assert (Hz : pruned = 0%Z) by lia. subst pruned.
    constructor.
    + cbn [fst snd]. split; [exact Es|]. rewrite Ep. cbn [fst].
      injection Ek as -> Hk. apply filter_same_length. lia.
    + apply (IH _ _ _ H). lia.
Qed.

Lemma arcPass_filterClosed (Pr Pc : nat * list Line -> Prop)
    (xs ys : list nat) st st' :
  (forall k solns f, Pr (k, solns) -> Pr (k, filter f solns)) ->
  (forall k solns f, Pc (k, solns) -> Pc (k, filter f solns)) ->
  Forall Pr (fst (fst st)) -> Forall Pc (snd (fst st)) ->
  arcPass xs ys st = Ok st' ->
  Forall Pr (fst (fst st')) /\ Forall Pc (snd (fst st')).
Proof.
  intros Fr Fc Hr Hc. unfold arcPass.
  set (I := fun s1 : list (nat * list (list Z)) * list (nat * list (list Z)) * Z =>
              Forall Pr (fst (fst s1)) /\ Forall Pc (snd (fst s1))).
  apply (forEachR_inv I); [|split; assumption].
  intros x0 st1 st2. apply (forEachR_inv I). clear st st' Hr Hc st1 st2.
  intros y0 [[rm cm] p] st2 [H1 H2]. unfold arcCell. simpl in *.
  destruct (lookup y0 cm) as [cl|] eqn:Ec; [|discriminate].
  destruct (lookup x0 rm) as [rl|] eqn:Er; [|discriminate].
  apply lookup_In in Ec, Er.
  unfold pruneByColors. cbv zeta. intro H. injection H as <-. simpl.
  rewrite Forall_forall in H1, H2. pose proof (H1 _ Er). pose proof (H2 _ Ec).
  split; apply Forall_setSolns; try (apply Forall_forall; assumption).
  - now apply Fr.
  - now apply Fc.
Qed.

Lemma prunedFrom_filter (keyDim idxDim : Dim) (m : SolutionMap) (moves : list Move)
    (k : nat) (solns : list Line) (f : Line -> bool) :
  prunedFrom keyDim idxDim m moves (k, solns) ->
  prunedFrom keyDim idxDim m moves (k, filter f solns).
Proof.
  intros (solns0 & Hin & Hns & Hincl & Hag). exists solns0. cbn [fst snd] in *.
  split; [assumption|]. split; [assumption|]. split.
  - intros l Hl. apply filter_In in Hl as [Hl _]. now apply Hincl.
  - intros mv Hmv Hk l Hl. apply filter_In in Hl as [Hl _]. now apply Hag.
Qed.

Lemma prunedFrom_prune (keyDim idxDim : Dim) (m : SolutionMap) (moves : list Move)
    (k : nat) (solns : list Line) :
  In (k, solns) m -> isLineSolved solns = false ->
  prunedFrom keyDim idxDim m moves
    (k, fst (pruneByMoves idxDim solns (filterMoves keyDim k moves))).
Proof.
  intros Hin Hns. exists solns. cbn [fst snd].
  split; [assumption|]. split; [assumption|].
  unfold pruneByMoves. cbv zeta. cbn [fst]. split; [apply incl_filter|].
  intros mv Hmv Hk l Hl. apply filter_In in Hl as [_ Hl].
  rewrite forallb_forall in Hl. apply strictEq_true. apply Hl.
  unfold filterMoves. apply filter_In. split; [assumption|]. now apply Nat.eqb_eq.
Qed.

Lemma prunedFrom_unpruned (keyDim idxDim : Dim) (m : SolutionMap) (moves : list Move)
    (k : nat) (solns : list Line) :
  In (k, solns) m -> isLineSolved solns = false ->
  fst (pruneByMoves idxDim solns (filterMoves keyDim k moves)) = solns ->
  prunedFrom keyDim idxDim m moves (k, solns).
Proof.
  intros Hin Hns E. rewrite <- E. now apply prunedFrom_prune.
Qed.

(** After the pruning phases of a round that continues, every line left
    in a map holds candidates of the same line at the start of the round
    that agree with every move of the round on that line. *)
Lemma pruneStore_post (s s' : Store) (rowMoves colMoves : list Move) :
  storeKeysDistinct s -> pruneStore s rowMoves colMoves = Ok s' ->
  Forall (prunedFrom DimX DimY (rowMap s) colMoves) (rowMap s')
  /\ Forall (prunedFrom DimY DimX (colMap s) rowMoves) (colMap s').
Proof.
  intros [Hr Hc]. unfold pruneStore, utils.values.
  rewrite pruneRows_pruneLines.
  destruct (pruneLines _ _ (rowMap s) (rowMap s) _ _) as [[[rm1 rc1] p1] | e] eqn:E1;
    simpl; [|discriminate].
  rewrite pruneCols_pruneLines.
  destruct (pruneLines _ _ (colMap s) (colMap s) _ _) as [[[cm1 cc1] p2] | e] eqn:E2;
    simpl; [|discriminate].
  apply (pruneLines_post (prunedFrom DimX DimY (rowMap s) colMoves) _ _ _ []) in E1;
    [|exact Hr | constructor
     |intros k solns Hin Hns; now apply (prunedFrom_prune DimX DimY)].
  apply (pruneLines_post (prunedFrom DimY DimX (colMap s) rowMoves) _ _ _ []) in E2;
    [|exact Hc | constructor
     |intros k solns Hin Hns; now apply (prunedFrom_prune DimY DimX)].
  destruct (p2 >? 0)%Z.
  - intro H. injection H as <-. simpl. auto.
  - destruct (arcPass _ _ _) as [[[rm2 cm2] p3] | e] eqn:E3; simpl; [|discriminate].
    destruct (arcPass_filterClosed _ _ _ _ (rm1, cm1, p2) _
                (prunedFrom_filter DimX DimY (rowMap s) colMoves)
                (prunedFrom_filter DimY DimX (colMap s) rowMoves) E1 E2 E3) as [L1 L2].
    destruct (p3 =? 0)%Z; [discriminate|].
    intro H. injection H as <-. simpl. auto.
Qed.

(** When the pruning phases give up, no line of the maps is a line to
    retire, and every candidate agrees with every move of the round. *)
Lemma pruneStore_stuck (s : Store) (rowMoves colMoves : list Move) (e : SolveError) :
  Forall (fun entry => snd entry <> []) (rowMap s) ->
  Forall (fun entry => snd entry <> []) (colMap s) ->
  pruneStore s rowMoves colMoves = Throw (Thrown e) ->
  Forall (prunedFrom DimX DimY (rowMap s) colMoves) (rowMap s)
  /\ Forall (prunedFrom DimY DimX (colMap s) rowMoves) (colMap s).
Proof.
  intros Nr Nc. unfold pruneStore, utils.values. rewrite pruneRows_pruneLines.
  destruct (pruneLines _ _ (rowMap s) (rowMap s) _ _) as [[[rm1 rc1] p1] | e0] eqn:P1.
  2:{ exfalso. exact (pruneLines_no_conflict _ _ _ _ _ _ _ Nr P1). }
  simpl. rewrite pruneCols_pruneLines.
  destruct (pruneLines _ _ (colMap s) (colMap s) _ _) as [[[cm1 cc1] p2] | e0] eqn:P2.
  2:{ exfalso. exact (pruneLines_no_conflict _ _ _ _ _ _ _ Nc P2). }
  simpl.
  destruct (p2 >? 0)%Z eqn:Ep; [discriminate|]. intros _.
  assert (Hp2 : (p2 <= 0)%Z).
  { rewrite Z.gtb_ltb in Ep. now apply Z.ltb_ge in Ep. }
  pose proof (pruneLines_count _ _ _ _ _ _ _ _ _
                (fun k solns => pruneByMoves_count DimY solns (movesForRow k colMoves)) P1)
    as C1.
  pose proof (pruneLines_count _ _ _ _ _ _ _ _ _
                (fun k solns => pruneByMoves_count DimX solns (movesForCol k rowMoves)) P2)
    as C2.
  pose proof (filter_length_le (fun e1 : nat * list (list Z) => negb (isLineSolved (snd e1)))
                (rowMap s)) as Lr.
  pose proof (filter_length_le (fun e1 : nat * list (list Z) => negb (isLineSolved (snd e1)))
                (colMap s)) as Lc.
  fold (unsolvedOf (rowMap s)) in Lr. fold (unsolvedOf (colMap s)) in Lc.
  apply pruneLines_zero in P1;
    [|intros k solns; apply (pruneByMoves_filter DimY) | lia].
  apply pruneLines_zero in P2;
    [|intros k solns; apply (pruneByMoves_filter DimX) | lia].
  split.
  - apply Forall_forall. intros [k solns] Hin.
    rewrite Forall_forall in P1. destruct (P1 _ Hin) as [Hns Hsame].
    cbn [fst snd] in Hns, Hsame. now apply (prunedFrom_unpruned DimX DimY).
  - apply Forall_forall. intros [k solns] Hin.
    rewrite Forall_forall in P2. destruct (P2 _ Hin) as [Hns Hsame].
    cbn [fst snd] in Hns, Hsame. now apply (prunedFrom_unpruned DimY DimX).
Qed.

End PrunedLines.

Section StuckRun.

Variable rules : Rules.

Lemma other_other (d : Dim) : other (other d) = d.
Proof. now destruct d. Qed.

Lemma tileDim_tileOf_key (d : Dim) (k i : nat) : tileDim d (tileOf d k i) = k.
Proof. now destruct d. Qed.

Lemma tileDim_tileOf_idx (d : Dim) (k i : nat) : tileDim (other d) (tileOf d k i) = i.
Proof. now destruct d. Qed.

Lemma tileOf_swap (d : Dim) (k i : nat) : tileOf (other d) i k = tileOf d k i.
Proof. now destruct d. Qed.

Lemma tileOf_inj (d : Dim) (k i k' i' : nat) :
  tileOf d k i = tileOf d k' i' -> k = k' /\ i = i'.
Proof. destruct d; simpl; intro E; injection E; auto. Qed.

Lemma tile_eta (t : Tile) : {| x := x t; y := y t |} = t.
Proof. now destruct t. Qed.

Lemma tileOf_range (d : Dim) (k i : nat) :
  k < linesOf rules d -> i < linesOf rules (other d) ->
  x (tileOf d k i) < length (row rules) /\ y (tileOf d k i) < length (column rules).
Proof. destruct d; simpl; auto. Qed.

Lemma allAgree_incl (solns solns' : list Line) (i : nat) :
  incl solns' solns -> allAgree solns i -> allAgree solns' i.
Proof. intros Hsub [v Hv]. exists v. intros l Hl. apply Hv. now apply Hsub. Qed.

Lemma NoDup_keys_same (m : SolutionMap) (k : nat) (v1 v2 : list Line) :
  NoDup (utils.keys m) -> In (k, v1) m -> In (k, v2) m -> v1 = v2.
Proof.
  induction m as [|[k' v] m IH]; simpl; intros Hnd H1 H2; [destruct H1|].
  inversion Hnd as [|? ? Hk Hnd']; subst.
  destruct H1 as [E1 | H1], H2 as [E2 | H2].
  - congruence.
  - injection E1 as -> ->. exfalso. apply Hk. now apply (in_map fst) in H2.
  - injection E2 as -> ->. exfalso. apply Hk. now apply (in_map fst) in H1.
  - now apply IH.
Qed.

Lemma lists_differ (l1 l2 : Line) :
  l1 <> l2 -> length l1 = length l2 ->
  exists i, i < length l1 /\ nth_error l1 i <> nth_error l2 i.
Proof.
  revert l2. induction l1 as [|c l1 IH]; intros [|c' l2] Hne Hlen;
    try discriminate; [contradiction|].
  destruct (Z.eq_dec c c') as [-> | Hc].
  - destruct (IH l2) as (i & Hi & Hd).
    + intro E. apply Hne. now rewrite E.
    + simpl in Hlen. lia.
    + exists (S i). simpl. split; [lia | exact Hd].
  - exists 0. simpl. split; [lia | congruence].
Qed.

Lemma two_candidates (solns : list Line) :
  solns <> [] -> isLineSolved solns = false -> NoDup solns ->
  exists l1 l2, In l1 solns /\ In l2 solns /\ l1 <> l2.
Proof.
  destruct solns as [|l1 [|l2 rest]]; intros Hne Hns Hnd.
  - contradiction.
  - discriminate.
  - exists l1, l2. simpl. repeat split; auto.
    inversion Hnd as [|? ? Hn _]; subst. intros ->. apply Hn. now left.
Qed.

Lemma writesZeroOnly_untouched (b b' : Board) (ms : list Move) :
  writesZeroOnly b ms b' ->
  forall x0 y0, ~ In {| x := x0; y := y0 |} (map tile ms) ->
    cellAt b' x0 y0 = cellAt b x0 y0.
Proof.
  induction 1 as [b | b m ms b' Hz Hw IH]; intros x0 y0 Hn; [reflexivity|].
  simpl in Hn. rewrite IH by tauto. rewrite cellAt_setCell.
  destruct (Nat.eqb (x (tile m)) x0 && Nat.eqb (y (tile m)) y0) eqn:E; [|reflexivity].
  exfalso. apply Hn. left.
  apply andb_true_iff in E as [Ex Ey]. apply Nat.eqb_eq in Ex, Ey. subst.
  symmetry. apply tile_eta.
Qed.

Lemma wellKeyed_range (d : Dim) (s : Store) :
  wellKeyed rules s ->
  Forall (fun k => k < linesOf rules d) (utils.keys (mapOf d s))
  /\ NoDup (utils.keys (mapOf d s)).
Proof.
  intro Hs. pose proof (wellKeyed_distinct rules s Hs) as [Dr Dc].
  destruct Hs as (_ & _ & Fr & Fc & _). destruct d; simpl; auto.
Qed.

Lemma dim_moves (s : Store) (rowMoves colMoves : list Move) :
  flatMapR (fun row => findMovesFromRow (fst row) (utils.keys (colMap s)) (snd row))
           (utils.values (rowMap s)) = Ok rowMoves ->
  flatMapR (fun col => findMovesFromCol (fst col) (utils.keys (rowMap s)) (snd col))
           (utils.values (colMap s)) = Ok colMoves ->
  forall d, findMovesOf d s = Ok (movesBy d rowMoves colMoves).
Proof. intros F1 F2 [|]; [exact F1 | exact F2]. Qed.

Lemma movesBy_cases (d : Dim) (rowMoves colMoves : list Move) (m : Move) :
  In m (rowMoves ++ colMoves) ->
  In m (movesBy d rowMoves colMoves) \/ In m (movesBy (other d) rowMoves colMoves).
Proof. intro H. apply in_app_or in H. destruct d; simpl; tauto. Qed.

(** The step of the invariant on known tiles, for either dimension. *)
Lemma knownAgree_step (d : Dim) (s s' : Store) (b b' : Board)
    (rowMoves colMoves ms : list Move) :
  stuckInv rules s b ->
  (forall d0, findMovesOf d0 s = Ok (movesBy d0 rowMoves colMoves)) ->
  incl ms (rowMoves ++ colMoves) ->
  writesZeroOnly b ms b' ->
  (forall d0, Forall (prunedFrom d0 (other d0) (mapOf d0 s)
                        (movesBy (other d0) rowMoves colMoves)) (mapOf d0 s')) ->
  (forall d0, utils.keys (mapOf d0 s') = utils.keys (unsolvedOf (mapOf d0 s))) ->
  knownAgree rules d s' b'.
Proof.
  intros (Hwk & Hlok & Hnd & Hcells & Hka) HG Hincl Hw Hpost Hkeys.
  intros k solns' i Hin Hi Hprem.
  pose proof (Hpost d) as Hp. rewrite Forall_forall in Hp.
  destruct (Hp _ Hin) as (solns & Hin0 & Hns & Hsub & Hag). cbn [fst snd] in *.
  destruct (wellKeyed_range d s Hwk) as [Hrange Hdist].
  assert (Hk : k < linesOf rules d).
  { rewrite Forall_forall in Hrange. apply Hrange. now apply (in_map fst) in Hin0. }
  destruct (tileOf_range d k i Hk Hi) as [Hx Hy].
  destruct (Hcells _ _ Hx Hy) as [v Hv].
  destruct (Z.eq_dec v 0) as [-> | Hnz].
  2:{ apply (allAgree_incl solns); [assumption|].
      apply (Hka d k solns i Hin0 Hi). left. rewrite Hv. congruence. }
  destruct (in_dec Nat.eq_dec i (utils.keys (mapOf (other d) s))) as [Hiin | Hiout].
  2:{ apply (allAgree_incl solns); [assumption|].
      apply (Hka d k solns i Hin0 Hi). now right. }
  destruct Hprem as [Hcell' | Hret].
  - (* the tile was written in this round *)
    destruct (writesZeroOnly_cell _ _ _ Hw _ _ _ Hv) as (v' & Hv' & _).
    assert (Hnz' : v' <> 0%Z) by (intros ->; now apply Hcell').
    pose proof (writesZeroOnly_written _ _ _ Hw _ _ _ Hv Hv' Hnz') as Hm.
    rewrite tile_eta in Hm. apply in_map_iff in Hm as (m & Etile & Hm).
    apply Hincl in Hm. apply (movesBy_cases d) in Hm. destruct Hm as [Hm | Hm].
    + pose proof (HG d) as Hf. unfold findMovesOf in Hf.
      destruct (flatMapR_In _ _ _ Hf m Hm) as ([k1 sol1] & bs & He & Hfv & Hinb).
      cbn [fst snd] in Hfv.
      destruct (findValidMoves_sound _ _ _ _ Hfv m Hinb) as (i1 & v1 & Em & Hall).
      rewrite Em in Etile. cbn [tile] in Etile.
      apply tileOf_inj in Etile as [-> ->].
      assert (sol1 = solns) by (eapply NoDup_keys_same; eassumption). subst sol1.
      exists v1. intros l Hl. apply Hall. now apply Hsub.
    + exists (next m). intros l Hl.
      pose proof (Hag m Hm) as Hg. rewrite Etile, tileDim_tileOf_key in Hg.
      specialize (Hg eq_refl l Hl). now rewrite tileDim_tileOf_idx in Hg.
  - (* the crossing line is retired in this round *)
    rewrite Hkeys in Hret.
    destruct (retired_line _ _ Hiin Hret) as [l Hl].
    pose proof (Hlok (other d)) as Hok. rewrite Forall_forall in Hok.
    specialize (Hok _ Hl). unfold linesOk in Hok. simpl in Hok.
    inversion Hok as [|? ? [Hlen _] _]; subst. rewrite other_other in Hlen.
    destruct (nth_error l k) as [c|] eqn:Ec; [|apply nth_error_None in Ec; lia].
    assert (Hkin : In k (utils.keys (mapOf (other (other d)) s))).
    { rewrite other_other. now apply (in_map fst) in Hin0. }
    destruct (findValidMoves_single l _
                (fun i0 v0 => {| tile := tileOf (other d) i i0; next := v0 |})
                k c Ec Hkin) as (moves & Hf & Hinm).
    pose proof (HG (other d)) as HGo. unfold findMovesOf in HGo.
    pose proof (flatMapR_incl _ _ _ (i, [l]) moves HGo Hl Hf _ Hinm) as Hmv.
    exists c. intros l' Hl'.
    pose proof (Hag _ Hmv) as Hg. cbn [tile next] in Hg.
    rewrite tileOf_swap, tileDim_tileOf_key, tileDim_tileOf_idx in Hg.
    now apply Hg.
Qed.

(** A line with two different candidates has an unknown tile. *)
Lemma line_has_unknown (d : Dim) (s : Store) (b : Board) (k : nat) (solns : list Line) :
  knownAgree rules d s b ->
  (forall x0 y0, x0 < length (row rules) -> y0 < length (column rules) ->
     exists v, cellAt b x0 y0 = Some v) ->
  In (k, solns) (mapOf d s) -> k < linesOf rules d ->
  linesOk (linesOf rules (other d)) (k, solns) ->
  NoDup solns -> solns <> [] -> isLineSolved solns = false ->
  exists i, i < linesOf rules (other d)
            /\ cellAt b (x (tileOf d k i)) (y (tileOf d k i)) = Some 0%Z.
Proof.
  intros Hka Hcells Hin Hk Hok Hnd Hne Hns.
  destruct (two_candidates solns Hne Hns Hnd) as (l1 & l2 & H1 & H2 & Hdiff).
  unfold linesOk in Hok. simpl in Hok. rewrite Forall_forall in Hok.
  destruct (Hok l1 H1) as [Len1 _]. destruct (Hok l2 H2) as [Len2 _].
  destruct (lists_differ l1 l2 Hdiff) as (i & Hi & Hd); [congruence|].
  exists i. split; [lia|].
  assert (Hi' : i < linesOf rules (other d)) by lia.
  destruct (tileOf_range d k i Hk Hi') as [Hx Hy].
  destruct (Hcells _ _ Hx Hy) as [v Hv].
  destruct (Z.eq_dec v 0) as [-> | Hnz]; [exact Hv|].
  exfalso. destruct (Hka k solns i Hin Hi') as [w Hw].
  - left. rewrite Hv. congruence.
  - apply Hd. now rewrite (Hw l1 H1), (Hw l2 H2).
Qed.

End StuckRun.

Section StuckLoop.

Variable rules : Rules.

Lemma pruneStore_filterClosed (Pr Pc : nat * list Line -> Prop)
    (s s' : Store) (rowMoves colMoves : list Move) :
  (forall k solns f, Pr (k, solns) -> Pr (k, filter f solns)) ->
  (forall k solns f, Pc (k, solns) -> Pc (k, filter f solns)) ->
  Forall Pr (rowMap s) -> Forall Pc (colMap s) ->
  pruneStore s rowMoves colMoves = Ok s' ->
  Forall Pr (rowMap s') /\ Forall Pc (colMap s').
Proof.
  intros Fr Fc Hr Hc. unfold pruneStore, utils.values.
  rewrite pruneRows_pruneLines.
  destruct (pruneLines _ _ (rowMap s) (rowMap s) _ _) as [[[rm1 rc1] p1] | e] eqn:E1;
    simpl; [|discriminate].
  rewrite pruneCols_pruneLines.
  destruct (pruneLines _ _ (colMap s) (colMap s) _ _) as [[[cm1 cc1] p2] | e] eqn:E2;
    simpl; [|discriminate].
  apply (pruneLines_keeps Pr) in E1; try assumption;
    [|intros k solns; apply Fr].
  apply (pruneLines_keeps Pc) in E2; try assumption;
    [|intros k solns; apply Fc].
  destruct (p2 >? 0)%Z.
  - intro H. injection H as <-. simpl. auto.
  - destruct (arcPass _ _ _) as [[[rm2 cm2] p3] | e] eqn:E3; simpl; [|discriminate].
    destruct (arcPass_filterClosed Pr Pc _ _ (rm1, cm1, p2) _ Fr Fc E1 E2 E3) as [L1 L2].
    destruct (p3 =? 0)%Z; [discriminate|].
    intro H. injection H as <-. simpl. auto.
Qed.

Lemma round_stuckInv (s s' : Store) (b b' : Board) (ms : list Move) :
  stuckInv rules s b -> round s b = (b', ms, Ok s') -> stuckInv rules s' b'.
Proof.
  intros Hinv E. pose proof Hinv as (Hwk & Hlok & Hnd & Hcells & Hka).
  pose proof (respectsFrame_round s b) as Hw. rewrite E in Hw. simpl in Hw.
  apply round_Ok in E
    as (rowMoves & colMoves & b1 & ys1 & ys2 & F1 & F2 & Y1 & Y2 & -> & Hp).
  assert (Hincl : incl (ys1 ++ ys2) (rowMoves ++ colMoves)).
  { apply incl_app; [apply incl_appl | apply incl_appr];
      eapply yieldMoves_incl; eassumption. }
  pose proof (wellKeyed_distinct rules s Hwk) as Hd.
  destruct (pruneStore_post s s' rowMoves colMoves Hd Hp) as [Pr Pc].
  destruct Hwk as (Sr & Sc & Fr & Fc & Cr & Cc).
  destruct (pruneStore_keys s s' rowMoves colMoves Hd Cr Cc Hp) as (Kr & Kc & _ & _).
  assert (Hwk : wellKeyed rules s) by (unfold wellKeyed; auto 10).
  split; [eapply pruneStore_wellKeyed; eassumption|].
  split; [|split; [|split]].
  - destruct (pruneStore_linesOk _ _ s s' rowMoves colMoves (Hlok DimX) (Hlok DimY) Hp)
      as [L1 L2].
    intros [|]; assumption.
  - destruct (pruneStore_filterClosed
                (fun e => NoDup (snd e)) (fun e => NoDup (snd e))
                s s' rowMoves colMoves) as [N1 N2]; try assumption.
    + intros k solns f. simpl. apply NoDup_filter.
    + intros k solns f. simpl. apply NoDup_filter.
    + exact (Hnd DimX).
    + exact (Hnd DimY).
    + intros [|]; assumption.
  - intros x0 y0 Hx Hy. destruct (Hcells x0 y0 Hx Hy) as [v Hv].
    destruct (writesZeroOnly_cell _ _ _ Hw _ _ _ Hv) as (v' & Hv' & _). now exists v'.
  - intro d. apply (knownAgree_step rules d s s' b b' rowMoves colMoves (ys1 ++ ys2));
      try assumption.
    + now apply dim_moves.
    + intros [|]; assumption.
    + intros [|]; assumption.
Qed.

Lemma round_Thrown_facts (s : Store) (b b' : Board) (ms : list Move) (e : SolveError) :
  round s b = (b', ms, Throw (Thrown e)) ->
  exists rowMoves colMoves,
    flatMapR (fun row => findMovesFromRow (fst row) (utils.keys (colMap s)) (snd row))
             (utils.values (rowMap s)) = Ok rowMoves
    /\ flatMapR (fun col => findMovesFromCol (fst col) (utils.keys (rowMap s)) (snd col))
                (utils.values (colMap s)) = Ok colMoves
    /\ incl ms (rowMoves ++ colMoves)
    /\ pruneStore s rowMoves colMoves = Throw (Thrown e).
Proof.
  unfold round, bindG, liftG.
  destruct (flatMapR _ (utils.values (rowMap s))) as [rowMoves | e0] eqn:E1.
  2:{ intro H. injection H as _ _ ->.
      apply flatMapR_Throw in E1 as (a & _ & Hf).
      apply findValidMoves_Throw in Hf as [_ Hf]. discriminate. }
  destruct (flatMapR _ (utils.values (colMap s))) as [colMoves | e0] eqn:E2.
  2:{ intro H. injection H as _ _ ->.
      apply flatMapR_Throw in E2 as (a & _ & Hf).
      apply findValidMoves_Throw in Hf as [_ Hf]. discriminate. }
  destruct (yieldMoves rowMoves b) as [[b1 ys1] [[] | e0]] eqn:Y1.
  2:{ intro H. injection H as _ _ ->. apply yieldMoves_Throw in Y1. discriminate. }
  destruct (yieldMoves colMoves b1) as [[b2 ys2] [[] | e0]] eqn:Y2.
  2:{ intro H. injection H as _ _ ->. apply yieldMoves_Throw in Y2. discriminate. }
  fold (pruneStore s rowMoves colMoves).
  intro H. injection H as _ <- H.
  exists rowMoves, colMoves. repeat split; try assumption.
  simpl. rewrite app_nil_r.
  apply incl_app; [apply incl_appl | apply incl_appr];
    eapply yieldMoves_incl; eassumption.
Qed.

(** When a round gives up, every line still in a map has a tile that is
    unknown on the board the round leaves. *)
Lemma round_stuck_unknown (s : Store) (b b' : Board) (ms : list Move) (e : SolveError) :
  stuckInv rules s b -> round s b = (b', ms, Throw (Thrown e)) ->
  forall d k, In k (utils.keys (mapOf d s)) ->
    exists i, i < linesOf rules (other d)
              /\ cellAt b' (x (tileOf d k i)) (y (tileOf d k i)) = Some 0%Z.
Proof.
  intros Hinv E. pose proof Hinv as (Hwk & Hlok & Hnd & Hcells & Hka).
  pose proof (respectsFrame_round s b) as Hw. rewrite E in Hw. simpl in Hw.
  apply round_Thrown_facts in E as (rowMoves & colMoves & F1 & F2 & Hincl & Hp).
  pose proof (rows_nonempty _ _ F1) as Nr. pose proof (cols_nonempty _ _ F2) as Nc.
  destruct (pruneStore_stuck s rowMoves colMoves e Nr Nc Hp) as [Pr Pc].
  assert (Hpost : forall d0, Forall (prunedFrom d0 (other d0) (mapOf d0 s)
                                       (movesBy (other d0) rowMoves colMoves))
                                    (mapOf d0 s)).
  { intros [|]; assumption. }
  assert (Hns : forall d0 k solns, In (k, solns) (mapOf d0 s) ->
                                   isLineSolved solns = false).
  { intros d0 k solns Hin. pose proof (Hpost d0) as Hq. rewrite Forall_forall in Hq.
    destruct (Hq _ Hin) as (solns0 & Hin0 & Hn0 & _). cbn [fst] in Hin0.
    destruct (wellKeyed_range rules d0 s Hwk) as [_ Hdist].
    now rewrite (NoDup_keys_same _ _ _ _ Hdist Hin Hin0). }
  assert (Hkeys : forall d0, utils.keys (mapOf d0 s)
                             = utils.keys (unsolvedOf (mapOf d0 s))).
  { intro d0. unfold unsolvedOf. rewrite filter_all; [reflexivity|].
    intros [k solns] Hin. simpl. now rewrite (Hns d0 k solns Hin). }
  assert (Hcells' : forall x0 y0, x0 < length (row rules) -> y0 < length (column rules) ->
                      exists v, cellAt b' x0 y0 = Some v).
  { intros x0 y0 Hx Hy. destruct (Hcells x0 y0 Hx Hy) as [v Hv].
    destruct (writesZeroOnly_cell _ _ _ Hw _ _ _ Hv) as (v' & Hv' & _). now exists v'. }
  intros d k Hk. apply in_map_iff in Hk as ([k' solns] & Ek & Hin).
  simpl in Ek. subst k'.
  destruct (wellKeyed_range rules d s Hwk) as [Hrange _].
  rewrite Forall_forall in Hrange.
  apply (line_has_unknown rules d s b' k solns); try assumption.
  - apply (knownAgree_step rules d s s b b' rowMoves colMoves ms); try assumption.
    now apply dim_moves.
  - apply Hrange. now apply (in_map fst) in Hin.
  - pose proof (Hlok d) as Hok. rewrite Forall_forall in Hok. now apply Hok.
  - pose proof (Hnd d) as Hn. rewrite Forall_forall in Hn. now apply (Hn _ Hin).
  - destruct d; simpl in Hin.
    + rewrite Forall_forall in Nr. now apply (Nr _ Hin).
    + rewrite Forall_forall in Nc. now apply (Nc _ Hin).
  - now apply (Hns d k).
Qed.

Lemma loop_stuck_unknown (fuel : nat) (s : Store) (b b' : Board) (ms : list Move)
    (e : SolveError) :
  stuckInv rules s b ->
  loop fuel s b = (b', ms, Raised (Thrown e)) ->
  (forall x0, In x0 (unsolvedRows e) ->
     exists y0, y0 < length (column rules) /\ cellAt b' x0 y0 = Some 0%Z)
  /\ (forall y0, In y0 (unsolvedColumns e) ->
        exists x0, x0 < length (row rules) /\ cellAt b' x0 y0 = Some 0%Z).
Proof.
  revert s b b' ms. induction fuel as [|fuel IH]; intros s b b' ms Hs; cbn [loop].
  - destruct (_ || _); discriminate.
  - destruct (_ || _); [discriminate|].
    destruct (round s b) as [[b1 ms1] [s' | e0]] eqn:E.
    + pose proof (round_stuckInv _ _ _ _ _ Hs E) as Hs'.
      destruct (loop fuel s' b1) as [[b2 ms2] out] eqn:El.
      intro H. injection H as <- _ ->. eapply IH; eassumption.
    + intro H. injection H as <- _ ->.
      destruct Hs as (Hwk & Hrest).
      destruct (round_Thrown _ _ _ _ _ (wellKeyed_distinct rules s Hwk) E) as [Kr Kc].
      rewrite Kr, Kc.
      pose proof (round_stuck_unknown _ _ _ _ _ (conj Hwk Hrest) E) as Hu.
      split.
      * intros x0 Hx0. exact (Hu DimX x0 Hx0).
      * intros y0 Hy0. exact (Hu DimY y0 Hy0).
Qed.

Lemma generateLineSolns_NoDup (lineLength : nat) (rule : Rule) :
  properRule rule -> NoDup (generateLineSolns lineLength rule).
Proof.
  intro Hp. rewrite generateLineSolns_combs. cbv zeta.
  apply NoDup_map_NoDup_ForallPairs.
  - intros a a' Ha Ha' E.
    apply In_combs in Ha as [Hla Hinc]; [|lia].
    apply In_combs in Ha' as [Hla' Hinc']; [|lia].
    eapply decode_inj; eassumption.
  - eapply StronglySorted_NoDup; [exact lexLt_irrefl | apply combs_sorted].
Qed.

Lemma initialStore_stuckInv (b : Board) :
  properRules rules -> noZeroColour rules ->
  (forall x0 y0, x0 < length (row rules) -> y0 < length (column rules) ->
                 cellAt b x0 y0 = Some 0%Z) ->
  stuckInv rules (initialStore rules) b.
Proof.
  intros [Pr Pc] Hz Hb.
  destruct (initialStore_linesOk rules Hz) as [Lr Lc].
  split; [apply initialStore_wellKeyed|]. split; [|split; [|split]].
  - intros [|]; assumption.
  - intros [|]; simpl; apply Forall_forall; intros e He;
      apply In_mapi in He as (k & clue & Hk & ->); simpl;
      apply generateLineSolns_NoDup.
    + rewrite Forall_forall in Pr. apply Pr. eapply nth_error_In; eassumption.
    + rewrite Forall_forall in Pc. apply Pc. eapply nth_error_In; eassumption.
  - intros x0 y0 Hx Hy. exists 0%Z. now apply Hb.
  - intros d k solns i Hin Hi Hprem.
    destruct (wellKeyed_range rules d _ (initialStore_wellKeyed rules)) as [Hrange _].
    rewrite Forall_forall in Hrange.
    assert (Hk : k < linesOf rules d).
    { apply Hrange. now apply (in_map fst) in Hin. }
    destruct (tileOf_range rules d k i Hk Hi) as [Hx Hy].
    exfalso. destruct Hprem as [Hc | Hn].
    + apply Hc. now apply Hb.
    + apply Hn. destruct d; simpl in *.
      * rewrite (NoDup_keys_mapi (fun col _ => generateLineSolns _ col)).
        apply in_seq. lia.
      * rewrite (NoDup_keys_mapi (fun row _ => generateLineSolns _ row)).
        apply in_seq. lia.
Qed.

End StuckLoop.

(** X21.  On a puzzle with as many rows as columns whose clues are made
    of runs of at least one cell with colour ids other than 0 and -1,
    every line solve reports as unsolved has an unknown tile: each row
    index in the list of unsolved rows is the index of a row of the
    returned board that holds a 0, and each column index in the list of
    unsolved columns is the index of a column that holds a 0.  So
    solved=false is never reported with a board without unknown tile. *)
Theorem reported_lines_have_unknown_tile :
  forall (rules : Rules) (sol : Solution),
    properRules rules -> noZeroColour rules ->
    length (row rules) = length (column rules) ->
    solve rules = Returns sol ->
    (forall x0, In x0 (unsolved_rows sol) ->
       exists y0, y0 < length (column rules)
                  /\ cellAt (board sol) x0 y0 = Some 0%Z)
    /\ (forall y0, In y0 (unsolved_columns sol) ->
          exists x0, x0 < length (row rules)
                     /\ cellAt (board sol) x0 y0 = Some 0%Z)
    /\ (solved sol = false ->
        exists x0 y0, cellAt (board sol) x0 y0 = Some 0%Z).
Proof.
  intros rules sol Hp Hz Hsq Hsol. unfold solve in Hsol.
  destruct (generateMoves rules (generateEmptyBoardFor rules))
    as [[b' ms] [|[|e]|]] eqn:E; try discriminate; injection Hsol as <-;
    cbn [board unsolved_rows unsolved_columns solved].
  - split; [intros ? [] | split; [intros ? [] | discriminate]].
  - unfold generateMoves, generateMovesFuel in E.
    assert (Hu : (forall x0, In x0 (unsolvedRows e) ->
                    exists y0, y0 < length (column rules)
                               /\ cellAt b' x0 y0 = Some 0%Z)
                 /\ (forall y0, In y0 (unsolvedColumns e) ->
                       exists x0, x0 < length (row rules)
                                  /\ cellAt b' x0 y0 = Some 0%Z)).
    { apply (loop_stuck_unknown rules _ _ _ _ _ _) with (2 := E).
      apply initialStore_stuckInv; try assumption.
      intros x0 y0 Hx Hy. apply generateEmptyBoardFor_cell; lia. }
    destruct Hu as [Hur Huc]. split; [exact Hur|]. split; [exact Huc|].
    intros _.
    destruct (loop_Thrown rules _ _ _ _ _ _ (initialStore_wellKeyed rules) E)
      as (Hne & _).
    destruct (unsolvedRows e) as [|x0 rest]; [contradiction|].
    destruct (Hur x0 (or_introl eq_refl)) as (y0 & _ & H0).
    now exists x0, y0.
Qed.

Lemma reported_lines_have_unknown_tile_witness :
  solve {| column := [[R 1 1]; [R 1 1]]; row := [[R 1 1]; [R 1 1]] |}
  = Returns {| board := [[0; 0]; [0; 0]]%Z; solved := false;
               unsolved_rows := [0; 1]; unsolved_columns := [0; 1] |}
  /\ exists y0, y0 < 2 /\ cellAt [[0; 0]; [0; 0]]%Z 1 y0 = Some 0%Z.
Proof.
  split; [reflexivity|].
  assert (Hp : properRules {| column := [[R 1 1]; [R 1 1]]; row := [[R 1 1]; [R 1 1]] |}).
  { split; repeat constructor; simpl; try lia; discriminate. }
  assert (Hz : noZeroColour {| column := [[R 1 1]; [R 1 1]]; row := [[R 1 1]; [R 1 1]] |}).
  { split; repeat constructor; simpl; discriminate. }
  apply (proj1 (reported_lines_have_unknown_tile
                  {| column := [[R 1 1]; [R 1 1]]; row := [[R 1 1]; [R 1 1]] |}
                  {| board := [[0; 0]; [0; 0]]%Z; solved := false;
                     unsolved_rows := [0; 1]; unsolved_columns := [0; 1] |}
                  Hp Hz eq_refl eq_refl) 1).
  simpl. tauto.
Defined.

(* ================================================================== *)
(** ** Ambiguous puzzles, and the colours of the moves *)
(* ================================================================== *)

Section Ambiguous.

Variable rules : Rules.
Variable g : Board.
Hypothesis g_solution : isSolution rules g.

Lemma solve_returns_of_solution :
  length (row rules) <= length (column rules) ->
  exists sol, solve rules = Returns sol.
Proof.
  intro Hle.
  assert (Hb : length (row rules) <= length (generateEmptyBoardFor rules)).
  { unfold generateEmptyBoardFor, utils.count. now rewrite length_map, length_seq. }
  pose proof (loop_no_TypeError rules g g_solution (S (mass (initialStore rules)))
                (initialStore rules) _ (initialStore_keeps rules g g_solution)
                (initialStore_keysDistinct rules) Hb) as Hne.
  pose proof (solve_never_diverges rules) as Hnd.
  unfold solve in *. unfold generateMoves, generateMovesFuel in *.
  destruct (loop _ _ _) as [[b' ms] [|[|e]|]]; simpl in *.
  - eexists. reflexivity.
  - now exfalso.
  - eexists. reflexivity.
  - now exfalso.
Qed.

Lemma solve_board_agrees (sol : Solution) (x0 y0 : nat) (v : Z) :
  solve rules = Returns sol -> cellAt (board sol) x0 y0 = Some v ->
  v = 0%Z \/ cellAt g x0 y0 = Some v.
Proof.
  intros Hsol Hv.
  assert (Hb : board sol = fst (fst (generateMoves rules (generateEmptyBoardFor rules)))).
  { unfold solve in Hsol.
    destruct (generateMoves rules (generateEmptyBoardFor rules))
      as [[b' ms] [|[|e]|]]; try discriminate; injection Hsol as <-; reflexivity. }
  rewrite Hb in Hv. unfold generateMoves, generateMovesFuel in Hv.
  apply (writesZeroOnly_back g) with (b := generateEmptyBoardFor rules)
    (ms := snd (fst (loop (S (mass (initialStore rules))) (initialStore rules)
                       (generateEmptyBoardFor rules)))) in Hv.
  - destruct Hv as [H | H]; [left | now right].
    eapply generateEmptyBoardFor_zero; eassumption.
  - apply loop_frame.
  - apply (loop_sound rules g g_solution). now apply initialStore_keeps.
Qed.

End Ambiguous.

(** X22.  solve does not search: on a puzzle with as many rows as columns
    that has two different solutions, solve returns a Solution with
    solved=false, and every cell it has filled (every cell of the
    returned board that is not 0) has the value both solutions have
    there. *)
Theorem ambiguous_square_puzzle_is_reported_unsolved :
  forall (rules : Rules) (g g' : Board),
    length (row rules) = length (column rules) ->
    isSolution rules g -> isSolution rules g' -> g <> g' ->
    exists sol,
      solve rules = Returns sol
      /\ solved sol = false
      /\ forall x0 y0 v, cellAt (board sol) x0 y0 = Some v -> v <> 0%Z ->
           cellAt g x0 y0 = Some v /\ cellAt g' x0 y0 = Some v.
Proof.
  intros rules g g' Hsq Hg Hg' Hne.
  destruct (solve_returns_of_solution rules g Hg) as [sol Hsol]; [lia|].
  exists sol. split; [exact Hsol|]. split.
  - destruct (solved sol) eqn:Es; [|reflexivity].
    exfalso. apply Hne.
    destruct (solve_square_solved_solution rules g sol Hsq Hg Hsol Es) as [E _].
    destruct (solve_square_solved_solution rules g' sol Hsq Hg' Hsol Es) as [E' _].
    congruence.
  - intros x0 y0 v Hv Hnz. split.
    + destruct (solve_board_agrees rules g Hg sol x0 y0 v Hsol Hv); [contradiction | assumption].
    + destruct (solve_board_agrees rules g' Hg' sol x0 y0 v Hsol Hv); [contradiction | assumption].
Qed.

Lemma ambiguous_square_puzzle_is_reported_unsolved_witness :
  exists sol,
    solve {| column := [[R 1 1]; [R 1 1]]; row := [[R 1 1]; [R 1 1]] |} = Returns sol
    /\ solved sol = false
    /\ forall x0 y0 v, cellAt (board sol) x0 y0 = Some v -> v <> 0%Z ->
         cellAt [[1; -1]; [-1; 1]]%Z x0 y0 = Some v
         /\ cellAt [[-1; 1]; [1; -1]]%Z x0 y0 = Some v.
Proof.
  apply (ambiguous_square_puzzle_is_reported_unsolved
           {| column := [[R 1 1]; [R 1 1]]; row := [[R 1 1]; [R 1 1]] |}
           [[1; -1]; [-1; 1]]%Z [[-1; 1]; [1; -1]]%Z).
  - reflexivity.
  - split.
    + repeat constructor.
    + intros [|[|[|k]]] clue H; simpl in H; try discriminate;
        injection H as <-; reflexivity.
  - split.
    + repeat constructor.
    + intros [|[|[|k]]] clue H; simpl in H; try discriminate;
        injection H as <-; reflexivity.
  - discriminate.
Defined.

Section MoveColours.

Variable rules : Rules.

Lemma generateLineSolns_cells (lineLength : nat) (rule : Rule) (l : Line) (c : Z) :
  In l (generateLineSolns lineLength rule) -> In c l -> colourOf rule c.
Proof.
  intros Hl Hc. rewrite generateLineSolns_combs in Hl. cbv zeta in Hl.
  apply in_map_iff in Hl as [a [<- _]].
  pose proof (decode_cells (tagFrom None rule) 0
                (Z.to_nat (totalSlots lineLength rule)) a) as Hf.
  rewrite Forall_forall in Hf. destruct (Hf c Hc) as [-> | Hin]; [now left|].
  right. rewrite map_t_val_tagFrom in Hin.
  apply in_map_iff in Hin as [r [Hr Hin]]. now exists r.
Qed.

Lemma candsFrom_filter (clues : list Rule) (k : nat) (solns : list Line)
    (f : Line -> bool) :
  candsFrom clues (k, solns) -> candsFrom clues (k, filter f solns).
Proof.
  intros (clue & Hk & Hc). exists clue. split; [exact Hk|].
  intros l c Hl. apply filter_In in Hl as [Hl _]. now apply Hc.
Qed.

Lemma initialStore_candsFrom :
  Forall (candsFrom (row rules)) (rowMap (initialStore rules))
  /\ Forall (candsFrom (column rules)) (colMap (initialStore rules)).
Proof.
  split; apply Forall_forall; intros e He;
    apply In_mapi in He as (k & clue & Hk & ->); exists clue;
    (split; [exact Hk|]); intros l c; apply generateLineSolns_cells.
Qed.

Lemma forced_cell_colour (clues : list Rule) (k : nat) (solns : list Line)
    (indices : list nat) (solnMapper : nat -> Z -> Move) (moves : list Move)
    (m : Move) :
  candsFrom clues (k, solns) ->
  findValidMoves solns indices solnMapper = Ok moves -> In m moves ->
  exists i v clue, m = solnMapper i v /\ nth_error clues k = Some clue
                   /\ colourOf clue v.
Proof.
  intros (clue & Hk & Hc) Hf Hm. cbn [fst snd] in *.
  destruct (findValidMoves_sound _ _ _ _ Hf m Hm) as (i & v & -> & Hall).
  exists i, v, clue. split; [reflexivity|]. split; [exact Hk|].
  destruct solns as [|l0 rest]; [discriminate|].
  apply (Hc l0); [now left|].
  eapply nth_error_In. apply Hall. now left.
Qed.

Lemma round_fromClues (s : Store) (b b' : Board) (ms : list Move) (r : Res Store) :
  Forall (candsFrom (row rules)) (rowMap s) ->
  Forall (candsFrom (column rules)) (colMap s) ->
  round s b = (b', ms, r) ->
  Forall (moveFromClues rules) ms
  /\ forall s', r = Ok s' ->
       Forall (candsFrom (row rules)) (rowMap s')
       /\ Forall (candsFrom (column rules)) (colMap s').
Proof.
  intros Cr Cc. unfold round, bindG, liftG.
  destruct (flatMapR _ (utils.values (rowMap s))) as [rowMoves | e] eqn:E1.
  2:{ intro H. injection H as <- <- <-. split; [constructor | discriminate]. }
  destruct (flatMapR _ (utils.values (colMap s))) as [colMoves | e] eqn:E2.
  2:{ intro H. injection H as <- <- <-. split; [constructor | discriminate]. }
  assert (Hrm : Forall (moveFromClues rules) rowMoves).
  { apply Forall_forall. intros m Hm.
    destruct (flatMapR_In _ _ _ E1 m Hm) as ([k solns] & bs & He & Hf & Hin).
    rewrite Forall_forall in Cr.
    destruct (forced_cell_colour _ _ _ _ _ _ _ (Cr _ He) Hf Hin)
      as (i & v & clue & -> & Hk & Hc).
    left. exists clue. split; assumption. }
  assert (Hcm : Forall (moveFromClues rules) colMoves).
  { apply Forall_forall. intros m Hm.
    destruct (flatMapR_In _ _ _ E2 m Hm) as ([k solns] & bs & He & Hf & Hin).
    rewrite Forall_forall in Cc.
    destruct (forced_cell_colour _ _ _ _ _ _ _ (Cc _ He) Hf Hin)
      as (i & v & clue & -> & Hk & Hc).
    right. exists clue. split; assumption. }
  destruct (yieldMoves rowMoves b) as [[b1 ys1] r1] eqn:Y1.
  pose proof (yieldMoves_incl _ _ _ _ _ Y1) as I1.
  assert (A1 : Forall (moveFromClues rules) ys1).
  { rewrite Forall_forall in *. auto. }
  destruct r1 as [[] | e].
  2:{ intro H. injection H as <- <- <-. simpl. split; [assumption | discriminate]. }
  destruct (yieldMoves colMoves b1) as [[b2 ys2] r2] eqn:Y2.
  pose proof (yieldMoves_incl _ _ _ _ _ Y2) as I2.
  assert (A2 : Forall (moveFromClues rules) ys2).
  { rewrite Forall_forall in *. auto. }
  destruct r2 as [[] | e].
  2:{ intro H. injection H as <- <- <-. simpl.
      split; [apply Forall_app; auto | discriminate]. }
  fold (pruneStore s rowMoves colMoves).
  intro H. injection H as <- <- <-. simpl. rewrite app_nil_r. split.
  - apply Forall_app; auto.
  - intros s' E.
    apply (pruneStore_filterClosed (candsFrom (row rules)) (candsFrom (column rules))
             s s' rowMoves colMoves); try assumption.
    + intros k solns f. apply candsFrom_filter.
    + intros k solns f. apply candsFrom_filter.
Qed.

Lemma loop_fromClues (fuel : nat) (s : Store) (b : Board) :
  Forall (candsFrom (row rules)) (rowMap s) ->
  Forall (candsFrom (column rules)) (colMap s) ->
  Forall (moveFromClues rules) (snd (fst (loop fuel s b))).
Proof.
  revert s b. induction fuel as [|fuel IH]; intros s b Cr Cc; simpl.
  - destruct (_ || _); constructor.
  - destruct (_ || _); [constructor|].
    destruct (round s b) as [[b1 ms] r] eqn:E.
    destruct (round_fromClues _ _ _ _ _ Cr Cc E) as [Hms Hr].
    destruct r as [s' | e]; [|assumption].
    destruct (Hr s' eq_refl) as (Cr' & Cc').
    specialize (IH s' b1 Cr' Cc').
    destruct (loop fuel s' b1) as [[b2 ms'] out]. simpl in *.
    apply Forall_app; auto.
Qed.

(** A cell of the board after the moves holds what it held before, or
    the value of a move. *)
Lemma writesZeroOnly_source (b b' : Board) (ms : list Move) :
  writesZeroOnly b ms b' ->
  forall x0 y0 v, cellAt b' x0 y0 = Some v ->
    cellAt b x0 y0 = Some v
    \/ exists m, In m ms /\ tile m = {| x := x0; y := y0 |} /\ next m = v.
Proof.
  induction 1 as [b | b m ms b' Hz Hw IH]; intros x0 y0 v Hv; [now left|].
  destruct (IH x0 y0 v Hv) as [H | (m' & Hm' & Ht & Hn)].
  - rewrite cellAt_setCell in H.
    destruct (Nat.eqb (x (tile m)) x0 && Nat.eqb (y (tile m)) y0) eqn:E; [|now left].
    apply andb_true_iff in E as [Ex Ey]. apply Nat.eqb_eq in Ex, Ey. subst x0 y0.
    rewrite Hz in H. simpl in H. injection H as <-.
    right. exists m. split; [now left|]. split; [|reflexivity].
    now destruct (tile m).
  - right. exists m'. split; [now right|]. split; assumption.
Qed.

End MoveColours.

(** X23.  The moves generateMoves yields only use cell values of the
    clues: the value of every yielded move is -1 or the val of a run of
    the clue of the move's row or of the clue of the move's column.  So
    every cell of a board solve returns is 0, -1 or the val of a run of
    a clue of the puzzle. *)
Theorem moves_use_colours_of_the_clues :
  forall (rules : Rules),
    (forall (fuel : nat) (board0 : Board),
        Forall (moveFromClues rules) (snd (fst (generateMovesFuel fuel rules board0))))
    /\ forall (sol : Solution) (x0 y0 : nat) (v : Z),
         solve rules = Returns sol ->
         cellAt (board sol) x0 y0 = Some v ->
         v = 0%Z \/ v = (-1)%Z
         \/ exists clue r, (In clue (row rules) \/ In clue (column rules))
                           /\ In r clue /\ val r = v.
Proof.
  intro rules.
  assert (Hgen : forall fuel board0,
             Forall (moveFromClues rules)
                    (snd (fst (generateMovesFuel fuel rules board0)))).
  { intros fuel board0. unfold generateMovesFuel.
    destruct (initialStore_candsFrom rules) as [Cr Cc]. now apply loop_fromClues. }
  split; [exact Hgen|].
  intros sol x0 y0 v Hsol Hv.
  assert (Hb : board sol = fst (fst (generateMoves rules (generateEmptyBoardFor rules)))).
  { unfold solve in Hsol.
    destruct (generateMoves rules (generateEmptyBoardFor rules))
      as [[b' ms] [|[|e]|]]; try discriminate; injection Hsol as <-; reflexivity. }
  rewrite Hb in Hv. unfold generateMoves, generateMovesFuel in Hv.
  pose proof (loop_frame (S (mass (initialStore rules))) (initialStore rules)
                (generateEmptyBoardFor rules)) as Hw.
  destruct (writesZeroOnly_source _ _ _ Hw x0 y0 v Hv) as [H | (m & Hm & Ht & Hn)].
  - left. eapply generateEmptyBoardFor_zero; eassumption.
  - right. specialize (Hgen (S (mass (initialStore rules))) (generateEmptyBoardFor rules)).
    unfold generateMovesFuel in Hgen. rewrite Forall_forall in Hgen.
    destruct (Hgen m Hm) as [(clue & Hk & Hc) | (clue & Hk & Hc)];
      rewrite Hn in Hc; (destruct Hc as [-> | (r & Hr & Hval)]; [now left|]);
      right; exists clue, r; (split; [|split; assumption]).
    + left. eapply nth_error_In; eassumption.
    + right. eapply nth_error_In; eassumption.
Qed.

(* ================================================================== *)
(** ** Arc consistency at an intersection *)
(* ================================================================== *)

Section ArcConsistency.

Lemma colours_after_pruning (solns : list Line) (allowed : ColorSet) (i : nat)
    (c : option Z) :
  In c (getPossibleColors (fst (pruneByColors solns allowed i)) i)
  <-> In c (getPossibleColors solns i) /\ In c allowed.
Proof.
  rewrite !In_getPossibleColors, pruneByColors_fst. split.
  - intros (soln & Hs & E). apply filter_In in Hs as [Hs Hh].
    apply has_true in Hh. rewrite E in Hh. split; [now exists soln | exact Hh].
  - intros [(soln & Hs & E) Ha]. exists soln. split; [|exact E].
    apply filter_In. split; [exact Hs|]. apply has_true. now rewrite E.
Qed.

End ArcConsistency.

(** X24.  One mutual pruning at the intersection of a row and a column
    makes the two lines arc consistent there: afterwards a value is
    possible at the cell for the column exactly when it is possible for
    the row, and exactly when it was possible for both before.  A
    candidate is kept exactly when the value it has at the cell was
    possible for the other line too. *)
Theorem arc_pruning_leaves_the_same_colours :
  forall (colLines rowLines : list Line) (x y : nat),
    let combined := intersection (getPossibleColors colLines x)
                                 (getPossibleColors rowLines y) in
    let colSolns := fst (pruneByColors colLines combined x) in
    let rowSolns := fst (pruneByColors rowLines combined y) in
    (forall c, In c (getPossibleColors colSolns x) <-> In c combined)
    /\ (forall c, In c (getPossibleColors rowSolns y) <-> In c combined)
    /\ (forall c, In c combined
                  <-> In c (getPossibleColors colLines x)
                      /\ In c (getPossibleColors rowLines y))
    /\ (forall soln, In soln colSolns
                     <-> In soln colLines
                         /\ In (nth_error soln x) (getPossibleColors rowLines y))
    /\ (forall soln, In soln rowSolns
                     <-> In soln rowLines
                         /\ In (nth_error soln y) (getPossibleColors colLines x)).
Proof.
  intros colLines rowLines x y combined colSolns rowSolns.
  assert (Hc : forall c, In c combined
                         <-> In c (getPossibleColors colLines x)
                             /\ In c (getPossibleColors rowLines y)).
  { intro c. apply In_intersection. }
  split; [|split; [|split; [exact Hc|split]]].
  - intro c. unfold colSolns. rewrite colours_after_pruning, Hc. tauto.
  - intro c. unfold rowSolns. rewrite colours_after_pruning, Hc. tauto.
  - intro soln. unfold colSolns. rewrite pruneByColors_fst, filter_In, has_true, Hc.
    split; [tauto|]. intros [Hs Hr]. split; [exact Hs|]. split; [|exact Hr].
    apply In_getPossibleColors. now exists soln.
  - intro soln. unfold rowSolns. rewrite pruneByColors_fst, filter_In, has_true, Hc.
    split; [tauto|]. intros [Hs Hr]. split; [exact Hs|]. split; [exact Hr|].
    apply In_getPossibleColors. now exists soln.
Qed.
